(** * base_topo: the topology store and its path computations

    A shallow embedding of [base_topo.py].  Python objects are modelled as
    follows.

    - A [Node] object lives in [Graph.nodes]; a reference to it is its
      position in that list (nodes are only ever appended, so positions are
      stable).  Mutating [node.edges] is an in-place update of that slot,
      which is what every alias of the object observes.
    - An [Edge] object is immutable once [Node.add_edge] has filled it in
      ([Edge.remove] is never called by [Graph]); its identity is the serial
      number it received when it was allocated.
    - A Python exception is a [Raise] outcome; the store keeps whatever
      mutations happened before the exception.
*)

From stdpp Require Import gmap strings list fin_maps.
From Stdlib Require Import ZArith Lia Sorted.

Set Default Proof Using "Type".
Open Scope string_scope.
Open Scope list_scope.
Open Scope nat_scope.

(** ** Exceptions and outcomes *)

Inductive Exn :=
| DuplicateNodeNameException
| NodeTypeNotFoundException
| ValueError      (* list.index / list.remove on a missing element *)
| TypeError       (* indexing a list with None *)
| IndexError      (* list index out of range *)
| KeyError        (* dictionary lookup of a missing key *)
| ForeignNode     (* a node reference that is not a position of [Graph.nodes] *)
| Diverges.       (* a loop that does not come to an end *)

Inductive Result (A : Type) :=
| Ok (a : A)
| Raise (e : Exn).
Arguments Ok {A} a.
Arguments Raise {A} e.

Definition rbind {A B} (r : Result A) (k : A → Result B) : Result B :=
  match r with
  | Ok a => k a
  | Raise e => Raise e
  end.

#[global] Instance Result_ret : MRet Result := @Ok.
#[global] Instance Result_bind : MBind Result := λ A B k r, rbind r k.
#[global] Instance Result_fmap : FMap Result :=
  λ A B f r, rbind r (λ a, Ok (f a)).

Definition of_option {A} (e : Exn) (o : option A) : Result A :=
  match o with
  | Some a => Ok a
  | None => Raise e
  end.

(** [sys.maxsize] on a 64-bit CPython. *)
Definition maxsize : Z := 2 ^ 63 - 1.

(** An adjacency-matrix entry: [float('inf')] or the integer [1]. *)
Inductive Weight :=
| Inf
| Fin (w : Z).

(** ** Edge *)

Module Edge.

Record t := mk { eid : nat; lnode : nat; rnode : nat }.

End Edge.

#[global] Instance Edge_eq_dec : EqDecision Edge.t.
Proof. solve_decision. Defined.

(** ** Node *)

Module Node.

Record t := mk { id : string; type : string; edges : list Edge.t }.

(** [Node.add_edge]: a new [Edge] with [lnode = self] and [rnode = node] is
    appended to [self.edges] and returned.  [fresh] is the identity of the
    new object. *)
Definition add_edge (fresh self node : nat) (n : t) : Edge.t * t :=
  let edge := Edge.mk fresh self node in
  (edge, mk (id n) (type n) (edges n ++ [edge])).

(** [list.remove(x)]: drops the first element that is [x] (identity, as
    [Edge] defines no [__eq__]); [ValueError] when there is none. *)
Fixpoint list_remove (x : Edge.t) (l : list Edge.t) : option (list Edge.t) :=
  match l with
  | [] => None
  | e :: l' =>
      if Nat.eqb (Edge.eid e) (Edge.eid x) then Some l'
      else cons e <$> list_remove x l'
  end.

(** [Node.remove_edge] *)
Definition remove_edge (edge : Edge.t) (n : t) : Result t :=
  of_option ValueError (mk (id n) (type n) <$> list_remove edge (edges n)).

(** [Node.is_neighbor]: some incident edge has [node] at either end. *)
Definition is_neighbor (n : t) (node : nat) : bool :=
  existsb (λ edge, Nat.eqb (Edge.lnode edge) node || Nat.eqb (Edge.rnode edge) node)
          (edges n).

End Node.

(** ** Observers

    Modelled from the spec: the [Composable] base class is imported from
    [composables.composable_base], which is not part of the sources.  The
    spec describes it as a listener notified synchronously of node and edge
    mutations; an observer is modelled by the sequence of notifications it
    has received. *)

Inductive Event :=
| NodeAdded (n : string)
| EdgeAdded (n1 n2 : string)
| EdgeRemoved (n1 n2 : string).

Record Composable := mkComposable { received : list Event }.

Definition deliver (ev : Event) (c : Composable) : Composable :=
  mkComposable (received c ++ [ev]).

(** ** Graph: the topology store *)

Module Graph.

Record t := mk {
  composables : list Composable;
  graph_name : string;
  nodes : list Node.t;
  node_names : list string;
  edges : list Edge.t;
  adjacency_matrix : option (list (list Weight));
  allocated : nat   (* number of [Edge] objects created so far *)
}.

(** [Graph.__init__] *)
Definition init (name : string) : t := mk [] name [] [] [] None 0.

(** Store operations run in a state monad over the store; an exception
    leaves the store as it was when the exception was raised. *)
Definition M (A : Type) := t → Result A * t.

Definition ret {A} (a : A) : M A := λ g, (Ok a, g).
Definition raise {A} (e : Exn) : M A := λ g, (Raise e, g).
Definition bind {A B} (m : M A) (k : A → M B) : M B :=
  λ g, match m g with
       | (Ok a, g') => k a g'
       | (Raise e, g') => (Raise e, g')
       end.
Definition lift {A} (r : Result A) : M A := λ g, (r, g).
Definition get : M t := λ g, (Ok g, g).

Declare Scope store_scope.
Delimit Scope store_scope with store.
Notation "'let*' x := m 'in' k" := (bind m (λ x, k))
  (at level 10, x name, m at level 100, k at level 200) : store_scope.
Notation "m >> k" := (bind m (λ _, k))
  (at level 100, k at level 200, right associativity) : store_scope.
Open Scope store_scope.

Definition set_composables (cs : list Composable) (g : t) : t :=
  mk cs (graph_name g) (nodes g) (node_names g) (edges g)
     (adjacency_matrix g) (allocated g).
Definition set_nodes (ns : list Node.t) (g : t) : t :=
  mk (composables g) (graph_name g) ns (node_names g) (edges g)
     (adjacency_matrix g) (allocated g).
Definition set_node_names (ids : list string) (g : t) : t :=
  mk (composables g) (graph_name g) (nodes g) ids (edges g)
     (adjacency_matrix g) (allocated g).
Definition set_edges (es : list Edge.t) (g : t) : t :=
  mk (composables g) (graph_name g) (nodes g) (node_names g) es
     (adjacency_matrix g) (allocated g).
Definition set_adjacency_matrix (a : option (list (list Weight))) (g : t) : t :=
  mk (composables g) (graph_name g) (nodes g) (node_names g) (edges g)
     a (allocated g).
Definition set_allocated (k : nat) (g : t) : t :=
  mk (composables g) (graph_name g) (nodes g) (node_names g) (edges g)
     (adjacency_matrix g) k.

(** [for c in self.composables: c.<hook>(...)] *)
Definition notify (ev : Event) : M unit :=
  λ g, (Ok tt, set_composables (deliver ev <$> composables g) g).

(** [Graph.add_composable] *)
Definition add_composable (c : Composable) : M unit :=
  λ g, (Ok tt, set_composables (composables g ++ [c]) g).

(** Membership test [n in self.node_names]. *)
Fixpoint contains (n : string) (l : list string) : bool :=
  match l with
  | [] => false
  | x :: l' => if String.eqb x n then true else contains n l'
  end.

(** [list.index]: position of the first occurrence. *)
Fixpoint index (n : string) (l : list string) : option nat :=
  match l with
  | [] => None
  | x :: l' => if String.eqb x n then Some 0 else S <$> index n l'
  end.

(** [Graph.add_node]; the result is the reference to the new node. *)
Definition add_node (n t : string) : M nat :=
  λ g,
    if contains n (node_names g) then (Raise DuplicateNodeNameException, g)
    else
      let nd := length (nodes g) in
      let g1 := set_nodes (nodes g ++ [Node.mk n t []]) g in
      let g2 := set_node_names (node_names g1 ++ [n]) g1 in
      (notify (NodeAdded n) >> ret nd) g2.

(** Dereference a node reference. *)
Definition node (r : nat) : M Node.t :=
  λ g, (of_option ForeignNode (nodes g !! r), g).

(** [self.nodes[self.node_names.index(n)]] *)
Definition node_by_name (n : string) : M nat :=
  λ g, match index n (node_names g) with
       | None => (Raise ValueError, g)
       | Some i => if decide (i < length (nodes g)) then (Ok i, g)
                   else (Raise IndexError, g)
       end.

(** The call [n_a.add_edge(n_b)] made on the node object at position [a]. *)
Definition node_add_edge (a b : nat) : M Edge.t :=
  let* na := node a in
  λ g,
    let '(edge, na') := Node.add_edge (allocated g) a b na in
    (Ok edge, set_allocated (S (allocated g)) (set_nodes (<[a := na']> (nodes g)) g)).

(** [Graph.add_edge] *)
Definition add_edge (n1 n2 : string) : M unit :=
  let* n_1 := node_by_name n1 in
  let* n_2 := node_by_name n2 in
  let* edge := node_add_edge n_1 n_2 in
  node_add_edge n_2 n_1 >>
  (λ g, (Ok tt, set_edges (edges g ++ [edge]) g)) >>
  notify (EdgeAdded n1 n2).

(** [Graph.get_node_by_id]: the first node with this id, or [None]. *)
Definition get_node_by_id (i : string) (g : t) : option nat :=
  fst <$> list_find (λ n, Node.id n = i) (nodes g).

(** The id of the node behind a reference. *)
Definition node_id (g : t) (r : nat) : Result string :=
  of_option ForeignNode (Node.id <$> nodes g !! r).

(** The search loop of [Graph.remove_edge]: the first edge [e] of [n.edges]
    with [e.rnode.id == t.id and e.lnode.id == n.id]. *)
Fixpoint find_edge (g : t) (nid tid : string) (es : list Edge.t)
  : Result (option Edge.t) :=
  match es with
  | [] => Ok None
  | e :: es' =>
      rid ← node_id g (Edge.rnode e);
      if String.eqb rid tid then
        lid ← node_id g (Edge.lnode e);
        if String.eqb lid nid then Ok (Some e) else find_edge g nid tid es'
      else find_edge g nid tid es'
  end.

(** [Graph.remove_edge].  Both arguments are dereferenced first: the model
    covers calls on nodes of the store. *)
Definition remove_edge (n t : nat) : M unit :=
  let* nn := node n in
  let* tn := node t in
  let* g := get in
  let* edge_to_remove :=
    lift (find_edge g (Node.id nn) (Node.id tn) (Node.edges nn)) in
  match edge_to_remove with
  | Some e =>
      let* nn' := lift (Node.remove_edge e nn) in
      λ g, (Ok tt, set_nodes (<[n := nn']> (nodes g)) g)
  | None => ret tt
  end >>
  notify (EdgeRemoved (Node.id nn) (Node.id tn)).

(** A node definition [(name, attributes)]; the attributes are a dictionary
    whose values may be [None]. *)
Definition NodeDefn : Type := string * gmap string (option string).

(** [n[1].get('type')] *)
Definition get_type (d : NodeDefn) : option string := mjoin (d.2 !! "type").

(** [Graph.create_nodes_from_array] *)
Fixpoint create_nodes_from_array (node_defn_array : list NodeDefn) : M unit :=
  match node_defn_array with
  | [] => ret tt
  | n :: rest =>
      match get_type n with
      | None => raise NodeTypeNotFoundException
      | Some ty => add_node n.1 ty >> create_nodes_from_array rest
      end
  end.

(** [Graph.generate_adjancency_matrix]: built once, then served from the
    cache. *)
Definition build_matrix (g : t) : list (list Weight) :=
  (λ ni, (λ j, if Node.is_neighbor ni j then Fin 1 else Inf)
           <$> seq 0 (length (nodes g)))
  <$> nodes g.

Definition generate_adjancency_matrix : M (list (list Weight)) :=
  λ g, match adjacency_matrix g with
       | Some adj => (Ok adj, g)
       | None => let adj := build_matrix g in
                 (Ok adj, set_adjacency_matrix (Some adj) g)
       end.

(** [Graph.get_all_hosts]: the nodes whose *name* starts with [h], in store
    order. *)
Definition startswith (s pre : string) : bool := String.prefix pre s.

Definition host_idxs (g : t) : list (nat * string) :=
  List.filter (λ x, startswith x.2 "h") (imap pair (node_names g)).

Definition get_all_hosts : M (list nat) :=
  λ g, (of_option IndexError
          (mapM (λ x : nat * string,
                   if decide (x.1 < length (nodes g)) then Some x.1 else None)
                (host_idxs g)), g).

End Graph.

(** ** The [heapq] module

    Modelled from CPython's [heapq] (a library, not part of the sources):
    [heappush] and [heappop] on a list used as a binary min-heap.  The heap
    holds the tuples [(distance, node)] pushed by the solver.  Tuples are
    compared lexicographically: on distinct distances by [<] on integers; on
    equal distances and distinct nodes by [Node.__lt__], which returns
    [self], a truthy object; two tuples with the same distance and the same
    node are equal, so [<] is false. *)

Module heapq.

Definition item : Type := Z * nat.

#[global] Instance item_inhabited : Inhabited item := populate (0%Z, 0).

Definition item_lt (a b : item) : bool :=
  if Z.eqb a.1 b.1 then negb (Nat.eqb a.2 b.2) else Z.ltb a.1 b.1.

(** The loop of [_siftdown(heap, startpos, pos)]; [pos] shrinks on every
    turn, so [pos] turns are enough. *)
Fixpoint siftdown_loop (turns : nat) (heap : list item) (startpos pos : nat)
  (newitem : item) : list item :=
  match turns with
  | 0 => <[pos := newitem]> heap
  | S turns' =>
      if decide (startpos < pos) then
        let parentpos := (pos - 1) / 2 in
        let parent := heap !!! parentpos in
        if item_lt newitem parent then
          siftdown_loop turns' (<[pos := parent]> heap) startpos parentpos newitem
        else <[pos := newitem]> heap
      else <[pos := newitem]> heap
  end.

Definition siftdown (heap : list item) (startpos pos : nat) : list item :=
  siftdown_loop pos heap startpos pos (heap !!! pos).

(** The loop of [_siftup(heap, pos)]: bubble the smaller child up until a
    leaf is hit; returns the heap and the final [pos]. *)
Fixpoint siftup_loop (turns : nat) (heap : list item) (endpos pos : nat)
  : list item * nat :=
  match turns with
  | 0 => (heap, pos)
  | S turns' =>
      let childpos := 2 * pos + 1 in
      if decide (childpos < endpos) then
        let rightpos := childpos + 1 in
        let childpos :=
          if decide (rightpos < endpos) then
            if item_lt (heap !!! childpos) (heap !!! rightpos) then childpos
            else rightpos
          else childpos in
        siftup_loop turns' (<[pos := heap !!! childpos]> heap) endpos childpos
      else (heap, pos)
  end.

Definition siftup (heap : list item) (pos : nat) : list item :=
  let newitem := heap !!! pos in
  let '(heap', pos') := siftup_loop (length heap) heap (length heap) pos in
  siftdown (<[pos' := newitem]> heap') pos pos'.

Definition heappush (heap : list item) (x : item) : list item :=
  siftdown (heap ++ [x]) 0 (length heap).

(** [heappop] on a non-empty heap (the solver only pops under
    [while priority_queue]); [None] stands for the [IndexError] on an empty
    one. *)
Definition heappop (heap : list item) : option (item * list item) :=
  match reverse heap with
  | [] => None
  | lastelt :: rest =>
      let heap' := reverse rest in
      match heap' with
      | [] => Some (lastelt, [])
      | returnitem :: _ => Some (returnitem, siftup (<[0 := lastelt]> heap') 0)
      end
  end.

End heapq.

(** ** The priority-queue solver *)

Module Heap.

Import Graph.

(** [distance = defaultdict(lambda: sys.maxsize)].  Reading a missing key
    yields [sys.maxsize] (Python also stores that default under the key,
    which no later read can tell apart). *)
Definition dget (distance : gmap string Z) (k : string) : Z :=
  default maxsize (distance !! k).

Record state := mk {
  visited : gset nat;
  priority_queue : list heapq.item;
  pathMap : gmap nat nat;
  distance : gmap string Z
}.

(** One turn of [for edge in node.edges]. *)
Definition relax (g : Graph.t) (node : nat) (nid : string) (st : state)
  (edge : Edge.t) : Result state :=
  if bool_decide (Edge.rnode edge ∈ visited st) then Ok st
  else
    let new_distance := (dget (distance st) nid + 1)%Z in
    rid ← node_id g (Edge.rnode edge);
    if Z.ltb new_distance (dget (distance st) rid) then
      Ok (mk (visited st)
             (heapq.heappush (priority_queue st) (new_distance, Edge.rnode edge))
             (<[Edge.rnode edge := node]> (pathMap st))
             (<[rid := new_distance]> (distance st)))
    else Ok st.

Fixpoint relax_all (g : Graph.t) (node : nat) (nid : string) (st : state)
  (es : list Edge.t) : Result state :=
  match es with
  | [] => Ok st
  | edge :: es' => st' ← relax g node nid st edge; relax_all g node nid st' es'
  end.

(** One turn of [while priority_queue]; [inr] when the queue is empty and
    the loop is left. *)
Definition turn (g : Graph.t) (st : state) : Result (state + state) :=
  match heapq.heappop (priority_queue st) with
  | None => Ok (inr st)
  | Some ((_, node), pq') =>
      let st1 := mk ({[node]} ∪ visited st) pq' (pathMap st) (distance st) in
      nd ← of_option ForeignNode (nodes g !! node);
      st2 ← relax_all g node (Node.id nd) st1 (Node.edges nd);
      Ok (inl st2)
  end.

(** At most [budget] turns of the loop, counted in binary so that the
    budget itself is never unfolded: [inl] is a state with the loop still
    running. *)
Fixpoint turns (budget : positive) (g : Graph.t) (st : state)
  : Result (state + state) :=
  match budget with
  | xH => turn g st
  | xO b =>
      r ← turns b g st;
      match r with inl st' => turns b g st' | inr st' => Ok (inr st') end
  | xI b =>
      r ← turn g st;
      match r with
      | inr st' => Ok (inr st')
      | inl st1 =>
          r ← turns b g st1;
          match r with inl st' => turns b g st' | inr st' => Ok (inr st') end
      end
  end.

(** Every push lowers one node's distance by at least one and every turn
    pops one entry, which bounds the number of turns by this budget. *)
Definition budget (g : Graph.t) : positive :=
  Pos.of_succ_nat (length (nodes g)) * 2 ^ 65.

(** [Graph.compute_dijkstra_using_heap]; [dst] is not used by the source.
    A loop that outlives the budget is reported as [Diverges]. *)
Definition compute_dijkstra_using_heap (g : Graph.t) (src : nat)
  : Result (gmap string Z * gmap nat nat) :=
  sid ← node_id g src;
  let st0 := mk ∅ (heapq.heappush [] (0%Z, src)) ∅ (<[sid := 0%Z]> ∅) in
  r ← turns (budget g) g st0;
  match r with
  | inr st => Ok (distance st, pathMap st)
  | inl _ => Raise Diverges
  end.

End Heap.

(** ** The matrix solver *)

Module Spt.

Import Graph.

(** The selection loop: the first unsettled vertex of least tentative
    distance below [sys.maxsize], if any. *)
Fixpoint select (dist : list Z) (sptSet : list bool) (us : list nat)
  (min_val : Z) (min_idx : option nat) : Result (option nat) :=
  match us with
  | [] => Ok min_idx
  | u :: us' =>
      du ← of_option IndexError (dist !! u);
      if Z.ltb du min_val then
        su ← of_option IndexError (sptSet !! u);
        if negb su then select dist sptSet us' du (Some u)
        else select dist sptSet us' min_val min_idx
      else select dist sptSet us' min_val min_idx
  end.

(** [adj_mat[min_idx][y]]: indexing with [None] is a [TypeError]. *)
Definition entry (adj_mat : list (list Weight)) (min_idx : option nat) (y : nat)
  : Result Weight :=
  match min_idx with
  | None => Raise TypeError
  | Some m =>
      row ← of_option IndexError (adj_mat !! m);
      of_option IndexError (row !! y)
  end.

Definition positive_weight (w : Weight) : bool :=
  match w with Inf => true | Fin z => Z.ltb 0 z end.

(** [a > b + w] for an integer [a] and [b + w] possibly [inf]. *)
Definition exceeds (a b : Z) (w : Weight) : bool :=
  match w with Inf => false | Fin z => Z.ltb (b + z) a end.

Definition plus (b : Z) (w : Weight) : Z :=
  match w with Inf => b | Fin z => (b + z)%Z end.

(** The relaxation loop over [y]; the conjuncts are evaluated left to
    right, as [and] does. *)
Fixpoint relax (adj_mat : list (list Weight)) (min_idx : option nat)
  (sptSet : list bool) (dist : list Z) (ys : list nat) : Result (list Z) :=
  match ys with
  | [] => Ok dist
  | y :: ys' =>
      w ← entry adj_mat min_idx y;
      if positive_weight w then
        sy ← of_option IndexError (sptSet !! y);
        if negb sy then
          m ← of_option TypeError min_idx;
          dm ← of_option IndexError (dist !! m);
          if negb (Z.eqb dm maxsize) then
            dy ← of_option IndexError (dist !! y);
            if exceeds dy dm w then
              relax adj_mat min_idx sptSet (<[y := plus dm w]> dist) ys'
            else relax adj_mat min_idx sptSet dist ys'
          else relax adj_mat min_idx sptSet dist ys'
        else relax adj_mat min_idx sptSet dist ys'
      else relax adj_mat min_idx sptSet dist ys'
  end.

(** The outer loop, [rounds] times. *)
Fixpoint rounds (k : nat) (n : nat) (adj_mat : list (list Weight))
  (sptSet : list bool) (dist : list Z) : Result (list Z) :=
  match k with
  | 0 => Ok dist
  | S k' =>
      min_idx ← select dist sptSet (seq 0 n) maxsize None;
      let sptSet' :=
        match min_idx with
        | Some m => <[m := true]> sptSet
        | None => sptSet
        end in
      dist' ← relax adj_mat min_idx sptSet' dist (seq 0 n);
      rounds k' n adj_mat sptSet' dist'
  end.

(** [Graph.compute_dijikstra_using_spt] *)
Definition compute_dijikstra_using_spt (src dst : nat) : M Z :=
  let* g := get in
  let* sid := lift (node_id g src) in
  let* src_idx := lift (of_option ValueError (index sid (node_names g))) in
  let* did := lift (node_id g dst) in
  let* dst_idx := lift (of_option ValueError (index did (node_names g))) in
  let* adj_mat := generate_adjancency_matrix in
  let n := length (nodes g) in
  let dist := replicate n maxsize in
  let* _ := lift (of_option IndexError (dist !! src_idx)) in
  let dist := <[src_idx := 0%Z]> dist in
  let sptSet := replicate n false in
  let* dist := lift (rounds n n adj_mat sptSet dist) in
  lift (of_option IndexError (dist !! dst_idx)).

End Spt.

(** ** Path reconstruction and Yen's k shortest paths *)

Module Yen.

Import Graph.

(** An entry [{'cost': c, 'path': p}] of the lists [A] and [B]. *)
Record entry := mk { cost : Z; path_of : list nat }.

#[global] Instance entry_eq_dec : EqDecision entry.
Proof. solve_decision. Defined.

(** The [while True] loop of [Graph.path]; every turn moves to a
    predecessor, and [turns] bounds the walk. *)
Fixpoint path_loop (turns : nat) (g : Graph.t) (previous : gmap nat nat)
  (node_start node_curr : nat) (route : list nat) : Result (list nat) :=
  match turns with
  | 0 => Raise Diverges
  | S turns' =>
      let route := route ++ [node_curr] in
      match previous !! node_curr with
      | None => Ok route
      | Some p =>
          pid ← node_id g p;
          sid ← node_id g node_start;
          if String.eqb pid sid then Ok (route ++ [node_start])
          else path_loop turns' g previous node_start p route
      end
  end.

(** [Graph.path] *)
Definition path (g : Graph.t) (previous : gmap nat nat)
  (node_start node_end : nat) : Result (list nat) :=
  reverse <$> path_loop (S (length (nodes g))) g previous node_start node_end [].

(** [potential_k in B]: dictionaries are equal when their costs and their
    node sequences are. *)
Definition mem (e : entry) (B : list entry) : bool := bool_decide (e ∈ B).

(** [sorted(B, key=itemgetter('cost'))].  Modelled from Python's [sorted],
    which is stable: entries of equal cost keep their order. *)
Fixpoint insert_by_cost (e : entry) (l : list entry) : list entry :=
  match l with
  | [] => [e]
  | x :: l' => if Z.leb (cost e) (cost x) then e :: l else x :: insert_by_cost e l'
  end.

Definition sorted (B : list entry) : list entry := foldr insert_by_cost [] B.

(** The loop [for path_k in A] that removes, for every accepted path with
    the same root, the edge leaving the spur node. *)
Fixpoint remove_shared (i : nat) (path_root : list nat) (A : list entry)
  (edges_removed : list (nat * nat)) : M (list (nat * nat)) :=
  match A with
  | [] => ret edges_removed
  | path_k :: A' =>
      let curr_path := path_of path_k in
      if bool_decide (i < length curr_path)
         && bool_decide (path_root = take (S i) curr_path) then
        let* u := lift (of_option IndexError (curr_path !! i)) in
        let* v := lift (of_option IndexError (curr_path !! S i)) in
        remove_edge u v >>
        remove_shared i path_root A' (edges_removed ++ [(u, v)])
      else remove_shared i path_root A' edges_removed
  end.

(** The loop [for edge in edges_removed] that adds the edges again. *)
Fixpoint restore (edges_removed : list (nat * nat)) : M unit :=
  match edges_removed with
  | [] => ret tt
  | (u, v) :: rest =>
      let* g := get in
      let* uid := lift (node_id g u) in
      let* vid := lift (node_id g v) in
      add_edge uid vid >> restore rest
  end.

(** The body of [for i in range(0, len(current_path) - 1)]: one spur
    position.  The result is the new candidate list [B]. *)
Definition spur_step (distances : gmap string Z) (node_end : nat)
  (A B : list entry) (i : nat) : M (list entry) :=
  let* current := lift (of_option IndexError (last A)) in
  let* node_spur := lift (of_option IndexError (path_of current !! i)) in
  let path_root := take (S i) (path_of current) in
  let* edges_removed := remove_shared i path_root A [] in
  let* g := get in
  let* solved := lift (Heap.compute_dijkstra_using_heap g node_spur) in
  let* spur := lift (path g solved.2 node_spur node_end) in
  let path_total := take (length path_root - 1) path_root ++ spur in
  let* sid := lift (node_id g node_spur) in
  let* eid := lift (node_id g node_end) in
  let dist_total := (Heap.dget distances sid + Heap.dget solved.1 eid)%Z in
  let potential_k := mk dist_total path_total in
  let B := if mem potential_k B then B else B ++ [potential_k] in
  restore edges_removed >>
  ret B.

Fixpoint spur_steps (distances : gmap string Z) (node_end : nat)
  (A B : list entry) (positions : list nat) : M (list entry) :=
  match positions with
  | [] => ret B
  | i :: positions' =>
      let* B' := spur_step distances node_end A B i in
      spur_steps distances node_end A B' positions'
  end.

(** The loop [for k in range(1, max_k)], [rounds] turns of it. *)
Fixpoint ksp_loop (rounds : nat) (distances : gmap string Z) (node_end : nat)
  (A B : list entry) : M (list entry) :=
  match rounds with
  | 0 => ret A
  | S rounds' =>
      let* current := lift (of_option IndexError (last A)) in
      let* B :=
        spur_steps distances node_end A B (seq 0 (length (path_of current) - 1)) in
      match B with
      | [] => ret A
      | _ :: _ =>
          match sorted B with
          | [] => raise IndexError
          | b0 :: B' => ksp_loop rounds' distances node_end (A ++ [b0]) B'
          end
      end
  end.

(** [Graph.compute_yen_ksp] *)
Definition compute_yen_ksp (node_start node_end : nat) (max_k : Z)
  : M (list entry) :=
  let* g := get in
  let* solved := lift (Heap.compute_dijkstra_using_heap g node_start) in
  let* eid := lift (node_id g node_end) in
  let* p := lift (path g solved.2 node_start node_end) in
  let A := [mk (Heap.dget solved.1 eid) p] in
  match p with
  | [] => ret A
  | _ :: _ => ksp_loop (Z.to_nat (max_k - 1)) solved.1 node_end A []
  end.

End Yen.

(** ** A call on the nodes of another store

    [compute_yen_for_server_permutation_pairs] calls
    [graph.compute_yen_ksp(h[0], h[1], 64)] with [graph = copy.deepcopy(self)]
    and [h] a pair of [Node] objects of [self] itself.  In such a call,
    the code that goes through the node objects it was handed (the solver,
    [path], and the search and the removal in [remove_edge]) reads and
    updates the store that owns them, [original]; the code that goes
    through [self] ([add_edge], which looks the ids up in
    [self.node_names], and the observers) acts on the store the method was
    called on, [copy].  A node reference is a position of
    [original]. *)

Module Detached.

Import Graph.

Record t := mk { original : Graph.t; copy : Graph.t }.

Definition M (A : Type) := t → Result A * t.

Definition ret {A} (a : A) : M A := λ p, (Ok a, p).
Definition bind {A B} (m : M A) (k : A → M B) : M B :=
  λ p, match m p with
       | (Ok a, p') => k a p'
       | (Raise e, p') => (Raise e, p')
       end.
Definition lift {A} (r : Result A) : M A := λ p, (r, p).
Definition get : M t := λ p, (Ok p, p).

(** An operation on the nodes that were handed in. *)
Definition on_original {A} (m : Graph.M A) : M A :=
  λ p, match m (original p) with (r, g) => (r, mk g (copy p)) end.

(** An operation on [self]. *)
Definition on_copy {A} (m : Graph.M A) : M A :=
  λ p, match m (copy p) with (r, g) => (r, mk (original p) g) end.

Declare Scope detached_scope.
Delimit Scope detached_scope with detached.
Notation "'let*' x := m 'in' k" := (bind m (λ x, k))
  (at level 10, x name, m at level 100, k at level 200) : detached_scope.
Notation "m >> k" := (bind m (λ _, k))
  (at level 100, k at level 200, right associativity) : detached_scope.
#[local] Open Scope detached_scope.

(** [self.remove_edge(n, t)]: the loop over [n.edges] and the call
    [n.remove_edge(edge_to_remove)] work on the node that was handed in;
    the observers told about it are those of [self]. *)
Definition remove_edge (n t : nat) : M unit :=
  let* nn := on_original (node n) in
  let* tn := on_original (node t) in
  let* p := get in
  let* edge_to_remove :=
    lift (find_edge (original p) (Node.id nn) (Node.id tn) (Node.edges nn)) in
  match edge_to_remove with
  | Some e =>
      let* nn' := lift (Node.remove_edge e nn) in
      on_original (λ g, (Ok tt, set_nodes (<[n := nn']> (nodes g)) g))
  | None => ret tt
  end >>
  on_copy (notify (EdgeRemoved (Node.id nn) (Node.id tn))).

(** The loop [for path_k in A] of [compute_yen_ksp]. *)
Fixpoint remove_shared (i : nat) (path_root : list nat) (A : list Yen.entry)
  (edges_removed : list (nat * nat)) : M (list (nat * nat)) :=
  match A with
  | [] => ret edges_removed
  | path_k :: A' =>
      let curr_path := Yen.path_of path_k in
      if bool_decide (i < length curr_path)
         && bool_decide (path_root = take (S i) curr_path) then
        let* u := lift (of_option IndexError (curr_path !! i)) in
        let* v := lift (of_option IndexError (curr_path !! S i)) in
        remove_edge u v >>
        remove_shared i path_root A' (edges_removed ++ [(u, v)])
      else remove_shared i path_root A' edges_removed
  end.

(** The loop [for edge in edges_removed]:
    [self.add_edge(edge[0].id, edge[1].id)] reads the ids off the nodes
    that were handed in and adds the edge between the nodes of [self] that
    carry these ids. *)
Fixpoint restore (edges_removed : list (nat * nat)) : M unit :=
  match edges_removed with
  | [] => ret tt
  | (u, v) :: rest =>
      let* p := get in
      let* uid := lift (node_id (original p) u) in
      let* vid := lift (node_id (original p) v) in
      on_copy (add_edge uid vid) >> restore rest
  end.

(** The body of [for i in range(0, len(current_path) - 1)]. *)
Definition spur_step (distances : gmap string Z) (node_end : nat)
  (A B : list Yen.entry) (i : nat) : M (list Yen.entry) :=
  let* current := lift (of_option IndexError (last A)) in
  let* node_spur := lift (of_option IndexError (Yen.path_of current !! i)) in
  let path_root := take (S i) (Yen.path_of current) in
  let* edges_removed := remove_shared i path_root A [] in
  let* p := get in
  let* solved :=
    lift (Heap.compute_dijkstra_using_heap (original p) node_spur) in
  let* spur := lift (Yen.path (original p) solved.2 node_spur node_end) in
  let path_total := take (length path_root - 1) path_root ++ spur in
  let* sid := lift (node_id (original p) node_spur) in
  let* eid := lift (node_id (original p) node_end) in
  let dist_total := (Heap.dget distances sid + Heap.dget solved.1 eid)%Z in
  let potential_k := Yen.mk dist_total path_total in
  let B := if Yen.mem potential_k B then B else B ++ [potential_k] in
  restore edges_removed >>
  ret B.

Fixpoint spur_steps (distances : gmap string Z) (node_end : nat)
  (A B : list Yen.entry) (positions : list nat) : M (list Yen.entry) :=
  match positions with
  | [] => ret B
  | i :: positions' =>
      let* B' := spur_step distances node_end A B i in
      spur_steps distances node_end A B' positions'
  end.

(** The loop [for k in range(1, max_k)], [rounds] turns of it. *)
Fixpoint ksp_loop (rounds : nat) (distances : gmap string Z) (node_end : nat)
  (A B : list Yen.entry) : M (list Yen.entry) :=
  match rounds with
  | 0 => ret A
  | S rounds' =>
      let* current := lift (of_option IndexError (last A)) in
      let* B :=
        spur_steps distances node_end A B
          (seq 0 (length (Yen.path_of current) - 1)) in
      match B with
      | [] => ret A
      | _ :: _ =>
          match Yen.sorted B with
          | [] => lift (Raise IndexError)
          | b0 :: B' => ksp_loop rounds' distances node_end (A ++ [b0]) B'
          end
      end
  end.

(** [graph.compute_yen_ksp(node_start, node_end, max_k)] *)
Definition compute_yen_ksp (node_start node_end : nat) (max_k : Z)
  : M (list Yen.entry) :=
  let* p := get in
  let* solved :=
    lift (Heap.compute_dijkstra_using_heap (original p) node_start) in
  let* eid := lift (node_id (original p) node_end) in
  let* route := lift (Yen.path (original p) solved.2 node_start node_end) in
  let A := [Yen.mk (Heap.dget solved.1 eid) route] in
  match route with
  | [] => ret A
  | _ :: _ => ksp_loop (Z.to_nat (max_k - 1)) solved.1 node_end A []
  end.

End Detached.


(** ** All-pairs host distances *)

Module AllHosts.

Import Graph.

(** The key [f"{a.id}:{b.id}"]. *)
Definition path_name (a b : string) : string := a +:+ ":" +:+ b.

(** One turn of [for rem in remaining_hosts] inside [processInput(idx)]:
    the shared dictionary [computed_paths] is threaded through. *)
Definition process_host (g : Graph.t) (host rem : nat)
  (acc : list Z * gmap string Z) : Result (list Z * gmap string Z) :=
  let '(t_res, computed_paths) := acc in
  hid ← node_id g host;
  rid ← node_id g rem;
  let hit :=
    match computed_paths !! path_name hid rid with
    | Some _ => Some (path_name hid rid)
    | None =>
        match computed_paths !! path_name rid hid with
        | Some _ => Some (path_name rid hid)
        | None => None
        end
    end in
  match hit with
  | Some name =>
      d ← of_option KeyError (computed_paths !! name);
      Ok (t_res ++ [d], computed_paths)
  | None =>
      solved ← Heap.compute_dijkstra_using_heap g host;
      let d := Heap.dget solved.1 rid in
      Ok (t_res ++ [d], <[path_name hid rid := d]> computed_paths)
  end.

Fixpoint process_hosts (g : Graph.t) (host : nat) (remaining_hosts : list nat)
  (acc : list Z * gmap string Z) : Result (list Z * gmap string Z) :=
  match remaining_hosts with
  | [] => Ok acc
  | rem :: rest =>
      acc' ← process_host g host rem acc;
      process_hosts g host rest acc'
  end.

(** [processInput(idx)] *)
Definition processInput (g : Graph.t) (hosts : list nat) (idx : nat)
  (computed_paths : gmap string Z) : Result (list Z * gmap string Z) :=
  host ← of_option IndexError (hosts !! idx);
  let remaining_hosts := take idx hosts ++ drop (S idx) hosts in
  process_hosts g host remaining_hosts ([], computed_paths).

(** The work units [processInput(i) for i in range(0, len(hosts))].  The
    source hands them to a thread pool; they are run here one after the
    other in index order, which is also the order in which the pool returns
    their results. *)
Fixpoint run_units (g : Graph.t) (hosts : list nat) (idxs : list nat)
  (computed_paths : gmap string Z) : Result (list (list Z)) :=
  match idxs with
  | [] => Ok []
  | i :: idxs' =>
      r ← processInput g hosts i computed_paths;
      rest ← run_units g hosts idxs' r.2;
      Ok (r.1 :: rest)
  end.

(** [Graph.compute_dijikstra_for_all_hosts] *)
Definition compute_dijikstra_for_all_hosts (g : Graph.t) : Result (list Z) :=
  hosts ← (get_all_hosts g).1;
  results ← run_units g hosts (seq 0 (length hosts)) ∅;
  Ok (concat results).

End AllHosts.

(** ** ECMP extraction *)

Module Ecmp.

Import Graph.

(** The loop [for p in all_paths[1:]] with its [break]. *)
Fixpoint collect (shortest_len : nat) (required_path_count : Z)
  (paths_equal_to_shortest_path : list Yen.entry) (rest : list Yen.entry)
  : list Yen.entry :=
  match rest with
  | [] => paths_equal_to_shortest_path
  | p :: rest' =>
      let acc :=
        if Nat.eqb (length (Yen.path_of p)) shortest_len
        then paths_equal_to_shortest_path ++ [p]
        else paths_equal_to_shortest_path in
      if Z.eqb (Z.of_nat (length acc)) required_path_count then acc
      else collect shortest_len required_path_count acc rest'
  end.

(** [Graph.get_ecmp_paths]; a missing key is caught and yields [[]], an
    empty path list is an [IndexError]. *)
Definition get_ecmp_paths (g : Graph.t) (host_pair : nat * nat)
  (computed_paths : gmap string (list Yen.entry)) (required_path_count : Z)
  : Result (list Yen.entry) :=
  a ← node_id g host_pair.1;
  b ← node_id g host_pair.2;
  match computed_paths !! AllHosts.path_name a b with
  | None => Ok []
  | Some all_paths =>
      match all_paths with
      | [] => Raise IndexError
      | shortest_path :: rest =>
          Ok (collect (length (Yen.path_of shortest_path)) required_path_count [] rest)
      end
  end.

End Ecmp.

(** ** Centrality *)

Module Centrality.

Import Graph.

(** One turn of [for node in path['path']]: a node whose id starts with
    [s] has its count raised, [(centrality.get(id) or 0) + 1]. *)
Definition count_node (g : Graph.t) (centrality_of_switches : gmap string Z)
  (node : nat) : Result (gmap string Z) :=
  i ← node_id g node;
  if startswith i "s" then
    let seen :=
      match centrality_of_switches !! i with
      | Some c => if Z.eqb c 0 then 0%Z else c
      | None => 0%Z
      end in
    Ok (<[i := (seen + 1)%Z]> centrality_of_switches)
  else Ok centrality_of_switches.

Fixpoint count_path (g : Graph.t) (centrality_of_switches : gmap string Z)
  (path : list nat) : Result (gmap string Z) :=
  match path with
  | [] => Ok centrality_of_switches
  | node :: rest =>
      c ← count_node g centrality_of_switches node;
      count_path g c rest
  end.

Fixpoint count_paths (g : Graph.t) (centrality_of_switches : gmap string Z)
  (cp : list Yen.entry) : Result (gmap string Z) :=
  match cp with
  | [] => Ok centrality_of_switches
  | path :: rest =>
      c ← count_path g centrality_of_switches (Yen.path_of path);
      count_paths g c rest
  end.

Fixpoint count_items (g : Graph.t) (centrality_of_switches : gmap string Z)
  (items : list (string * list Yen.entry)) : Result (gmap string Z) :=
  match items with
  | [] => Ok centrality_of_switches
  | (_, cp) :: rest =>
      c ← count_paths g centrality_of_switches cp;
      count_items g c rest
  end.

(** [Graph.calculate_centrality]; the argument is the sequence
    [computed_paths.items()]. *)
Definition calculate_centrality (g : Graph.t)
  (computed_paths : list (string * list Yen.entry)) : Result (gmap string Z) :=
  count_items g ∅ computed_paths.

End Centrality.

(** ** k shortest paths for permutation pairs *)

Module Pairs.

Import Graph Detached.

(** What one work unit returns: the key [path_name] and the list
    [[computed_paths, eight_shortest_path, eight_ecmp, sixty_four_ecmp]]
    stored under it. *)
Record unit_result := mk {
  path_name : string;
  computed_paths : gmap string (list Yen.entry);
  eight_shortest_path : list Yen.entry;
  eight_ecmp : list Yen.entry;
  sixty_four_ecmp : list Yen.entry
}.

(** The inner [processInput(h, graph)]: [h] is a pair of nodes of the
    store itself, [graph] a copy of the store.  Its dictionary
    [computed_paths] is a new, empty one.  The ids that make up the key
    and that [get_ecmp_paths] looks up are read off the nodes [h]. *)
Definition processInput (h : nat * nat) : Detached.M unit_result :=
  (let computed_paths : gmap string (list Yen.entry) := ∅ in
   let* p := get in
   let* h0 := lift (node_id (original p) h.1) in
   let* h1 := lift (node_id (original p) h.2) in
   let path_name : option string :=
     match computed_paths !! AllHosts.path_name h0 h1 with
     | Some _ => Some (AllHosts.path_name h0 h1)
     | None =>
         match computed_paths !! AllHosts.path_name h1 h0 with
         | Some _ => Some (AllHosts.path_name h1 h0)
         | None => None
         end
     end in
   let* named :=
     match path_name ≫= (computed_paths !!.) with
     | Some _ => ret (default "" path_name, computed_paths)
     | None =>
         let* ksp := Detached.compute_yen_ksp h.1 h.2 64 in
         ret (AllHosts.path_name h0 h1,
              <[AllHosts.path_name h0 h1 := ksp]> computed_paths)
     end in
   let* all_paths := lift (of_option KeyError (named.2 !! named.1)) in
   let* p := get in
   let* ecmp8 := lift (Ecmp.get_ecmp_paths (original p) h named.2 8) in
   let* ecmp64 := lift (Ecmp.get_ecmp_paths (original p) h named.2 64) in
   ret (mk named.1 named.2 (take 8 all_paths) ecmp8 ecmp64))%detached.

(** [delayed(processInput)(i, copy.deepcopy(self))]: the unit gets a copy
    of the store, taken here right before the unit starts (the unit only
    writes to it), and the copy is dropped with the unit.  What the unit
    did to the nodes of the store itself stays. *)
Definition unit_of_work (h : nat * nat) : Graph.M unit_result :=
  λ g, match processInput h (Detached.mk g g) with
       | (r, p) => (r, Detached.original p)
       end.

(** The work units of [compute_yen_for_server_permutation_pairs], run one
    after the other in the order of the pairs: a unit searches the nodes
    as the units before it left them. *)
Fixpoint run_units (permuted_pairs : list (nat * nat))
  : Graph.M (list unit_result) :=
  match permuted_pairs with
  | [] => Graph.ret []
  | h :: rest =>
      let* r := unit_of_work h in
      let* rs := run_units rest in
      Graph.ret (r :: rs)
  end.

(** The [ChainMap] over the units' results: for a key held by several units
    the first unit's entry is the one seen. *)
Definition chain_map (resp : list unit_result) : gmap string unit_result :=
  foldr (λ r m, <[path_name r := r]> m) ∅ resp.

(** [Graph.compute_yen_for_server_permutation_pairs].  The order that
    [random.shuffle] leaves the hosts in is the argument
    [shuffled_hosts]. *)
Definition compute_yen_for_server_permutation_pairs
  (shuffled_hosts : list nat)
  : Graph.M (gmap string (gmap string (list Yen.entry))
             * gmap string (list Yen.entry)
             * gmap string (list Yen.entry)
             * gmap string (list Yen.entry)) :=
  let* original_hosts := get_all_hosts in
  let permuted_pairs := zip original_hosts shuffled_hosts in
  let* resp := run_units permuted_pairs in
  let merged := chain_map resp in
  Graph.ret (computed_paths <$> merged, eight_shortest_path <$> merged,
             eight_ecmp <$> merged, sixty_four_ecmp <$> merged).

End Pairs.


(** * Vocabulary of the properties *)

Module Spec.

Import Graph.

(** *** Well-formed stores

    What [add_node], [add_edge] and [remove_edge] maintain: names and nodes
    go in lockstep, ids are unique, the edges in a node's incident list
    leave that node and reach a node of the store, and distinct edge
    objects have distinct identities. *)

(** The incident edges of the node behind a reference. *)
Definition incident (ns : list Node.t) (r : nat) : list Edge.t :=
  default [] (Node.edges <$> ns !! r).

Definition edges_of (g : Graph.t) (r : nat) : list Edge.t :=
  incident (nodes g) r.

Definition edges_ok (len alloc r : nat) (es : list Edge.t) : Prop :=
  Forall (λ e, Edge.lnode e = r ∧ Edge.rnode e < len ∧ Edge.eid e < alloc) es
  ∧ NoDup (Edge.eid <$> es).

Definition incident_ok (g : Graph.t) (rn : nat * Node.t) : Prop :=
  edges_ok (length (nodes g)) (allocated g) rn.1 (Node.edges rn.2).

Definition wf (g : Graph.t) : Prop :=
  node_names g = Node.id <$> nodes g
  ∧ NoDup (node_names g)
  ∧ Forall (incident_ok g) (imap pair (nodes g)).

#[global] Instance incident_ok_dec g rn : Decision (incident_ok g rn).
Proof. unfold incident_ok, edges_ok. apply _. Defined.

#[global] Instance wf_dec g : Decision (wf g).
Proof. unfold wf. apply _. Defined.

(** *** The store after [add_edge] *)

Definition with_edge (e : Edge.t) (n : Node.t) : Node.t :=
  Node.mk (Node.id n) (Node.type n) (Node.edges n ++ [e]).

Definition added (a b : nat) (n1 n2 : string) (g : Graph.t) : Graph.t :=
  let e1 := Edge.mk (allocated g) a b in
  let e2 := Edge.mk (S (allocated g)) b a in
  Graph.mk (deliver (EdgeAdded n1 n2) <$> composables g) (graph_name g)
    (alter (with_edge e2) b (alter (with_edge e1) a (nodes g)))
    (node_names g) (edges g ++ [e1]) (adjacency_matrix g)
    (S (S (allocated g))).

(** *** The store after [remove_edge] *)

(** The first incident edge that reaches [b], and the list without it. *)
Fixpoint first_to (b : nat) (es : list Edge.t) : option Edge.t :=
  match es with
  | [] => None
  | e :: es' => if Nat.eqb (Edge.rnode e) b then Some e else first_to b es'
  end.

Fixpoint drop_first_to (b : nat) (es : list Edge.t) : list Edge.t :=
  match es with
  | [] => []
  | e :: es' => if Nat.eqb (Edge.rnode e) b then es' else e :: drop_first_to b es'
  end.

Definition without_edge (b : nat) (n : Node.t) : Node.t :=
  Node.mk (Node.id n) (Node.type n) (drop_first_to b (Node.edges n)).

Definition removed (a b : nat) (n1 n2 : string) (g : Graph.t) : Graph.t :=
  Graph.mk (deliver (EdgeRemoved n1 n2) <$> composables g) (graph_name g)
    (alter (without_edge b) a (nodes g))
    (node_names g) (edges g) (adjacency_matrix g) (allocated g).

(** The number of edge objects in [u]'s incident list that reach [v]. *)
Definition links (g : Graph.t) (u v : nat) : nat :=
  length (filter (λ e, Edge.rnode e = v) (edges_of g u)).

(** Every edge of the store is held by both of its endpoints. *)
Definition held_by_both_endpoints (g : Graph.t) : Prop :=
  ∀ e, e ∈ edges g →
       e ∈ edges_of g (Edge.lnode e) ∧ e ∈ edges_of g (Edge.rnode e).

(** The node that [create_nodes_from_array] makes of a definition. *)
Definition node_of (d : NodeDefn) : Node.t :=
  Node.mk d.1 (default "" (get_type d)) [].

(** *** Sample topologies *)

Definition build {A} (steps : M A) : Graph.t := (steps (init "topology")).2.

(** Two hosts, not linked. *)
Definition two_hosts : Graph.t :=
  build (add_node "h1" "host" >> add_node "h2" "host").

(** Two hosts and the link between them. *)
Definition linked_hosts : Graph.t :=
  build (add_node "h1" "host" >> add_node "h2" "host" >> add_edge "h1" "h2").

(** The chain h1 - s1 - h2. *)
Definition chain : Graph.t :=
  build (add_node "h1" "host" >> add_node "s1" "switch" >>
         add_node "h2" "host" >>
         add_edge "h1" "s1" >> add_edge "s1" "h2").

(** Two linked hosts and a third host with no link at all. *)
Definition with_isolated_host : Graph.t :=
  build (add_node "h1" "host" >> add_node "h2" "host" >>
         add_node "h3" "host" >> add_edge "h1" "h2").

(** Two hosts joined by two routes of equal length. *)
Definition diamond : Graph.t :=
  build (add_node "h1" "host" >> add_node "s1" "switch" >>
         add_node "s2" "switch" >> add_node "h2" "host" >>
         add_edge "h1" "s1" >> add_edge "s1" "h2" >>
         add_edge "h1" "s2" >> add_edge "s2" "h2").

(** A definition array whose second entry has no type. *)
Definition untyped_second : list NodeDefn :=
  [("h1", {["type" := Some "host"]}); ("s1", ∅); ("h2", {["type" := Some "host"]})].

(** *** The priority-queue solver at work *)

(** The distance recorded for the node behind a reference. *)
Definition dist_of (g : Graph.t) (d : gmap string Z) (r : nat) : Z :=
  Heap.dget d (default "" (Node.id <$> nodes g !! r)).

(** The sum of the recorded distances of all nodes, and the measure that
    every turn of the solver's loop lowers. *)
Definition potential (ns : list Node.t) (d : gmap string Z) : Z :=
  foldr (λ n acc, Heap.dget d (Node.id n) + acc)%Z 0%Z ns.

Definition measure (g : Graph.t) (st : Heap.state) : Z :=
  (Z.of_nat (length (Heap.priority_queue st))
   + 2 * potential (nodes g) (Heap.distance st))%Z.

(** What holds of the solver's state between two turns: the queue and the
    visited set hold nodes of the store, distances are not negative, and a
    node's predecessor has been visited and lies one step nearer. *)
Record heap_inv (g : Graph.t) (st : Heap.state) : Prop := {
  inv_queue :
    Forall (λ it : heapq.item, it.2 < length (nodes g)) (Heap.priority_queue st);
  inv_nonneg : map_Forall (λ _ v, 0 ≤ v)%Z (Heap.distance st);
  inv_visited : ∀ y, y ∈ Heap.visited st → y < length (nodes g);
  inv_prev : ∀ x y, Heap.pathMap st !! x = Some y →
    x < length (nodes g) ∧ y ∈ Heap.visited st
    ∧ dist_of g (Heap.distance st) x = (dist_of g (Heap.distance st) y + 1)%Z
}.

(** A predecessor map along which the recorded distance falls by one. *)
Definition descending (g : Graph.t) (dist : gmap string Z) (prev : gmap nat nat)
  : Prop :=
  ∀ x y, prev !! x = Some y →
    x < length (nodes g) ∧ y < length (nodes g)
    ∧ dist_of g dist x = (dist_of g dist y + 1)%Z.

(** The number of nodes recorded at most as far as the node [c]. *)
Definition rank (g : Graph.t) (dist : gmap string Z) (c : nat) : nat :=
  length (filter (λ n, Heap.dget dist (Node.id n) ≤ dist_of g dist c)%Z (nodes g)).

(** How often the pair [(u, v)] occurs in a list of removed edges. *)
Definition occurrences (u v : nat) (l : list (nat * nat)) : nat :=
  length (filter (λ uv, uv = (u, v)) l).

(** The conditions under which a spur step at position [i] runs to its
    end: the position lies on the latest accepted path, the accepted paths
    and the destination are nodes of the store, and no accepted path stops
    at position [i] while agreeing with the latest one up to there. *)
Definition spur_ready (g : Graph.t) (node_end : nat) (A : list Yen.entry)
  (i : nat) : Prop :=
  node_end < length (nodes g)
  ∧ Forall (λ p, Forall (λ r, r < length (nodes g)) (Yen.path_of p)) A
  ∧ match last A with
    | Some current =>
        i < length (Yen.path_of current)
        ∧ Forall (λ p, take (S i) (Yen.path_of current) = take (S i) (Yen.path_of p) →
                       length (Yen.path_of p) ≠ S i) A
    | None => False
    end.

#[global] Instance spur_ready_dec g node_end A i :
  Decision (spur_ready g node_end A i).
Proof. unfold spur_ready. destruct (last A); apply _. Defined.

(** C5 as stated: the flat result of the all-pairs computation holds one
    distance per unordered pair of hosts. *)
Definition one_contribution_per_unordered_pair (g : Graph.t) : Prop :=
  ∀ hosts res,
    (get_all_hosts g).1 = Ok hosts →
    AllHosts.compute_dijikstra_for_all_hosts g = Ok res →
    length res = length hosts * (length hosts - 1) / 2.

End Spec.

(** * Further vocabulary *)

Module Terms.

Import Graph Spec.

(** A route along which every node holds an edge towards the next. *)
Fixpoint walk (g : Graph.t) (route : list nat) : Prop :=
  match route with
  | u :: (v :: _) as rest => 0 < links g u v ∧ walk g rest
  | _ => True
  end.

(** What the solver's loop keeps besides [heap_inv]: the source stays at
    distance 0 and without predecessor, a predecessor holds an edge towards
    its successor, whatever is visited or queued is the source or has a
    predecessor, and a node that is neither is still at [sys.maxsize]. *)
Record heap_inv_path (g : Graph.t) (src : nat) (st : Heap.state) : Prop := {
  inv_src : dist_of g (Heap.distance st) src = 0%Z;
  inv_src_prev : Heap.pathMap st !! src = None;
  inv_edge : ∀ x y, Heap.pathMap st !! x = Some y → 0 < links g y x;
  inv_reached : ∀ y, y ∈ Heap.visited st → y = src ∨ is_Some (Heap.pathMap st !! y);
  inv_queued :
    Forall (λ it : heapq.item, it.2 = src ∨ is_Some (Heap.pathMap st !! it.2))
           (Heap.priority_queue st);
  inv_far : ∀ x, x < length (nodes g) →
    x = src ∨ is_Some (Heap.pathMap st !! x)
    ∨ dist_of g (Heap.distance st) x = maxsize
}.

(** The order that [heapq] keeps on the solver's queue: no entry has a
    smaller distance than its parent in the implicit binary tree. *)
Definition heap_ordered (heap : list heapq.item) : Prop :=
  ∀ i, 0 < i → i < length heap →
       ((heap !!! ((i - 1) / 2)%nat).1 ≤ (heap !!! i).1)%Z.

(** What the solver's loop keeps about the distances, while the edges
    [todo] of the node [u] that is being expanded are still to be looked
    at (between two turns [todo] is empty): the queue is in heap order; no
    distance exceeds [sys.maxsize]; an entry of the queue is no smaller than
    the distance of its node nor than the distance of any visited node; an
    edge leaving a visited node raises the distance by at most one; and a
    node with a distance that has not been visited is in the queue under
    that distance. *)
Record heap_inv_dist (g : Graph.t) (st : Heap.state) (u : nat)
  (todo : list Edge.t) : Prop := {
  inv_ordered : heap_ordered (Heap.priority_queue st);
  inv_bounded : ∀ k, (Heap.dget (Heap.distance st) k ≤ maxsize)%Z;
  inv_entry :
    Forall (λ it : heapq.item,
              (dist_of g (Heap.distance st) it.2 ≤ it.1)%Z ∧ (it.1 < maxsize)%Z)
           (Heap.priority_queue st);
  inv_settled : ∀ w, w ∈ Heap.visited st →
    Forall (λ it : heapq.item, (dist_of g (Heap.distance st) w ≤ it.1)%Z)
           (Heap.priority_queue st);
  inv_closed : ∀ w e, w ∈ Heap.visited st → e ∈ edges_of g w →
    (w = u ∧ e ∈ todo)
    ∨ (dist_of g (Heap.distance st) (Edge.rnode e)
       ≤ dist_of g (Heap.distance st) w + 1)%Z;
  inv_pending : ∀ x, x < length (nodes g) → x ∉ Heap.visited st →
    (dist_of g (Heap.distance st) x < maxsize)%Z →
    (dist_of g (Heap.distance st) x, x) ∈ Heap.priority_queue st
}.

(** A route of the store from [src] to [x], and one with [d] edges. *)
Definition reachable (g : Graph.t) (src x : nat) : Prop :=
  ∃ route, head route = Some src ∧ last route = Some x ∧ walk g route.

Definition route_of_length (g : Graph.t) (src x : nat) (d : Z) : Prop :=
  ∃ route, head route = Some src ∧ last route = Some x ∧ walk g route
           ∧ Z.of_nat (length route) = (d + 1)%Z.

(** What the outer loop of the matrix solver keeps, with [settled] the
    vertices selected so far: a distance below [sys.maxsize] is the number
    of edges of some route and at most the number of settled vertices; a
    settled vertex is no further than an unsettled one; and an edge out of
    a settled vertex raises the distance by at most one. *)
Record spt_inv (g : Graph.t) (src : nat) (settled : list nat)
  (sptSet : list bool) (dist : list Z) : Prop := {
  spt_len_set : length sptSet = length (nodes g);
  spt_len_dist : length dist = length (nodes g);
  spt_nodup : NoDup settled;
  spt_settled : ∀ v, v ∈ settled ↔ sptSet !! v = Some true;
  spt_src : dist !! src = Some 0%Z;
  spt_route : ∀ v, v < length (nodes g) → (dist !!! v < maxsize)%Z →
    route_of_length g src v (dist !!! v);
  spt_bound : ∀ v, v < length (nodes g) → (dist !!! v < maxsize)%Z →
    (dist !!! v ≤ Z.of_nat (length settled))%Z;
  spt_le : ∀ v, v < length (nodes g) → (dist !!! v ≤ maxsize)%Z;
  spt_mono : ∀ s v, s ∈ settled → v < length (nodes g) → v ∉ settled →
    (dist !!! s ≤ dist !!! v)%Z;
  spt_fin : ∀ s, s ∈ settled → (dist !!! s < maxsize)%Z;
  spt_closed : ∀ s y, s ∈ settled → 0 < links g s y →
    (dist !!! y ≤ dist !!! s + 1)%Z
}.

(** All the nodes on all the paths of [computed_paths.items()], and how
    many of them carry the id [i]. *)
Definition nodes_on_paths (items : list (string * list Yen.entry)) : list nat :=
  concat (Yen.path_of <$> concat (snd <$> items)).

Definition appearances (g : Graph.t) (i : string) (rs : list nat) : nat :=
  length (filter (λ r, Node.id <$> nodes g !! r = Some i) rs).

(** The paths after the first that are as long as the first. *)
Definition equal_cost (all_paths : list Yen.entry) : list Yen.entry :=
  match all_paths with
  | [] => []
  | shortest :: rest =>
      filter (λ p, length (Yen.path_of p) = length (Yen.path_of shortest)) rest
  end.

(** The store with the first edge from [a] to [b] taken out of [a]'s
    incident list, and nothing else touched. *)
Definition unlinked (a b : nat) (g : Graph.t) : Graph.t :=
  set_nodes (alter (without_edge b) a (nodes g)) g.

(** What a search that never puts an edge back leaves of a store: incident
    lists have lost edges, everything else is as it was. *)
Definition worn (g g' : Graph.t) : Prop :=
  wf g'
  ∧ g' = set_nodes (nodes g') g
  ∧ Node.id <$> nodes g' = Node.id <$> nodes g
  ∧ ∀ u v, links g' u v ≤ links g u v.

(** The id of the node behind a reference. *)
Definition name_of (g : Graph.t) (r : nat) : string :=
  default "" (Node.id <$> nodes g !! r).

(** The key [f"{a.id}:{b.id}"] of an ordered pair of nodes. *)
Definition key (g : Graph.t) (a b : nat) : string :=
  AllHosts.path_name (name_of g a) (name_of g b).

(** Distinct ordered pairs of hosts have distinct keys (as they have when
    no id holds a colon). *)
Definition keys_apart (g : Graph.t) (hosts : list nat) : Prop :=
  Forall (λ a, Forall (λ b, Forall (λ c, Forall (λ d,
    key g a b = key g c d → a = c ∧ b = d) hosts) hosts) hosts) hosts.

#[global] Instance keys_apart_dec g hosts : Decision (keys_apart g hosts).
Proof. unfold keys_apart. apply _. Defined.

(** What the heap solver, started at [a], reports for [b]. *)
Definition solver_distance (g : Graph.t) (a b : nat) : Result Z :=
  solved ← Heap.compute_dijkstra_using_heap g a;
  Ok (dist_of g solved.1 b).

(** The memo of the all-pairs computation when the units of the host
    indices below [idx] are done and that of [idx], if any, has come to
    the host of index [upto]: it holds the pair of the hosts of indices
    [i < j] exactly when unit [i] is one of these and has come to [j], in
    this order and with the solver's distance from the one to the
    other. *)
Definition memo_at (g : Graph.t) (hosts : list nat) (idx upto : nat)
  (memo : gmap string Z) : Prop :=
  ∀ i j a b, hosts !! i = Some a → hosts !! j = Some b →
    if decide (i < j ∧ (i < idx ∨ (i = idx ∧ j < upto)))
    then ∃ d, memo !! key g a b = Some d ∧ solver_distance g a b = Ok d
    else memo !! key g a b = None.

(** The memo between two units. *)
Definition memoized (g : Graph.t) (hosts : list nat) (idx : nat)
  (memo : gmap string Z) : Prop :=
  memo_at g hosts idx 0 memo.

(** What the unit of host index [idx] yields: for every host of lower
    index the solver's distance from that host to its own, and for every
    host of higher index the solver's distance from its own host to that
    one. *)
Definition unit_distances (g : Graph.t) (hosts : list nat) (idx : nat)
  (t_res : list Z) : Prop :=
  ∃ host earlier later,
    hosts !! idx = Some host ∧ t_res = earlier ++ later
    ∧ Forall2 (λ rem d, solver_distance g rem host = Ok d)
        (take idx hosts) earlier
    ∧ Forall2 (λ rem d, solver_distance g host rem = Ok d)
        (drop (S idx) hosts) later.

(** Two states of a call on the nodes of another store that differ in the
    copy only, and there neither in the names nor in the number of
    nodes. *)
Definition alike (p q : Detached.t) : Prop :=
  Detached.original p = Detached.original q
  ∧ node_names (Detached.copy p) = node_names (Detached.copy q)
  ∧ length (nodes (Detached.copy p)) = length (nodes (Detached.copy q)).

(** Two computations that, started in such states, have the same outcome
    and end in such states. *)
Definition alike_runs {A} (m m' : Detached.M A) : Prop :=
  ∀ p q, alike p q → (m p).1 = (m' q).1 ∧ alike (m p).2 (m' q).2.

(** A computation that reads nothing of the copy but its names and its
    number of nodes. *)
Definition respects {A} (m : Detached.M A) : Prop := alike_runs m m.

End Terms.

(** * Properties of the store *)

Module StoreFacts.

Import Graph Spec.

(** Settles a decidable closed statement by running its decision
    procedure. *)
Ltac by_evaluation :=
  match goal with
  | |- ?P => apply (bool_decide_eq_true_1 P); vm_compute; reflexivity
  end.

Lemma contains_elem_of (n : string) (l : list string) :
  contains n l = true ↔ n ∈ l.
Proof.
  induction l as [|x l IH]; simpl.
  - split; [discriminate | by intros ?%elem_of_nil].
  - destruct (String.eqb_spec x n) as [->|Hne].
    + split; [intros _; left | done].
    + rewrite IH. split; [by right | intros [?|?]%elem_of_cons; congruence].
Qed.

Lemma contains_false (n : string) (l : list string) :
  contains n l = false ↔ n ∉ l.
Proof.
  rewrite <- contains_elem_of. destruct (contains n l); split; congruence.
Qed.

Lemma index_app_fresh (n : string) (l : list string) :
  n ∉ l → index n (l ++ [n]) = Some (length l).
Proof.
  induction l as [|x l IH]; simpl; intros Hn.
  - by rewrite String.eqb_refl.
  - destruct (String.eqb_spec x n) as [->|Hne].
    + exfalso. apply Hn. left.
    + rewrite IH; [done|]. intros ?. apply Hn. by right.
Qed.

Lemma index_lookup (n : string) (l : list string) (i : nat) :
  index n l = Some i → l !! i = Some n.
Proof.
  revert i. induction l as [|x l IH]; simpl; intros i; [done|].
  destruct (String.eqb_spec x n) as [->|Hne].
  - by intros [= <-].
  - destruct (index n l) as [j|]; simpl; [|done].
    intros [= <-]. by apply IH.
Qed.

Lemma index_nodup (l : list string) (i : nat) (n : string) :
  NoDup l → l !! i = Some n → index n l = Some i.
Proof.
  intros Hnd. revert i. induction Hnd as [|x l Hx Hnd IH]; intros i; [done|].
  destruct i as [|i]; simpl.
  - intros [= ->]. by rewrite String.eqb_refl.
  - intros Hi. destruct (String.eqb_spec x n) as [->|Hne].
    + exfalso. apply Hx. by eapply list_elem_of_lookup_2.
    + by rewrite (IH i Hi).
Qed.

(** C8.  [add_node] with an id that is already in the store raises the
    duplicate-node error and leaves the store exactly as it was; with a new
    id it appends the node and its name, delivers the notification to every
    observer, leaves the edge list alone and returns the new node: the
    reference returned is the position at which both the node and its name
    are found. *)
Theorem add_node_spec (n ty : string) (g : Graph.t) :
  (n ∈ node_names g →
     add_node n ty g = (Raise DuplicateNodeNameException, g)) ∧
  (n ∉ node_names g →
     ∃ g', add_node n ty g = (Ok (length (nodes g)), g') ∧
       nodes g' = nodes g ++ [Node.mk n ty []] ∧
       nodes g' !! length (nodes g) = Some (Node.mk n ty []) ∧
       node_names g' = node_names g ++ [n] ∧
       index n (node_names g') = Some (length (node_names g)) ∧
       composables g' = deliver (NodeAdded n) <$> composables g ∧
       edges g' = edges g ∧
       adjacency_matrix g' = adjacency_matrix g ∧
       allocated g' = allocated g).
Proof.
  split; intros Hn; unfold add_node.
  - apply contains_elem_of in Hn. by rewrite Hn.
  - pose proof Hn as Hc. apply contains_false in Hc. rewrite Hc.
    eexists. split; [reflexivity|]. simpl.
    repeat split; try done.
    + rewrite lookup_app_r; [|lia]. by rewrite Nat.sub_diag.
    + by apply index_app_fresh.
Qed.

Lemma add_node_spec_witness :
  add_node "h1" "host" two_hosts = (Raise DuplicateNodeNameException, two_hosts)
  ∧ ∃ g', add_node "h3" "host" two_hosts = (Ok 2, g')
          ∧ nodes g' !! 2 = Some (Node.mk "h3" "host" [])
          ∧ edges g' = edges two_hosts.
Proof.
  split.
  - apply (add_node_spec "h1" "host" two_hosts). by_evaluation.
  - destruct (add_node_spec "h3" "host" two_hosts) as [_ Hfresh].
    destruct Hfresh as (g' & Hadd & _ & Hnode & _ & _ & _ & Hedges & _);
      [by_evaluation|].
    exists g'. split_and!; [exact Hadd|exact Hnode|exact Hedges].
Defined.

Lemma wf_incident (g : Graph.t) (r : nat) (n : Node.t) :
  wf g → nodes g !! r = Some n → incident_ok g (r, n).
Proof.
  intros (_ & _ & H) Hr. rewrite Forall_forall in H. apply H.
  apply list_elem_of_lookup. exists r. by rewrite list_lookup_imap, Hr.
Qed.

Lemma wf_edge (g : Graph.t) (r : nat) (e : Edge.t) :
  wf g → e ∈ edges_of g r →
  Edge.lnode e = r ∧ Edge.rnode e < length (nodes g) ∧ Edge.eid e < allocated g.
Proof.
  intros Hwf. unfold edges_of, incident.
  destruct (nodes g !! r) as [n|] eqn:Hr; simpl.
  - intros He. destruct (wf_incident g r n Hwf Hr) as [H _].
    rewrite Forall_forall in H. by apply H.
  - by intros ?%elem_of_nil.
Qed.

Lemma wf_node_id (g : Graph.t) (r : nat) (n : Node.t) :
  wf g → nodes g !! r = Some n → node_names g !! r = Some (Node.id n).
Proof. intros (-> & _) Hr. by rewrite list_lookup_fmap, Hr. Qed.

Lemma wf_index (g : Graph.t) (r : nat) (n : Node.t) :
  wf g → nodes g !! r = Some n → index (Node.id n) (node_names g) = Some r.
Proof.
  intros Hwf Hr. apply index_nodup; [apply Hwf | by apply wf_node_id].
Qed.

Lemma wf_id_inj (g : Graph.t) (r r' : nat) (n n' : Node.t) :
  wf g → nodes g !! r = Some n → nodes g !! r' = Some n' →
  Node.id n = Node.id n' → r = r'.
Proof.
  intros Hwf Hr Hr' Hid.
  pose proof (wf_index g r n Hwf Hr) as H1.
  pose proof (wf_index g r' n' Hwf Hr') as H2.
  rewrite Hid in H1. congruence.
Qed.

Lemma wf_init (name : string) : wf (init name).
Proof. repeat split; simpl; constructor. Qed.

Lemma bind_ok {A B} (m : M A) (k : A → M B) (g g' : Graph.t) (a : A) :
  m g = (Ok a, g') → bind m k g = k a g'.
Proof. unfold bind. by intros ->. Qed.

Lemma bind_raise {A B} (m : M A) (k : A → M B) (g g' : Graph.t) (e : Exn) :
  m g = (Raise e, g') → bind m k g = (Raise e, g').
Proof. unfold bind. by intros ->. Qed.

Lemma node_by_name_ok (g : Graph.t) (n : string) (a : nat) :
  index n (node_names g) = Some a → a < length (nodes g) →
  node_by_name n g = (Ok a, g).
Proof. intros Ha Hl. unfold node_by_name. rewrite Ha. by case_decide. Qed.

Lemma node_add_edge_ok (g : Graph.t) (a b : nat) :
  a < length (nodes g) →
  node_add_edge a b g =
    (Ok (Edge.mk (allocated g) a b),
     set_allocated (S (allocated g))
       (set_nodes (alter (with_edge (Edge.mk (allocated g) a b)) a (nodes g)) g)).
Proof.
  intros Hl. destruct (lookup_lt_is_Some_2 _ _ Hl) as [na Hna].
  unfold node_add_edge, bind, node. rewrite Hna. simpl.
  do 3 f_equal. apply list_eq. intros i.
  destruct (decide (a = i)) as [<-|Hne].
  - rewrite list_lookup_insert_eq, list_lookup_alter_eq, Hna by done. done.
  - by rewrite list_lookup_insert_ne, list_lookup_alter_ne.
Qed.

Lemma add_edge_by_index (g : Graph.t) (n1 n2 : string) (a b : nat) :
  index n1 (node_names g) = Some a → index n2 (node_names g) = Some b →
  a < length (nodes g) → b < length (nodes g) →
  add_edge n1 n2 g = (Ok tt, added a b n1 n2 g).
Proof.
  intros Ha Hb Hla Hlb. unfold add_edge.
  rewrite (bind_ok _ _ _ _ _ (node_by_name_ok g n1 a Ha Hla)).
  rewrite (bind_ok _ _ _ _ _ (node_by_name_ok g n2 b Hb Hlb)).
  rewrite (bind_ok _ _ _ _ _ (node_add_edge_ok g a b Hla)).
  erewrite bind_ok; [|apply node_add_edge_ok; simpl; by rewrite length_alter].
  reflexivity.
Qed.

Lemma wf_intro (g : Graph.t) :
  node_names g = Node.id <$> nodes g → NoDup (node_names g) →
  (∀ r n, nodes g !! r = Some n →
          edges_ok (length (nodes g)) (allocated g) r (Node.edges n)) →
  wf g.
Proof.
  intros H1 H2 H3. repeat split; try done.
  apply Forall_forall. intros [r n] [i Hi]%list_elem_of_lookup.
  rewrite list_lookup_imap in Hi.
  destruct (nodes g !! i) as [n'|] eqn:Hn; simplify_eq/=. by apply H3.
Qed.

Lemma edges_ok_mono (len k k' r : nat) (es : list Edge.t) :
  edges_ok len k r es → k ≤ k' → edges_ok len k' r es.
Proof.
  intros [H1 H2] Hk. split; [|done].
  eapply Forall_impl; [done|]. simpl. intros e (? & ? & ?). repeat split; [done..|lia].
Qed.

Lemma edges_ok_snoc (len k r : nat) (es : list Edge.t) (e : Edge.t) :
  edges_ok len k r es → Edge.lnode e = r → Edge.rnode e < len →
  Edge.eid e = k → edges_ok len (S k) r (es ++ [e]).
Proof.
  intros [H1 H2] Hl Hr Hk. split.
  - apply Forall_app. split.
    + eapply Forall_impl; [done|]. simpl. intros ? (? & ? & ?).
      repeat split; [done..|lia].
    + apply Forall_singleton. repeat split; [done..|lia].
  - rewrite fmap_app. apply NoDup_app. repeat split; [done| |apply NoDup_singleton].
    intros x Hx ->%list_elem_of_singleton.
    apply list_elem_of_fmap in Hx as (e' & He' & Hin).
    rewrite Forall_forall in H1. destruct (H1 e' Hin) as (_ & _ & ?). lia.
Qed.

Lemma incident_alter (f : Node.t → Node.t) (ns : list Node.t) (a r : nat) :
  incident (alter f a ns) r =
    if decide (a = r) then default [] (Node.edges ∘ f <$> ns !! r)
    else incident ns r.
Proof.
  unfold incident. case_decide as Hd.
  - subst. rewrite list_lookup_alter_eq. by destruct (ns !! r).
  - by rewrite list_lookup_alter_ne.
Qed.

Lemma incident_with_edge (e : Edge.t) (ns : list Node.t) (a r : nat) :
  a < length ns →
  incident (alter (with_edge e) a ns) r =
    incident ns r ++ (if decide (a = r) then [e] else []).
Proof.
  intros Ha. rewrite incident_alter. case_decide as Hd.
  - subst. unfold incident.
    destruct (lookup_lt_is_Some_2 _ _ Ha) as [n ->]. done.
  - by rewrite app_nil_r.
Qed.

Lemma edges_of_added (g : Graph.t) (a b r : nat) (n1 n2 : string) :
  a < length (nodes g) → b < length (nodes g) →
  edges_of (added a b n1 n2 g) r =
    edges_of g r
    ++ (if decide (a = r) then [Edge.mk (allocated g) a b] else [])
    ++ (if decide (b = r) then [Edge.mk (S (allocated g)) b a] else []).
Proof.
  intros Ha Hb. unfold edges_of, added. simpl.
  rewrite incident_with_edge by (by rewrite length_alter).
  rewrite incident_with_edge by done. by rewrite <- app_assoc.
Qed.

Lemma ids_alter_with_edge (e : Edge.t) (a : nat) (ns : list Node.t) :
  Node.id <$> alter (with_edge e) a ns = Node.id <$> ns.
Proof.
  apply list_eq. intros i. rewrite !list_lookup_fmap.
  destruct (decide (a = i)) as [->|Hne].
  - rewrite list_lookup_alter_eq. by destruct (ns !! i).
  - by rewrite list_lookup_alter_ne.
Qed.

Lemma incident_lookup (ns : list Node.t) (r : nat) (n : Node.t) :
  ns !! r = Some n → incident ns r = Node.edges n.
Proof. unfold incident. by intros ->. Qed.

Lemma wf_added (g : Graph.t) (a b : nat) (n1 n2 : string) :
  wf g → a < length (nodes g) → b < length (nodes g) →
  wf (added a b n1 n2 g).
Proof.
  intros Hwf Ha Hb. apply wf_intro.
  - simpl. rewrite !ids_alter_with_edge. apply Hwf.
  - apply Hwf.
  - intros r n' Hr.
    assert (Node.edges n' = edges_of (added a b n1 n2 g) r) as ->.
    { unfold edges_of. by rewrite (incident_lookup _ _ _ Hr). }
    rewrite edges_of_added by done.
    assert (r < length (nodes g)) as Hlr.
    { apply lookup_lt_Some in Hr. simpl in Hr. by rewrite !length_alter in Hr. }
    destruct (lookup_lt_is_Some_2 _ _ Hlr) as [n Hn].
    pose proof (wf_incident g r n Hwf Hn) as Hok. unfold incident_ok in Hok.
    simpl in *. rewrite !length_alter.
    unfold edges_of. rewrite (incident_lookup _ _ _ Hn).
    rewrite app_assoc.
    destruct (decide (a = r)) as [->|?], (decide (b = r)) as [->|?];
      rewrite ?app_nil_r.
    + apply edges_ok_snoc; [apply edges_ok_snoc|..]; done.
    + eapply edges_ok_mono; [apply edges_ok_snoc|]; done || lia.
    + apply edges_ok_snoc; [eapply edges_ok_mono|..]; done || lia.
    + eapply edges_ok_mono; [done|lia].
Qed.

Lemma node_id_ok (g : Graph.t) (r : nat) (n : Node.t) :
  nodes g !! r = Some n → node_id g r = Ok (Node.id n).
Proof. unfold node_id. by intros ->. Qed.

Lemma find_edge_wf (g : Graph.t) (a b : nat) (na nb : Node.t) (es : list Edge.t) :
  wf g → nodes g !! a = Some na → nodes g !! b = Some nb →
  Forall (λ e, Edge.lnode e = a ∧ Edge.rnode e < length (nodes g)) es →
  find_edge g (Node.id na) (Node.id nb) es = Ok (first_to b es).
Proof.
  intros Hwf Ha Hb. induction 1 as [|e es [Hl Hr] _ IH]; simpl; [done|].
  destruct (lookup_lt_is_Some_2 _ _ Hr) as [nr Hnr].
  rewrite (node_id_ok _ _ _ Hnr). simpl.
  destruct (String.eqb_spec (Node.id nr) (Node.id nb)) as [Hid|Hid].
  - rewrite (wf_id_inj g _ _ _ _ Hwf Hnr Hb Hid), Nat.eqb_refl.
    rewrite Hl, (node_id_ok _ _ _ Ha). simpl. by rewrite String.eqb_refl.
  - destruct (Nat.eqb_spec (Edge.rnode e) b) as [Heq|?]; [|done].
    rewrite Heq in Hnr. congruence.
Qed.

Lemma first_to_elem (b : nat) (es : list Edge.t) (e : Edge.t) :
  first_to b es = Some e → e ∈ es ∧ Edge.rnode e = b.
Proof.
  induction es as [|x es IH]; simpl; [done|].
  destruct (Nat.eqb_spec (Edge.rnode x) b).
  - intros [= <-]. split; [left|done].
  - intros [? ?]%IH. split; [by right|done].
Qed.

Lemma first_to_none (b : nat) (es : list Edge.t) :
  first_to b es = None → drop_first_to b es = es.
Proof.
  induction es as [|x es IH]; simpl; [done|].
  destruct (Nat.eqb (Edge.rnode x) b); [done|]. intros ?. f_equal. auto.
Qed.

Lemma list_remove_first_to (b : nat) (es : list Edge.t) (e : Edge.t) :
  NoDup (Edge.eid <$> es) → first_to b es = Some e →
  Node.list_remove e es = Some (drop_first_to b es).
Proof.
  induction es as [|x es IH]; simpl; [done|].
  intros [Hx Hnd]%NoDup_cons.
  destruct (Nat.eqb_spec (Edge.rnode x) b).
  - intros [= <-]. by rewrite Nat.eqb_refl.
  - intros He. destruct (Nat.eqb_spec (Edge.eid x) (Edge.eid e)) as [Heq|_].
    + exfalso. apply Hx. rewrite Heq. apply list_elem_of_fmap.
      exists e. split; [done|]. by apply first_to_elem in He as [? _].
    + by rewrite (IH Hnd He).
Qed.

Lemma remove_edge_wf (g : Graph.t) (a b : nat) (na nb : Node.t) :
  wf g → nodes g !! a = Some na → nodes g !! b = Some nb →
  remove_edge a b g = (Ok tt, removed a b (Node.id na) (Node.id nb) g).
Proof.
  intros Hwf Ha Hb. unfold remove_edge.
  rewrite (bind_ok _ _ g g na) by (unfold node; by rewrite Ha).
  rewrite (bind_ok _ _ g g nb) by (unfold node; by rewrite Hb).
  rewrite (bind_ok _ _ g g g) by done.
  destruct (wf_incident g a na Hwf Ha) as [Hall Hnd]. simpl in *.
  rewrite (bind_ok _ _ g g (first_to b (Node.edges na))).
  2:{ unfold lift. f_equal. eapply find_edge_wf; [done..|].
      eapply Forall_impl; [done|]. simpl. tauto. }
  assert (alter (without_edge b) a (nodes g) = <[a := without_edge b na]> (nodes g))
    as Halt.
  { apply list_eq. intros i. destruct (decide (a = i)) as [<-|Hne].
    - rewrite list_lookup_alter_eq, list_lookup_insert_eq, Ha; [done|].
      by eapply lookup_lt_Some.
    - by rewrite list_lookup_alter_ne, list_lookup_insert_ne. }
  unfold removed. rewrite Halt.
  destruct (first_to b (Node.edges na)) as [e|] eqn:Hf.
  - rewrite (bind_ok _ _ g (set_nodes (<[a := without_edge b na]> (nodes g)) g) tt);
      [reflexivity|].
    erewrite bind_ok; [reflexivity|].
    unfold lift, Node.remove_edge.
    by rewrite (list_remove_first_to _ _ _ Hnd Hf).
  - erewrite bind_ok; [|reflexivity].
    unfold notify, set_composables. simpl. do 2 f_equal.
    unfold without_edge. rewrite (first_to_none _ _ Hf).
    rewrite list_insert_id; [done|]. by destruct na.
Qed.

Lemma edges_of_removed (g : Graph.t) (a b r : nat) (n1 n2 : string) :
  edges_of (removed a b n1 n2 g) r =
    if decide (a = r) then drop_first_to b (edges_of g r) else edges_of g r.
Proof.
  unfold edges_of, removed. simpl. rewrite incident_alter.
  case_decide; [|done]. unfold incident. by destruct (nodes g !! r).
Qed.

Lemma drop_first_to_sublist (b : nat) (es : list Edge.t) :
  drop_first_to b es `sublist_of` es.
Proof.
  induction es as [|e es IH]; simpl; [done|].
  destruct (Nat.eqb (Edge.rnode e) b); [by apply sublist_cons | by apply sublist_skip].
Qed.

Lemma edges_ok_sublist (len k r : nat) (es es' : list Edge.t) :
  edges_ok len k r es → es' `sublist_of` es → edges_ok len k r es'.
Proof.
  intros [H1 H2] Hs. split.
  - rewrite Forall_forall in *. intros e He. apply H1. by eapply elem_of_sublist.
  - eapply sublist_NoDup; [done|]. by apply fmap_sublist.
Qed.

Lemma wf_removed (g : Graph.t) (a b : nat) (n1 n2 : string) :
  wf g → wf (removed a b n1 n2 g).
Proof.
  intros Hwf. apply wf_intro.
  - simpl. destruct Hwf as [-> _]. apply list_eq. intros i.
    rewrite !list_lookup_fmap. destruct (decide (a = i)) as [->|?].
    + rewrite list_lookup_alter_eq. by destruct (nodes g !! i).
    + by rewrite list_lookup_alter_ne.
  - apply Hwf.
  - intros r n' Hr.
    assert (Node.edges n' = edges_of (removed a b n1 n2 g) r) as ->.
    { unfold edges_of. by rewrite (incident_lookup _ _ _ Hr). }
    rewrite edges_of_removed. simpl in *. rewrite length_alter.
    assert (r < length (nodes g)) as Hlr.
    { apply lookup_lt_Some in Hr. by rewrite length_alter in Hr. }
    destruct (lookup_lt_is_Some_2 _ _ Hlr) as [n Hn].
    pose proof (wf_incident g r n Hwf Hn) as Hok. unfold incident_ok in Hok.
    simpl in Hok. unfold edges_of. rewrite (incident_lookup _ _ _ Hn).
    case_decide; [|done].
    eapply edges_ok_sublist; [done|apply drop_first_to_sublist].
Qed.

Lemma links_added (g : Graph.t) (a b u v : nat) (n1 n2 : string) :
  a < length (nodes g) → b < length (nodes g) →
  links (added a b n1 n2 g) u v =
    links g u v
    + (if decide (a = u ∧ b = v) then 1 else 0)
    + (if decide (b = u ∧ a = v) then 1 else 0).
Proof.
  intros Ha Hb. unfold links. rewrite edges_of_added by done.
  rewrite !filter_app, !length_app, Nat.add_assoc.
  repeat case_decide; rewrite ?filter_cons, ?filter_nil; simpl;
    repeat case_decide; simpl; lia.
Qed.

Lemma links_drop_first_to (b v : nat) (es : list Edge.t) :
  length (filter (λ e, Edge.rnode e = v) es)
  ≤ length (filter (λ e, Edge.rnode e = v) (drop_first_to b es))
    + (if decide (b = v) then 1 else 0).
Proof.
  induction es as [|e es IH]; simpl; [lia|].
  destruct (Nat.eqb_spec (Edge.rnode e) b) as [Heq|Hne].
  - rewrite filter_cons. repeat case_decide; simpl; lia.
  - rewrite !filter_cons. repeat case_decide; simpl; lia.
Qed.

Lemma links_removed (g : Graph.t) (a b u v : nat) (n1 n2 : string) :
  links g u v
  ≤ links (removed a b n1 n2 g) u v + (if decide (a = u ∧ b = v) then 1 else 0).
Proof.
  unfold links. rewrite edges_of_removed.
  pose proof (links_drop_first_to b v (edges_of g u)).
  repeat case_decide; lia.
Qed.

(** C4, as stated, fails: after [add_edge("h1", "h2")] on two fresh hosts
    the one edge of the store is not in the incident list of [h2]. *)
Lemma add_edge_not_shared : ¬ held_by_both_endpoints linked_hosts.
Proof.
  intros H. destruct (H (Edge.mk 0 0 1)) as [_ H2].
  - vm_compute. left.
  - vm_compute in H2. apply list_elem_of_singleton in H2. discriminate.
Qed.

(** C4, amended.  [add_edge(id_a, id_b)] between two nodes of the store
    creates two edge objects, one per direction: [a -> b], appended to
    [a]'s incident list and to the edge list of the store, and [b -> a],
    appended to [b]'s incident list only.  So the new edge of the store is
    held by its left endpoint, the right endpoint holds the reverse object,
    and for distinct endpoints the stored object itself is not in [b]'s
    list; observers are notified and nothing else changes. *)
Theorem add_edge_spec (g : Graph.t) (a b : nat) (na nb : Node.t) :
  wf g → nodes g !! a = Some na → nodes g !! b = Some nb →
  let e1 := Edge.mk (allocated g) a b in
  let e2 := Edge.mk (S (allocated g)) b a in
  ∃ g', add_edge (Node.id na) (Node.id nb) g = (Ok tt, g') ∧
    Edge.eid e1 ≠ Edge.eid e2 ∧
    edges g' = edges g ++ [e1] ∧
    (∀ r, edges_of g' r =
          edges_of g r ++ (if decide (a = r) then [e1] else [])
                       ++ (if decide (b = r) then [e2] else [])) ∧
    e1 ∈ edges_of g' (Edge.lnode e1) ∧
    e2 ∈ edges_of g' (Edge.rnode e1) ∧
    (a ≠ b → e1 ∉ edges_of g' b) ∧
    composables g' = deliver (EdgeAdded (Node.id na) (Node.id nb)) <$> composables g ∧
    Node.id <$> nodes g' = Node.id <$> nodes g ∧
    node_names g' = node_names g ∧
    wf g'.
Proof.
  intros Hwf Ha Hb e1 e2.
  pose proof (lookup_lt_Some _ _ _ Ha) as Hla.
  pose proof (lookup_lt_Some _ _ _ Hb) as Hlb.
  exists (added a b (Node.id na) (Node.id nb) g).
  split; [|split; [|split; [|split]]].
  - apply add_edge_by_index; [by apply wf_index..|done|done].
  - simpl. lia.
  - done.
  - intros r. by apply edges_of_added.
  - split_and!.
    + rewrite edges_of_added by done. simpl. rewrite decide_True by done.
      apply elem_of_app. right. apply elem_of_app. left. left.
    + rewrite edges_of_added by done. simpl. rewrite (decide_True (P := b = b)) by done.
      apply elem_of_app. right. apply elem_of_app. right. left.
    + intros Hne Hin. rewrite edges_of_added in Hin by done.
      destruct (decide (a = b)) as [?|_]; [done|].
      destruct (decide (b = b)) as [_|?]; [|done]. simpl in Hin.
      apply elem_of_app in Hin as [Hin|Hin].
      * destruct (wf_edge g b e1 Hwf Hin) as (_ & _ & Hk). simpl in Hk. lia.
      * apply list_elem_of_singleton in Hin. unfold e1 in Hin.
        injection Hin. lia.
    + done.
    + simpl. by rewrite !ids_alter_with_edge.
    + done.
    + by apply wf_added.
Qed.

Lemma add_edge_spec_witness :
  ∃ g', add_edge "h1" "h2" two_hosts = (Ok tt, g') ∧
        Edge.mk 0 0 1 ∈ edges_of g' 0 ∧ Edge.mk 1 1 0 ∈ edges_of g' 1 ∧
        Edge.mk 0 0 1 ∉ edges_of g' 1.
Proof.
  destruct (add_edge_spec two_hosts 0 1 (Node.mk "h1" "host" []) (Node.mk "h2" "host" []))
    as (g' & H1 & _ & _ & _ & H2 & H3 & H4 & _).
  - by_evaluation.
  - reflexivity.
  - reflexivity.
  - exists g'. repeat split; [exact H1|exact H2|exact H3|apply H4; lia].
Defined.



(** C10.  Bulk construction is not atomic: when
    [create_nodes_from_array] raises the missing-type error, it does so at
    the first entry [i] without a type, and the nodes made of the entries
    before [i] have been appended to the store and are still there. *)
Theorem create_nodes_not_atomic (defs : list NodeDefn) (g g' : Graph.t) :
  create_nodes_from_array defs g = (Raise NodeTypeNotFoundException, g') →
  ∃ i d, defs !! i = Some d ∧ get_type d = None ∧
    Forall (λ d', is_Some (get_type d')) (take i defs) ∧
    nodes g' = nodes g ++ (node_of <$> take i defs) ∧
    node_names g' = node_names g ++ (fst <$> take i defs) ∧
    edges g' = edges g.
Proof.
  revert g. induction defs as [|d defs IH]; intros g; simpl.
  - intros [=].
  - destruct (get_type d) as [ty|] eqn:Hty.
    + unfold bind. destruct (add_node d.1 ty g) as [[nd|e] g1] eqn:Hadd.
      * intros (i & d' & Hi & Hd' & Hall & Hn & Hnm & He)%IH.
        unfold add_node in Hadd.
        destruct (contains d.1 (node_names g)); [done|].
        injection Hadd as _ <-. simpl in *.
        exists (S i), d'. split_and!; try done.
        -- simpl. constructor; [by rewrite Hty|done].
        -- rewrite Hn. simpl. rewrite <- app_assoc. simpl.
           unfold node_of at 2. by rewrite Hty.
        -- rewrite Hnm. simpl. by rewrite <- app_assoc.
      * unfold add_node in Hadd.
        destruct (contains d.1 (node_names g)); [|done].
        injection Hadd as <- <-. intros [=].
    + intros [= <-]. exists 0, d. split_and!; try done.
      * simpl. by rewrite app_nil_r.
      * simpl. by rewrite app_nil_r.
Qed.

Lemma create_nodes_not_atomic_witness :
  ∃ g', create_nodes_from_array untyped_second (init "topology")
          = (Raise NodeTypeNotFoundException, g') ∧
        nodes g' = [Node.mk "h1" "host" []].
Proof.
  eexists. split; [vm_compute; reflexivity|].
  destruct (create_nodes_not_atomic untyped_second (init "topology") _ eq_refl)
    as (i & d & Hi & Hd & Hall & Hn & _).
  destruct i as [|[|[|i]]]; simpl in Hi; simplify_eq;
    try (vm_compute in Hd; discriminate).
  vm_compute in Hn |- *. exact Hn.
Defined.

End StoreFacts.

(** * Properties of the heap operations *)

Module HeapqFacts.

Import heapq.

Lemma length_siftdown_loop turns heap startpos pos newitem :
  length (siftdown_loop turns heap startpos pos newitem) = length heap.
Proof.
  revert heap pos. induction turns as [|turns IH]; intros heap pos; simpl.
  - by rewrite length_insert.
  - case_decide; [|by rewrite length_insert].
    destruct (item_lt _ _); [|by rewrite length_insert].
    by rewrite IH, length_insert.
Qed.

Lemma length_siftup_loop turns heap endpos pos :
  length (siftup_loop turns heap endpos pos).1 = length heap.
Proof.
  revert heap pos. induction turns as [|turns IH]; intros heap pos; simpl; [done|].
  case_decide; [|done]. by rewrite IH, length_insert.
Qed.

Lemma length_siftup heap pos : length (siftup heap pos) = length heap.
Proof.
  unfold siftup.
  pose proof (length_siftup_loop (length heap) heap (length heap) pos) as H.
  destruct (siftup_loop _ _ _ _) as [heap' pos']. simpl in H.
  unfold siftdown. by rewrite length_siftdown_loop, length_insert.
Qed.

Lemma length_heappush heap x : length (heappush heap x) = S (length heap).
Proof.
  unfold heappush, siftdown. rewrite length_siftdown_loop, length_app. simpl. lia.
Qed.

Lemma Forall_siftdown_loop (P : item → Prop) turns heap startpos pos newitem :
  Forall P heap → P newitem → pos < length heap →
  Forall P (siftdown_loop turns heap startpos pos newitem).
Proof.
  revert heap pos. induction turns as [|turns IH]; intros heap pos Hall Hx Hpos; simpl.
  - by apply Forall_insert.
  - case_decide; [|by apply Forall_insert].
    assert ((pos - 1) / 2 < length heap) as Hpar.
    { pose proof (Nat.Div0.div_le_upper_bound (pos - 1) 2 (pos - 1)). lia. }
    destruct (item_lt _ _); [|by apply Forall_insert].
    apply IH; [|done|by rewrite length_insert].
    apply Forall_insert; [done|].
    rewrite Forall_forall in Hall. apply Hall.
    by apply list_elem_of_lookup_total_2.
Qed.

Lemma Forall_siftup_loop (P : item → Prop) turns heap pos :
  Forall P heap → pos < length heap →
  Forall P (siftup_loop turns heap (length heap) pos).1
  ∧ (siftup_loop turns heap (length heap) pos).2 < length heap.
Proof.
  revert heap pos. induction turns as [|turns IH]; intros heap pos Hall Hpos; simpl; [done|].
  case_decide as Hc; [|done].
  set (child := if decide (2 * pos + 1 + 1 < length heap)
                then if item_lt (heap !!! (2 * pos + 1)) (heap !!! (2 * pos + 1 + 1))
                     then 2 * pos + 1 else 2 * pos + 1 + 1
                else 2 * pos + 1).
  assert (child < length heap) as Hchild.
  { unfold child. case_decide; [destruct (item_lt _ _)|]; lia. }
  pose proof (IH (<[pos := heap !!! child]> heap) child) as IH'.
  rewrite length_insert in IH'. apply IH'; [|done].
  apply Forall_insert; [done|].
  rewrite Forall_forall in Hall. apply Hall.
  by apply list_elem_of_lookup_total_2.
Qed.

Lemma Forall_siftup (P : item → Prop) heap pos :
  Forall P heap → pos < length heap → Forall P (siftup heap pos).
Proof.
  intros Hall Hpos. unfold siftup.
  destruct (Forall_siftup_loop P (length heap) heap pos Hall Hpos) as [H1 H2].
  pose proof (length_siftup_loop (length heap) heap (length heap) pos) as Hlen.
  destruct (siftup_loop _ _ _ _) as [heap' pos']. simpl in *.
  assert (P (heap !!! pos)) as Hx.
  { rewrite Forall_forall in Hall. apply Hall. by apply list_elem_of_lookup_total_2. }
  unfold siftdown. apply Forall_siftdown_loop.
  - by apply Forall_insert.
  - rewrite list_lookup_total_insert_eq by lia. done.
  - rewrite length_insert. lia.
Qed.

Lemma Forall_heappush (P : item → Prop) heap x :
  Forall P heap → P x → Forall P (heappush heap x).
Proof.
  intros Hall Hx. unfold heappush, siftdown.
  assert (Forall P (heap ++ [x])) as Hall'.
  { apply Forall_app. split; [done|by apply Forall_singleton]. }
  apply Forall_siftdown_loop; [done| |rewrite length_app; simpl; lia].
  rewrite Forall_forall in Hall'. apply Hall'.
  apply list_elem_of_lookup_total_2. rewrite length_app. simpl. lia.
Qed.

Lemma heappop_none heap : heappop heap = None ↔ heap = [].
Proof.
  unfold heappop. split.
  - destruct (reverse heap) as [|lastelt rest] eqn:Hr.
    + intros _. apply (f_equal reverse) in Hr. by rewrite reverse_involutive in Hr.
    + by destruct (reverse rest).
  - by intros ->.
Qed.

Lemma heappop_some (P : item → Prop) heap x heap' :
  heappop heap = Some (x, heap') → Forall P heap →
  P x ∧ Forall P heap' ∧ length heap = S (length heap').
Proof.
  unfold heappop. intros Hpop Hall.
  destruct (reverse heap) as [|lastelt rest] eqn:Hr; [done|].
  apply (f_equal reverse) in Hr. rewrite reverse_involutive, reverse_cons in Hr.
  subst heap. apply Forall_app in Hall as [Hrest Hlast].
  rewrite Forall_singleton in Hlast. rewrite length_app. simpl.
  destruct (reverse rest) as [|returnitem heap0] eqn:Hrr.
  - injection Hpop as <- <-. simpl. split_and!; [done|constructor|lia].
  - injection Hpop as <- <-. apply Forall_cons in Hrest as [Hret Hheap0].
    split_and!; [done| |].
    + apply Forall_siftup; [|simpl; lia]. simpl. by constructor.
    + rewrite length_siftup. simpl. lia.
Qed.

End HeapqFacts.

(** * The priority-queue solver terminates *)

Module HeapFacts.

Import Graph Spec StoreFacts HeapqFacts.

Lemma dget_insert (d : gmap string Z) (k k' : string) (v : Z) :
  Heap.dget (<[k := v]> d) k' = if decide (k = k') then v else Heap.dget d k'.
Proof.
  unfold Heap.dget. case_decide as Hk.
  - subst. by rewrite lookup_insert_eq.
  - by rewrite lookup_insert_ne.
Qed.

Lemma dget_nonneg (d : gmap string Z) (k : string) :
  map_Forall (λ _ v, 0 ≤ v)%Z d → (0 ≤ Heap.dget d k)%Z.
Proof.
  intros Hd. unfold Heap.dget. destruct (d !! k) as [v|] eqn:Hk; simpl.
  - by apply (Hd k v).
  - unfold maxsize. lia.
Qed.

Lemma potential_nonneg (ns : list Node.t) (d : gmap string Z) :
  map_Forall (λ _ v, 0 ≤ v)%Z d → (0 ≤ potential ns d)%Z.
Proof.
  intros Hd. induction ns as [|n ns IH]; simpl; [lia|].
  pose proof (dget_nonneg d (Node.id n) Hd). lia.
Qed.

Lemma potential_insert_le (ns : list Node.t) (d : gmap string Z) (k : string) (v : Z) :
  (v ≤ Heap.dget d k)%Z → (potential ns (<[k := v]> d) ≤ potential ns d)%Z.
Proof.
  intros Hv. induction ns as [|n ns IH]; simpl; [lia|].
  rewrite dget_insert. case_decide; subst; lia.
Qed.

Lemma potential_insert_lt (ns : list Node.t) (d : gmap string Z) (k : string)
  (v : Z) (n : Node.t) :
  n ∈ ns → Node.id n = k → (v ≤ Heap.dget d k)%Z →
  (potential ns (<[k := v]> d) ≤ potential ns d - (Heap.dget d k - v))%Z.
Proof.
  intros Hn Hid Hv. induction ns as [|n' ns IH]; simpl.
  - by apply elem_of_nil in Hn.
  - rewrite dget_insert. apply elem_of_cons in Hn as [<-|Hn].
    + rewrite decide_True by done. subst k.
      pose proof (potential_insert_le ns d (Node.id n) v Hv). lia.
    + specialize (IH Hn). case_decide as Hk; [rewrite <- Hk|]; lia.
Qed.

Lemma potential_bound (ns : list Node.t) (d : gmap string Z) :
  (∀ k, Heap.dget d k ≤ maxsize)%Z →
  (potential ns d ≤ Z.of_nat (length ns) * maxsize)%Z.
Proof.
  intros Hd. induction ns as [|n ns IH]; simpl length; simpl potential; [lia|].
  specialize (Hd (Node.id n)). lia.
Qed.

Lemma dist_of_lookup (g : Graph.t) (d : gmap string Z) (r : nat) (n : Node.t) :
  nodes g !! r = Some n → dist_of g d r = Heap.dget d (Node.id n).
Proof. unfold dist_of. by intros ->. Qed.

Lemma dist_of_insert_ne (g : Graph.t) (d : gmap string Z) (x r : nat)
  (nr : Node.t) (v : Z) :
  wf g → x < length (nodes g) → nodes g !! r = Some nr → x ≠ r →
  dist_of g (<[Node.id nr := v]> d) x = dist_of g d x.
Proof.
  intros Hwf Hx Hr Hne.
  destruct (lookup_lt_is_Some_2 _ _ Hx) as [nx Hnx].
  rewrite !(dist_of_lookup _ _ _ _ Hnx), dget_insert.
  case_decide as Hid; [|done].
  exfalso. apply Hne. symmetry. by eapply wf_id_inj.
Qed.

Lemma relax_inv (g : Graph.t) (node : nat) (nn : Node.t) (st : Heap.state)
  (e : Edge.t) :
  wf g → heap_inv g st → nodes g !! node = Some nn → node ∈ Heap.visited st →
  Edge.rnode e < length (nodes g) →
  ∃ st', Heap.relax g node (Node.id nn) st e = Ok st' ∧ heap_inv g st'
         ∧ (measure g st' ≤ measure g st)%Z
         ∧ Heap.visited st' = Heap.visited st.
Proof.
  intros Hwf Hinv Hnode Hvis Hr. unfold Heap.relax.
  case_bool_decide as Hrv; [by exists st|].
  destruct (lookup_lt_is_Some_2 _ _ Hr) as [nr Hnr].
  rewrite (node_id_ok _ _ _ Hnr). simpl.
  destruct (Z.ltb_spec (Heap.dget (Heap.distance st) (Node.id nn) + 1)
              (Heap.dget (Heap.distance st) (Node.id nr))) as [Hlt|_];
    [|by exists st].
  eexists. split; [done|].
  destruct Hinv as [Hq Hnn Hv Hp].
  pose proof (dget_nonneg _ (Node.id nn) Hnn) as Hge.
  assert (node ≠ Edge.rnode e) as Hne by (intros ->; done).
  split_and!; [constructor; simpl| |done].
  - by apply Forall_heappush.
  - apply map_Forall_insert_2; [lia|done].
  - done.
  - intros x y Hxy. destruct (decide (x = Edge.rnode e)) as [->|Hx].
    + rewrite lookup_insert_eq in Hxy. injection Hxy as <-.
      split_and!; [done..|].
      rewrite (dist_of_lookup _ _ _ _ Hnr), dget_insert, decide_True by done.
      rewrite (dist_of_insert_ne g _ node _ nr) by
        (done || by eapply lookup_lt_Some).
      by rewrite (dist_of_lookup _ _ _ _ Hnode).
    + rewrite lookup_insert_ne in Hxy by done.
      destruct (Hp x y Hxy) as (Hlx & Hy & Hd). split_and!; [done..|].
      rewrite !(dist_of_insert_ne g _ _ _ nr) by
        (done || (by apply Hv) || (intros ->; done)).
      done.
  - unfold measure. simpl. rewrite length_heappush.
    pose proof (potential_insert_lt (nodes g) (Heap.distance st) (Node.id nr)
                  (Heap.dget (Heap.distance st) (Node.id nn) + 1) nr
                  (list_elem_of_lookup_2 _ _ _ Hnr) eq_refl) as Hpot.
    lia.
Qed.

Lemma relax_all_inv (g : Graph.t) (node : nat) (nn : Node.t) (st : Heap.state)
  (es : list Edge.t) :
  wf g → heap_inv g st → nodes g !! node = Some nn → node ∈ Heap.visited st →
  Forall (λ e, Edge.rnode e < length (nodes g)) es →
  ∃ st', Heap.relax_all g node (Node.id nn) st es = Ok st' ∧ heap_inv g st'
         ∧ (measure g st' ≤ measure g st)%Z.
Proof.
  intros Hwf Hinv Hnode Hvis Hes. revert st Hinv Hvis.
  induction Hes as [|e es He _ IH]; intros st Hinv Hvis; simpl.
  - exists st. split_and!; [done|done|lia].
  - destruct (relax_inv g node nn st e Hwf Hinv Hnode Hvis He)
      as (st1 & -> & Hinv1 & Hm1 & Hv1). simpl.
    destruct (IH st1 Hinv1) as (st2 & -> & Hinv2 & Hm2); [by rewrite Hv1|].
    exists st2. split_and!; [done|done|lia].
Qed.

Lemma turn_inv (g : Graph.t) (st : Heap.state) :
  wf g → heap_inv g st →
  (Heap.turn g st = Ok (inr st))
  ∨ (∃ st', Heap.turn g st = Ok (inl st') ∧ heap_inv g st'
            ∧ (measure g st' ≤ measure g st - 1)%Z).
Proof.
  intros Hwf Hinv. unfold Heap.turn.
  destruct (heapq.heappop (Heap.priority_queue st)) as [[[d node] pq']|] eqn:Hpop;
    [right|by left].
  destruct Hinv as [Hq Hnn Hv Hp].
  destruct (heappop_some _ _ _ _ Hpop Hq) as (Hnode & Hq' & Hlen). simpl in Hnode.
  destruct (lookup_lt_is_Some_2 _ _ Hnode) as [nn Hn]. rewrite Hn. simpl.
  set (st1 := Heap.mk ({[node]} ∪ Heap.visited st) pq' (Heap.pathMap st)
                      (Heap.distance st)).
  assert (heap_inv g st1) as Hinv1.
  { constructor; simpl; [done|done| |].
    - intros y [->%elem_of_singleton|?]%elem_of_union; [done|by apply Hv].
    - intros x y Hxy. destruct (Hp x y Hxy) as (? & ? & ?).
      split_and!; [done| |done]. apply elem_of_union. by right. }
  destruct (relax_all_inv g node nn st1 (Node.edges nn) Hwf Hinv1 Hn)
    as (st2 & -> & Hinv2 & Hm2).
  - simpl. apply elem_of_union. left. by apply elem_of_singleton.
  - destruct (wf_incident g node nn Hwf Hn) as [Hall _]. simpl in Hall.
    eapply Forall_impl; [done|]. simpl. tauto.
  - simpl. exists st2. split_and!; [done|done|].
    unfold measure in *. simpl in *. lia.
Qed.

Lemma turns_inv (g : Graph.t) (budget : positive) (st : Heap.state) :
  wf g → heap_inv g st →
  (∃ st', Heap.turns budget g st = Ok (inr st') ∧ heap_inv g st')
  ∨ (∃ st', Heap.turns budget g st = Ok (inl st') ∧ heap_inv g st'
            ∧ (measure g st' ≤ measure g st - Z.pos budget)%Z).
Proof.
  intros Hwf. revert st.
  induction budget as [b IH|b IH|]; intros st Hinv; simpl.
  - destruct (turn_inv g st Hwf Hinv) as [->|(st1 & -> & Hinv1 & Hm1)]; simpl.
    { left. by exists st. }
    destruct (IH st1 Hinv1) as [(st2 & -> & Hinv2)|(st2 & -> & Hinv2 & Hm2)]; simpl.
    { left. by exists st2. }
    destruct (IH st2 Hinv2) as [(st3 & -> & Hinv3)|(st3 & -> & Hinv3 & Hm3)].
    { left. by exists st3. }
    right. exists st3. split_and!; [done|done|lia].
  - destruct (IH st Hinv) as [(st2 & -> & Hinv2)|(st2 & -> & Hinv2 & Hm2)]; simpl.
    { left. by exists st2. }
    destruct (IH st2 Hinv2) as [(st3 & -> & Hinv3)|(st3 & -> & Hinv3 & Hm3)].
    { left. by exists st3. }
    right. exists st3. split_and!; [done|done|lia].
  - destruct (turn_inv g st Hwf Hinv) as [->|(st1 & -> & Hinv1 & Hm1)].
    { left. by exists st. }
    right. exists st1. split_and!; [done|done|lia].
Qed.

Lemma measure_nonneg (g : Graph.t) (st : Heap.state) :
  heap_inv g st → (0 ≤ measure g st)%Z.
Proof.
  intros [_ Hnn _ _]. unfold measure.
  pose proof (potential_nonneg (nodes g) _ Hnn). lia.
Qed.

(** On a well-formed store the solver comes to an end for every source
    node of the store, and the predecessor map it returns descends along
    the distances it returns. *)
Lemma compute_dijkstra_using_heap_total (g : Graph.t) (src : nat) :
  wf g → src < length (nodes g) →
  ∃ dist prev, Heap.compute_dijkstra_using_heap g src = Ok (dist, prev)
               ∧ descending g dist prev.
Proof.
  intros Hwf Hsrc. unfold Heap.compute_dijkstra_using_heap.
  destruct (lookup_lt_is_Some_2 _ _ Hsrc) as [ns Hns].
  rewrite (node_id_ok _ _ _ Hns). simpl.
  set (st0 := Heap.mk ∅ (heapq.heappush [] (0%Z, src)) ∅ (<[Node.id ns:=0%Z]> ∅)).
  assert (heap_inv g st0) as Hinv0.
  { constructor; simpl.
    - apply Forall_heappush; [constructor|done].
    - apply map_Forall_insert_2; [lia|apply map_Forall_empty].
    - intros y Hy. by apply elem_of_empty in Hy.
    - intros x y Hxy. by rewrite lookup_empty in Hxy. }
  assert (measure g st0 < Z.pos (Heap.budget g))%Z as Hm0.
  { unfold measure, Heap.budget, st0.
    cbn [Heap.priority_queue Heap.distance]. rewrite length_heappush.
    cbn [length].
    pose proof (potential_bound (nodes g) (<[Node.id ns:=0%Z]> ∅)) as Hb.
    assert (∀ k, (Heap.dget (<[Node.id ns:=0%Z]> ∅) k ≤ maxsize)%Z) as Hk.
    { intros k. rewrite dget_insert. case_decide; unfold Heap.dget, maxsize.
      - lia.
      - rewrite lookup_empty. simpl. lia. }
    specialize (Hb Hk). rewrite Pos2Z.inj_mul, Zpos_P_of_succ_nat.
    unfold maxsize in *. lia. }
  destruct (turns_inv g (Heap.budget g) st0 Hwf Hinv0)
    as [(st' & -> & Hinv')|(st' & -> & Hinv' & Hm')]; simpl.
  - exists (Heap.distance st'), (Heap.pathMap st'). split; [done|].
    intros x y Hxy. destruct Hinv' as [_ _ Hv Hp].
    destruct (Hp x y Hxy) as (? & ? & ?). split_and!; [done|by apply Hv|done].
  - pose proof (measure_nonneg g st' Hinv'). lia.
Qed.

End HeapFacts.

(** * Path reconstruction and the spur step *)

Module YenFacts.

Import Graph Spec StoreFacts HeapFacts.

Lemma filter_length_lt {A} (P Q : A → Prop) `{∀ x, Decision (P x)}
  `{∀ x, Decision (Q x)} (l : list A) (x : A) :
  (∀ y, P y → Q y) → x ∈ l → Q x → ¬ P x →
  length (filter P l) < length (filter Q l).
Proof.
  intros HPQ Hx HQ HP.
  assert (∀ l', length (filter P l') ≤ length (filter Q l')) as Hle.
  { induction l' as [|y l' IH]; [done|]. rewrite !filter_cons.
    destruct (decide (P y)) as [Hy|Hy].
    - rewrite decide_True by auto. simpl. lia.
    - destruct (decide (Q y)); simpl; lia. }
  induction l as [|y l IH]; [by apply elem_of_nil in Hx|].
  rewrite !filter_cons. apply elem_of_cons in Hx as [<-|Hx].
  - rewrite decide_False, decide_True by done. simpl.
    specialize (Hle l). lia.
  - specialize (IH Hx). destruct (decide (P y)) as [Hy|Hy].
    + rewrite decide_True by auto. simpl. lia.
    + destruct (decide (Q y)); simpl; lia.
Qed.

Lemma rank_pos (g : Graph.t) (dist : gmap string Z) (c : nat) :
  c < length (nodes g) → 0 < rank g dist c.
Proof.
  intros Hc. destruct (lookup_lt_is_Some_2 _ _ Hc) as [n Hn].
  unfold rank.
  assert (n ∈ filter (λ n, Heap.dget dist (Node.id n) ≤ dist_of g dist c)%Z (nodes g))
    as Hin.
  { apply list_elem_of_filter. split; [|by eapply list_elem_of_lookup_2].
    rewrite (dist_of_lookup _ _ _ _ Hn). lia. }
  destruct (filter _ _); [by apply elem_of_nil in Hin|simpl; lia].
Qed.

Lemma rank_lt (g : Graph.t) (dist : gmap string Z) (c p : nat) :
  c < length (nodes g) → (dist_of g dist p < dist_of g dist c)%Z →
  rank g dist p < rank g dist c.
Proof.
  intros Hc Hlt. destruct (lookup_lt_is_Some_2 _ _ Hc) as [n Hn].
  unfold rank. apply (filter_length_lt _ _ _ n).
  - intros y. lia.
  - by eapply list_elem_of_lookup_2.
  - rewrite (dist_of_lookup _ _ _ _ Hn). lia.
  - rewrite <- (dist_of_lookup _ _ _ _ Hn). lia.
Qed.

Lemma path_loop_total (g : Graph.t) (dist : gmap string Z) (prev : gmap nat nat)
  (node_start : nat) (turns curr : nat) (route : list nat) :
  descending g dist prev → node_start < length (nodes g) →
  prev !! curr = None ∨ rank g dist curr ≤ turns → 0 < turns →
  ∃ r, Yen.path_loop turns g prev node_start curr route = Ok r.
Proof.
  intros Hdesc Hs. destruct (lookup_lt_is_Some_2 _ _ Hs) as [ns Hns].
  revert curr route. induction turns as [|turns IH]; intros curr route Hrank Hpos;
    [lia|]. simpl.
  destruct (prev !! curr) as [p|] eqn:Hp; [|by eexists].
  destruct (Hdesc curr p Hp) as (Hc & Hlp & Hd).
  destruct (lookup_lt_is_Some_2 _ _ Hlp) as [np Hnp].
  rewrite (node_id_ok _ _ _ Hnp), (node_id_ok _ _ _ Hns). simpl.
  destruct (String.eqb _ _); [by eexists|].
  destruct Hrank as [?|Hrank]; [done|].
  pose proof (rank_lt g dist curr p Hc) as Hlt.
  pose proof (rank_pos g dist p Hlp).
  apply IH; [right|]; lia.
Qed.

(** The walk back along a predecessor map returned by the solver comes to
    an end. *)
Lemma path_total (g : Graph.t) (dist : gmap string Z) (prev : gmap nat nat)
  (node_start node_end : nat) :
  descending g dist prev → node_start < length (nodes g) →
  ∃ r, Yen.path g prev node_start node_end = Ok r.
Proof.
  intros Hdesc Hs. unfold Yen.path.
  destruct (path_loop_total g dist prev node_start (S (length (nodes g)))
              node_end [] Hdesc Hs) as [r ->]; [|lia|by eexists].
  right. unfold rank.
  pose proof (length_filter
    (λ n, Heap.dget dist (Node.id n) ≤ dist_of g dist node_end)%Z (nodes g)).
  lia.
Qed.

(** The walk never yields the empty route: the destination is always on
    it. *)
Lemma path_loop_nonempty (g : Graph.t) (prev : gmap nat nat)
  (node_start : nat) (turns curr : nat) (route r : list nat) :
  Yen.path_loop turns g prev node_start curr route = Ok r → r ≠ [].
Proof.
  revert curr route. induction turns as [|turns IH]; intros curr route; simpl;
    [done|].
  destruct (prev !! curr) as [p|].
  - destruct (node_id g p); simpl; [|done].
    destruct (node_id g node_start); simpl; [|done].
    destruct (String.eqb _ _).
    + intros [= <-]. by destruct route.
    + apply IH.
  - intros [= <-]. by destruct route.
Qed.

Lemma path_nonempty (g : Graph.t) (prev : gmap nat nat)
  (node_start node_end : nat) (r : list nat) :
  Yen.path g prev node_start node_end = Ok r → r ≠ [].
Proof.
  unfold Yen.path.
  destruct (Yen.path_loop _ _ _ _ _ _) as [r'|] eqn:Hr; simpl; [|done].
  intros [= <-]. apply path_loop_nonempty in Hr.
  intros Hnil. apply Hr. apply (f_equal reverse) in Hnil.
  by rewrite reverse_involutive in Hnil.
Qed.

(** *** Removing and restoring edges *)

Lemma bind_ok_inv {A B} (m : M A) (k : A → M B) (g g' : Graph.t) (b : B) :
  bind m k g = (Ok b, g') → ∃ a g1, m g = (Ok a, g1) ∧ k a g1 = (Ok b, g').
Proof.
  unfold bind. destruct (m g) as [[a|e] g1]; [|done]. intros H. by exists a, g1.
Qed.

Lemma lift_ok_inv {A} (r : Result A) (g g' : Graph.t) (a : A) :
  lift r g = (Ok a, g') → r = Ok a ∧ g' = g.
Proof. unfold lift. by intros [= -> ->]. Qed.

Lemma of_option_ok_inv {A} (e : Exn) (o : option A) (a : A) :
  of_option e o = Ok a → o = Some a.
Proof. destruct o; simpl; congruence. Qed.

Lemma node_id_ok_inv (g : Graph.t) (r : nat) (i : string) :
  node_id g r = Ok i → ∃ n, nodes g !! r = Some n ∧ Node.id n = i.
Proof.
  unfold node_id. destruct (nodes g !! r) as [n|]; simpl; [|done].
  intros [= <-]. by exists n.
Qed.

Lemma remove_edge_ok_inv (g g1 : Graph.t) (u v : nat) :
  wf g → remove_edge u v g = (Ok tt, g1) →
  ∃ nu nv, nodes g !! u = Some nu ∧ nodes g !! v = Some nv
           ∧ g1 = removed u v (Node.id nu) (Node.id nv) g.
Proof.
  intros Hwf H.
  destruct (nodes g !! u) as [nu|] eqn:Hu; last first.
  { unfold remove_edge, bind, node in H. by rewrite Hu in H. }
  destruct (nodes g !! v) as [nv|] eqn:Hv; last first.
  { unfold remove_edge, bind, node in H. by rewrite Hu, Hv in H. }
  rewrite (remove_edge_wf g u v nu nv Hwf Hu Hv) in H.
  injection H as <-. by exists nu, nv.
Qed.

Lemma length_nodes_removed (g : Graph.t) (a b : nat) (n1 n2 : string) :
  length (nodes (removed a b n1 n2 g)) = length (nodes g).
Proof. simpl. by rewrite length_alter. Qed.

Lemma length_nodes_added (g : Graph.t) (a b : nat) (n1 n2 : string) :
  length (nodes (added a b n1 n2 g)) = length (nodes g).
Proof. simpl. by rewrite !length_alter. Qed.

Lemma occurrences_cons (u v : nat) (uv : nat * nat) (l : list (nat * nat)) :
  occurrences u v (uv :: l)
  = (if decide (uv = (u, v)) then 1 else 0) + occurrences u v l.
Proof. unfold occurrences. rewrite filter_cons. by case_decide. Qed.

Lemma remove_shared_inv (i : nat) (path_root : list nat) (A : list Yen.entry)
  (acc l : list (nat * nat)) (g g1 : Graph.t) :
  wf g → Yen.remove_shared i path_root A acc g = (Ok l, g1) →
  ∃ l', l = acc ++ l' ∧ wf g1 ∧ length (nodes g1) = length (nodes g)
        ∧ Forall (λ uv, uv.1 < length (nodes g) ∧ uv.2 < length (nodes g)) l'
        ∧ ∀ u v, links g u v ≤ links g1 u v + occurrences u v l'.
Proof.
  revert acc g. induction A as [|path_k A IH]; intros acc g Hwf; simpl.
  - intros [= <- <-]. exists []. rewrite app_nil_r.
    split_and!; [done..|constructor|]. intros u v. lia.
  - destruct (bool_decide _ && bool_decide _); [|by apply IH].
    intros (u & g' & [Hu ->]%lift_ok_inv & H)%bind_ok_inv.
    apply bind_ok_inv in H as (v & g' & [Hv ->]%lift_ok_inv & H).
    apply bind_ok_inv in H as ([] & g2 & Hrem & H).
    destruct (remove_edge_ok_inv g g2 u v Hwf Hrem) as (nu & nv & Hnu & Hnv & ->).
    pose proof (wf_removed g u v (Node.id nu) (Node.id nv) Hwf) as Hwf2.
    destruct (IH _ _ Hwf2 H) as (l' & -> & Hwf1 & Hlen & Hall & Hlinks).
    rewrite length_nodes_removed in Hlen, Hall.
    exists ((u, v) :: l'). rewrite <- app_assoc. split_and!; [done..| |].
    + constructor; [|done]. simpl. split; by eapply lookup_lt_Some.
    + intros u' v'. rewrite occurrences_cons.
      pose proof (links_removed g u v u' v' (Node.id nu) (Node.id nv)) as H1.
      specialize (Hlinks u' v').
      destruct (decide ((u, v) = (u', v'))) as [[= <- <-]|Hne].
      * rewrite decide_True in H1 by done. lia.
      * rewrite decide_False in H1 by (intros [<- <-]; done). lia.
Qed.

Lemma remove_shared_total (i : nat) (path_root : list nat) (A : list Yen.entry)
  (acc : list (nat * nat)) (g : Graph.t) :
  wf g →
  Forall (λ p, Forall (λ r, r < length (nodes g)) (Yen.path_of p)) A →
  Forall (λ p, path_root = take (S i) (Yen.path_of p) →
               length (Yen.path_of p) ≠ S i) A →
  ∃ l g1, Yen.remove_shared i path_root A acc g = (Ok l, g1).
Proof.
  intros Hwf Hnodes. revert acc g Hwf Hnodes.
  induction A as [|path_k A IH]; intros acc g Hwf Hnodes Hhops; simpl.
  - by eexists _, _.
  - apply Forall_cons in Hnodes as [Hk Hnodes].
    apply Forall_cons in Hhops as [Hhop Hhops].
    case_bool_decide as Hlen; simpl; [|by apply IH].
    case_bool_decide as Hroot; simpl; [|by apply IH].
    specialize (Hhop Hroot).
    destruct (lookup_lt_is_Some_2 (Yen.path_of path_k) i Hlen) as [u Hu].
    destruct (lookup_lt_is_Some_2 (Yen.path_of path_k) (S i)) as [v Hv]; [lia|].
    rewrite Hu, Hv.
    rewrite Forall_forall in Hk.
    pose proof (Hk u (list_elem_of_lookup_2 _ _ _ Hu)) as Hlu.
    pose proof (Hk v (list_elem_of_lookup_2 _ _ _ Hv)) as Hlv.
    destruct (lookup_lt_is_Some_2 _ _ Hlu) as [nu Hnu].
    destruct (lookup_lt_is_Some_2 _ _ Hlv) as [nv Hnv].
    rewrite (bind_ok _ _ g g u) by done.
    rewrite (bind_ok _ _ g g v) by done.
    rewrite (bind_ok _ _ _ _ _ (remove_edge_wf g u v nu nv Hwf Hnu Hnv)).
    apply IH; [by apply wf_removed| |done].
    by rewrite length_nodes_removed.
Qed.

Lemma restore_inv (l : list (nat * nat)) (g1 g2 : Graph.t) :
  wf g1 → Yen.restore l g1 = (Ok tt, g2) →
  wf g2 ∧ length (nodes g2) = length (nodes g1)
  ∧ ∀ u v, links g1 u v + occurrences u v l ≤ links g2 u v.
Proof.
  revert g1. induction l as [|[u v] l IH]; intros g1 Hwf; simpl.
  - intros [= <-]. split_and!; [done..|]. intros u v. unfold occurrences. simpl. lia.
  - intros (g' & ? & [= <- <-] & H)%bind_ok_inv.
    apply bind_ok_inv in H as (uid & g' & [Hu ->]%lift_ok_inv & H).
    apply bind_ok_inv in H as (vid & g' & [Hv ->]%lift_ok_inv & H).
    apply bind_ok_inv in H as ([] & g' & Hadd & H).
    apply node_id_ok_inv in Hu as (nu & Hnu & <-).
    apply node_id_ok_inv in Hv as (nv & Hnv & <-).
    pose proof (lookup_lt_Some _ _ _ Hnu) as Hlu.
    pose proof (lookup_lt_Some _ _ _ Hnv) as Hlv.
    rewrite (add_edge_by_index g1 _ _ u v) in Hadd
      by (done || by apply wf_index).
    injection Hadd as <-.
    destruct (IH _ (wf_added g1 u v _ _ Hwf Hlu Hlv) H) as (Hwf2 & Hlen & Hlinks).
    rewrite length_nodes_added in Hlen. split_and!; [done..|].
    intros u' v'. specialize (Hlinks u' v').
    rewrite links_added in Hlinks by done. rewrite occurrences_cons.
    destruct (decide ((u, v) = (u', v'))) as [[= <- <-]|Hne].
    + rewrite decide_True in Hlinks by done. lia.
    + lia.
Qed.

Lemma restore_total (l : list (nat * nat)) (g1 : Graph.t) :
  wf g1 →
  Forall (λ uv, uv.1 < length (nodes g1) ∧ uv.2 < length (nodes g1)) l →
  ∃ g2, Yen.restore l g1 = (Ok tt, g2).
Proof.
  revert g1. induction l as [|[u v] l IH]; intros g1 Hwf Hall; simpl.
  - by eexists.
  - apply Forall_cons in Hall as [[Hlu Hlv] Hall]. simpl in *.
    destruct (lookup_lt_is_Some_2 _ _ Hlu) as [nu Hnu].
    destruct (lookup_lt_is_Some_2 _ _ Hlv) as [nv Hnv].
    rewrite (bind_ok _ _ g1 g1 g1) by done.
    rewrite (bind_ok _ _ g1 g1 (Node.id nu))
      by (unfold lift; by rewrite (node_id_ok _ _ _ Hnu)).
    rewrite (bind_ok _ _ g1 g1 (Node.id nv))
      by (unfold lift; by rewrite (node_id_ok _ _ _ Hnv)).
    erewrite bind_ok;
      [|apply (add_edge_by_index g1 _ _ u v); done || by apply wf_index].
    apply IH; [by apply wf_added|]. by rewrite length_nodes_added.
Qed.

Lemma last_elem_of {A} (l : list A) (x : A) : last l = Some x → x ∈ l.
Proof.
  rewrite last_lookup. apply list_elem_of_lookup_2.
Qed.

(** In a call on nodes of the store itself, a spur step that runs to its
    end leaves every node with at least as many edge objects towards every
    other node as it had before the step: whatever the removal loop
    detached, the restore loop has added again, so two nodes that were
    linked before the step are linked after it, and the store is well
    formed again.  And the step does run to its end on a well-formed store
    when the spur position lies on the latest accepted path and the
    accepted paths are made of nodes of the store. *)
Lemma spur_step_restores (g : Graph.t) (distances : gmap string Z)
  (node_end : nat) (A B : list Yen.entry) (i : nat) :
  wf g →
  (∀ B' g', Yen.spur_step distances node_end A B i g = (Ok B', g') →
     wf g' ∧ length (nodes g') = length (nodes g)
     ∧ (∀ u v, links g u v ≤ links g' u v)
     ∧ (∀ u v, 0 < links g u v → 0 < links g' u v))
  ∧ (spur_ready g node_end A i →
     ∃ B' g', Yen.spur_step distances node_end A B i g = (Ok B', g')).
Proof.
  intros Hwf. split.
  - intros B' g' H. unfold Yen.spur_step in H.
    apply bind_ok_inv in H as (current & ? & [_ ->]%lift_ok_inv & H).
    apply bind_ok_inv in H as (node_spur & ? & [_ ->]%lift_ok_inv & H).
    apply bind_ok_inv in H as (l & g1 & Hrem & H).
    apply bind_ok_inv in H as (? & ? & [= <- <-] & H).
    apply bind_ok_inv in H as (solved & ? & [_ ->]%lift_ok_inv & H).
    apply bind_ok_inv in H as (spur & ? & [_ ->]%lift_ok_inv & H).
    apply bind_ok_inv in H as (sid & ? & [_ ->]%lift_ok_inv & H).
    apply bind_ok_inv in H as (eid & ? & [_ ->]%lift_ok_inv & H).
    apply bind_ok_inv in H as ([] & g2 & Hres & [= _ <-]).
    destruct (remove_shared_inv _ _ _ _ _ _ _ Hwf Hrem)
      as (l' & Hl & Hwf1 & Hlen1 & _ & Hlinks1).
    simpl in Hl. subst l'.
    destruct (restore_inv _ _ _ Hwf1 Hres) as (Hwf2 & Hlen2 & Hlinks2).
    assert (∀ u v, links g u v ≤ links g2 u v) as Hmono.
    { intros u v. specialize (Hlinks1 u v). specialize (Hlinks2 u v). lia. }
    split_and!; [done|congruence|done|].
    intros u v. specialize (Hmono u v). lia.
  - intros (Hend & Hnodes & Hready).
    destruct (last A) as [current|] eqn:Hlast; [|done].
    destruct Hready as [Hi Hhops].
    pose proof (last_elem_of _ _ Hlast) as Hin.
    destruct (lookup_lt_is_Some_2 _ _ Hi) as [node_spur Hspur].
    assert (node_spur < length (nodes g)) as Hlspur.
    { rewrite Forall_forall in Hnodes. specialize (Hnodes current Hin).
      rewrite Forall_forall in Hnodes. apply Hnodes.
      by eapply list_elem_of_lookup_2. }
    unfold Yen.spur_step.
    rewrite (bind_ok _ _ g g current) by (unfold lift; by rewrite Hlast).
    rewrite (bind_ok _ _ g g node_spur) by (unfold lift; by rewrite Hspur).
    destruct (remove_shared_total i (take (S i) (Yen.path_of current)) A [] g
                Hwf Hnodes Hhops) as (l & g1 & Hrem).
    rewrite (bind_ok _ _ _ _ _ Hrem).
    destruct (remove_shared_inv _ _ _ _ _ _ _ Hwf Hrem)
      as (l' & Hl & Hwf1 & Hlen1 & Hvalid & _).
    simpl in Hl. subst l'.
    rewrite (bind_ok _ _ g1 g1 g1) by done.
    destruct (compute_dijkstra_using_heap_total g1 node_spur Hwf1)
      as (dist & prev & Hsolved & Hdesc); [lia|].
    rewrite (bind_ok _ _ g1 g1 (dist, prev)) by (unfold lift; by rewrite Hsolved).
    destruct (path_total g1 dist prev node_spur node_end Hdesc) as [spur Hpath];
      [lia|].
    rewrite (bind_ok _ _ g1 g1 spur) by (unfold lift; simpl; by rewrite Hpath).
    destruct (lookup_lt_is_Some_2 (nodes g1) node_spur) as [ns Hns]; [lia|].
    destruct (lookup_lt_is_Some_2 (nodes g1) node_end) as [ne Hne]; [lia|].
    rewrite (bind_ok _ _ g1 g1 (Node.id ns))
      by (unfold lift; by rewrite (node_id_ok _ _ _ Hns)).
    rewrite (bind_ok _ _ g1 g1 (Node.id ne))
      by (unfold lift; by rewrite (node_id_ok _ _ _ Hne)).
    destruct (restore_total l g1 Hwf1) as [g2 Hres]; [by rewrite Hlen1|].
    rewrite (bind_ok _ _ _ _ _ Hres). by eexists _, _.
Qed.

Lemma spur_step_restores_witness :
  ∃ B' g', Yen.spur_step ∅ 2 [Yen.mk 2 [0; 1; 2]] [] 0 chain = (Ok B', g')
           ∧ 0 < links g' 0 1.
Proof.
  destruct (spur_step_restores chain ∅ 2 [Yen.mk 2 [0; 1; 2]] [] 0)
    as [Hafter Hruns]; [by_evaluation|].
  destruct Hruns as (B' & g' & Hstep); [by_evaluation|].
  exists B', g'. split; [exact Hstep|].
  destruct (Hafter B' g' Hstep) as (_ & _ & _ & Hlinked).
  apply Hlinked. by_evaluation.
Defined.

End YenFacts.

(** * The all-pairs computation *)

Module AllHostsFacts.

Import Graph Spec StoreFacts HeapFacts.

Lemma get_all_hosts_wf (g : Graph.t) :
  wf g →
  ∃ hosts, (get_all_hosts g).1 = Ok hosts
           ∧ Forall (λ r, r < length (nodes g)) hosts.
Proof.
  intros Hwf. unfold get_all_hosts. simpl.
  assert (Forall (λ x : nat * string, x.1 < length (nodes g)) (host_idxs g)) as Hall.
  { apply Forall_forall. intros [i n] Hin. unfold host_idxs in Hin.
    apply list_elem_of_In, filter_In in Hin as [Hin _].
    apply list_elem_of_In, list_elem_of_lookup in Hin as [j Hj].
    rewrite list_lookup_imap in Hj.
    destruct (node_names g !! j) as [n'|] eqn:Hn; simplify_eq/=.
    apply lookup_lt_Some in Hn. destruct Hwf as [Hnames _].
    by rewrite Hnames, length_fmap in Hn. }
  induction Hall as [|x l Hx _ IH]; simpl.
  - exists []. by split.
  - destruct IH as (hosts & Hh & Hv).
    rewrite decide_True by done. simpl.
    destruct (mapM _ l) as [k|]; simpl in *; [|done].
    injection Hh as <-. exists (x.1 :: k). split; [done|by constructor].
Qed.

Lemma process_host_total (g : Graph.t) (host rem : nat) (t_res : list Z)
  (memo : gmap string Z) :
  wf g → host < length (nodes g) → rem < length (nodes g) →
  ∃ d memo', AllHosts.process_host g host rem (t_res, memo) = Ok (t_res ++ [d], memo').
Proof.
  intros Hwf Hh Hr.
  destruct (lookup_lt_is_Some_2 _ _ Hh) as [nh Hnh].
  destruct (lookup_lt_is_Some_2 _ _ Hr) as [nr Hnr].
  unfold AllHosts.process_host.
  rewrite (node_id_ok _ _ _ Hnh), (node_id_ok _ _ _ Hnr). simpl.
  destruct (memo !! AllHosts.path_name (Node.id nh) (Node.id nr)) as [d|] eqn:H1.
  { rewrite H1. simpl. by eexists _, _. }
  destruct (memo !! AllHosts.path_name (Node.id nr) (Node.id nh)) as [d|] eqn:H2.
  { rewrite H2. simpl. by eexists _, _. }
  destruct (compute_dijkstra_using_heap_total g host Hwf Hh) as (dist & prev & -> & _).
  simpl. by eexists _, _.
Qed.

(** A distance that is memoized under either key order is reused: the
    solver is not run and the memo stays as it is. *)
Lemma process_host_reuses (g : Graph.t) (host rem : nat) (hid rid : string)
  (t_res : list Z) (memo : gmap string Z) (d : Z) :
  node_id g host = Ok hid → node_id g rem = Ok rid →
  memo !! AllHosts.path_name hid rid = Some d
  ∨ (memo !! AllHosts.path_name hid rid = None
     ∧ memo !! AllHosts.path_name rid hid = Some d) →
  AllHosts.process_host g host rem (t_res, memo) = Ok (t_res ++ [d], memo).
Proof.
  intros Hh Hr Hmemo. unfold AllHosts.process_host. rewrite Hh, Hr. simpl.
  destruct Hmemo as [H1|[H1 H2]].
  - rewrite H1. simpl. by rewrite H1.
  - rewrite H1, H2. simpl. by rewrite H2.
Qed.

Lemma process_hosts_total (g : Graph.t) (host : nat) (remaining : list nat)
  (t_res : list Z) (memo : gmap string Z) :
  wf g → host < length (nodes g) →
  Forall (λ r, r < length (nodes g)) remaining →
  ∃ t_res' memo', AllHosts.process_hosts g host remaining (t_res, memo)
                  = Ok (t_res', memo')
                  ∧ length t_res' = length t_res + length remaining.
Proof.
  intros Hwf Hh Hrem. revert t_res memo.
  induction Hrem as [|rem rest Hr _ IH]; intros t_res memo;
    cbn [AllHosts.process_hosts].
  - eexists _, _. split; [done|simpl; lia].
  - destruct (process_host_total g host rem t_res memo Hwf Hh Hr) as (d & memo1 & ->).
    simpl. destruct (IH (t_res ++ [d]) memo1) as (t' & memo' & -> & Hlen).
    eexists _, _. split; [done|]. rewrite length_app in Hlen. simpl in Hlen. lia.
Qed.

Lemma processInput_total (g : Graph.t) (hosts : list nat) (idx : nat)
  (memo : gmap string Z) :
  wf g → Forall (λ r, r < length (nodes g)) hosts → idx < length hosts →
  ∃ t_res memo', AllHosts.processInput g hosts idx memo = Ok (t_res, memo')
                 ∧ length t_res = length hosts - 1.
Proof.
  intros Hwf Hhosts Hidx. unfold AllHosts.processInput.
  destruct (lookup_lt_is_Some_2 _ _ Hidx) as [host Hhost]. rewrite Hhost. simpl.
  destruct (process_hosts_total g host (take idx hosts ++ drop (S idx) hosts) []
              memo Hwf) as (t_res & memo' & -> & Hlen).
  - rewrite Forall_forall in Hhosts. apply Hhosts. by eapply list_elem_of_lookup_2.
  - apply Forall_app. split; [by apply Forall_take|by apply Forall_drop].
  - eexists _, _. split; [done|].
    rewrite Hlen, length_app, length_take, length_drop. simpl. lia.
Qed.

Lemma run_units_total (g : Graph.t) (hosts idxs : list nat) (memo : gmap string Z) :
  wf g → Forall (λ r, r < length (nodes g)) hosts →
  Forall (λ i, i < length hosts) idxs →
  ∃ results, AllHosts.run_units g hosts idxs memo = Ok results
             ∧ length (concat results) = length idxs * (length hosts - 1).
Proof.
  intros Hwf Hhosts Hidxs. revert memo.
  induction Hidxs as [|i idxs Hi _ IH]; intros memo; cbn [AllHosts.run_units].
  - by exists [].
  - destruct (processInput_total g hosts i memo Hwf Hhosts Hi)
      as (t_res & memo' & -> & Hlen). simpl.
    destruct (IH memo') as (results & -> & Hlens). simpl.
    eexists. split; [done|]. simpl. rewrite length_app. lia.
Qed.

(** C5, as stated, fails: for two linked hosts the flat result holds two
    distances, one made by each unit, for the one unordered pair. *)
Lemma all_hosts_two_contributions :
  ¬ one_contribution_per_unordered_pair linked_hosts.
Proof.
  intros H. specialize (H [0; 1] [1%Z; 1%Z]).
  assert (length [1%Z; 1%Z] = length [0; 1] * (length [0; 1] - 1) / 2) as Hlen.
  { apply H; vm_compute; reflexivity. }
  vm_compute in Hlen. discriminate.
Qed.

End AllHostsFacts.

(** * Yen's k shortest paths *)

Module KspFacts.

Import Graph Spec StoreFacts HeapFacts YenFacts.

Lemma path_without_predecessor (g : Graph.t) (prev : gmap nat nat)
  (node_start node_end : nat) :
  prev !! node_end = None → Yen.path g prev node_start node_end = Ok [node_end].
Proof. intros Hp. unfold Yen.path. simpl. by rewrite Hp. Qed.

Lemma ksp_loop_single_node (rounds : nat) (distances : gmap string Z)
  (node_end : nat) (e : Yen.entry) (g : Graph.t) :
  length (Yen.path_of e) = 1 →
  Yen.ksp_loop rounds distances node_end [e] [] g = (Ok [e], g).
Proof.
  intros Hlen. destruct rounds as [|rounds]; simpl; [done|].
  unfold bind, lift. simpl. by rewrite Hlen.
Qed.

(** C6: what the code does when the destination has no predecessor, as it
    has none when it cannot be reached.  [path] walks back from the
    destination and puts it on the route before it looks for a predecessor,
    so the one entry of [A] carries the path [[node_end]], never the empty
    path the guard [if not A[0]['path']] waits for; the list is returned
    after the first turn of the loop finds no spur position. *)
Theorem yen_unreachable_keeps_destination (g : Graph.t)
  (node_start node_end : nat) (max_k : Z) (dist : gmap string Z)
  (prev : gmap nat nat) (eid : string) :
  Heap.compute_dijkstra_using_heap g node_start = Ok (dist, prev) →
  node_id g node_end = Ok eid →
  prev !! node_end = None →
  Yen.compute_yen_ksp node_start node_end max_k g
  = (Ok [Yen.mk (Heap.dget dist eid) [node_end]], g).
Proof.
  intros Hsolved Hid Hprev. unfold Yen.compute_yen_ksp.
  rewrite (bind_ok _ _ g g g) by done.
  rewrite (bind_ok _ _ g g (dist, prev)) by (unfold lift; by rewrite Hsolved).
  rewrite (bind_ok _ _ g g eid) by (unfold lift; by rewrite Hid).
  rewrite (bind_ok _ _ g g [node_end])
    by (unfold lift; simpl; by rewrite path_without_predecessor).
  by apply ksp_loop_single_node.
Qed.

Lemma yen_unreachable_keeps_destination_witness :
  Yen.compute_yen_ksp 0 2 2 with_isolated_host
  = (Ok [Yen.mk maxsize [2]], with_isolated_host).
Proof.
  set (dist := <["h2" := 1%Z]> (<["h1" := 0%Z]> ∅) : gmap string Z).
  set (prev := {[1 := 0]} : gmap nat nat).
  assert (Heap.compute_dijkstra_using_heap with_isolated_host 0 = Ok (dist, prev))
    as Hsolved by (vm_compute; reflexivity).
  assert (node_id with_isolated_host 2 = Ok "h3") as Hid
    by (vm_compute; reflexivity).
  assert (prev !! 2 = None) as Hprev by (vm_compute; reflexivity).
  assert (Heap.dget dist "h3" = maxsize) as Hd by (vm_compute; reflexivity).
  rewrite <- Hd.
  exact (yen_unreachable_keeps_destination with_isolated_host 0 2 2 dist prev
           "h3" Hsolved Hid Hprev).
Defined.

(** No route that [path] returns is empty, so the guard of
    [compute_yen_ksp] never fires. *)
Lemma yen_first_path_nonempty (g g' : Graph.t) (node_start node_end : nat)
  (max_k : Z) (A : list Yen.entry) :
  Yen.compute_yen_ksp node_start node_end max_k g = (Ok A, g') →
  ∃ e A', A = e :: A' ∧ Yen.path_of e ≠ [].
Proof.
  unfold Yen.compute_yen_ksp. intros H.
  apply bind_ok_inv in H as (? & ? & [= <- <-] & H).
  apply bind_ok_inv in H as (solved & ? & [_ ->]%lift_ok_inv & H).
  apply bind_ok_inv in H as (eid & ? & [_ ->]%lift_ok_inv & H).
  apply bind_ok_inv in H as (p & ? & [Hp ->]%lift_ok_inv & H).
  apply path_nonempty in Hp. destruct p as [|x p]; [done|].
  assert (∀ rounds A0 B g0 g1 A1,
            Yen.ksp_loop rounds solved.1 node_end A0 B g0 = (Ok A1, g1) →
            ∃ l, A1 = A0 ++ l) as Hloop.
  { clear. induction rounds as [|rounds IH]; intros A0 B g0 g1 A1; simpl.
    - intros [= <- <-]. exists []. by rewrite app_nil_r.
    - intros H. apply bind_ok_inv in H as (current & ? & [_ ->]%lift_ok_inv & H).
      apply bind_ok_inv in H as (B' & g2 & _ & H).
      destruct B' as [|b B']; [injection H as <- <-; exists []; by rewrite app_nil_r|].
      destruct (Yen.sorted (b :: B')) as [|b0 B0]; [done|].
      apply IH in H as [l ->]. exists (b0 :: l). by rewrite <- app_assoc. }
  apply Hloop in H as [l ->]. simpl. by eexists _, _.
Qed.

(** C2: what the code does on the chain h1 - s1 - h2 when four paths from
    h1 to h2 are asked for.  The list [A] that comes back holds the node
    sequence [[h2]] twice, at positions 1 and 3. *)
Theorem yen_returns_a_path_twice :
  ∃ A, (Yen.compute_yen_ksp 0 2 4 chain).1 = Ok A
       ∧ A = [Yen.mk 2 [0; 1; 2]; Yen.mk maxsize [2];
              Yen.mk (maxsize + 1) [0; 2]; Yen.mk maxsize [2]]
       ∧ ¬ NoDup (Yen.path_of <$> A).
Proof.
  eexists. split; [vm_compute; reflexivity|]. split; [reflexivity|].
  simpl. intros Hnd. apply NoDup_cons in Hnd as [_ Hnd].
  apply NoDup_cons in Hnd as [Hin _]. apply Hin. right. left.
Qed.

(** The same on two routes of equal length, where every node is reachable:
    with five paths asked for, the list [A] ends on the same node sequence
    twice, a sequence that walks the edge h1 - s2 three times. *)
Lemma yen_returns_a_path_twice_diamond :
  (Yen.compute_yen_ksp 0 3 5 diamond).1
  = Ok [Yen.mk 2 [0; 2; 3]; Yen.mk 2 [0; 1; 3]; Yen.mk 4 [0; 2; 0; 1; 3];
        Yen.mk 2 [0; 2; 0; 2; 3]; Yen.mk 2 [0; 2; 0; 2; 3]].
Proof. vm_compute. reflexivity. Qed.

End KspFacts.

(** * The two solvers *)

Module SolverFacts.

Import Graph Spec.

(** A round of the matrix solver that finds no vertex to select ends in a
    [TypeError], whatever the matrix. *)
Lemma spt_round_without_vertex (k n : nat) (adj_mat : list (list Weight))
  (sptSet : list bool) (dist : list Z) :
  0 < n →
  Spt.select dist sptSet (seq 0 n) maxsize None = Ok None →
  Spt.rounds (S k) n adj_mat sptSet dist = Raise TypeError.
Proof.
  intros Hn Hsel. simpl. rewrite Hsel. simpl.
  destruct n as [|n]; [lia|]. reflexivity.
Qed.

(** C1: what the two solvers do on a store in which some node cannot be
    reached from the source.  With h1 - h2 linked and h3 on its own, h2 is
    reachable from h1 and the priority-queue solver reports the distance 1,
    while the matrix solver ends in a [TypeError]: in the third round no
    vertex is left to select, the guard [if min_idx != None] skips the
    settling, and the relaxation loop then indexes the matrix with
    [None]. *)
Theorem solvers_disagree_with_unreachable_node :
  (Spt.compute_dijikstra_using_spt 0 1 with_isolated_host).1 = Raise TypeError
  ∧ (λ solved : gmap string Z * gmap nat nat, Heap.dget solved.1 "h2")
      <$> Heap.compute_dijkstra_using_heap with_isolated_host 0 = Ok 1%Z.
Proof. split; vm_compute; reflexivity. Qed.

(** On the chain and on the two equal routes, where every node is
    reachable, both solvers report the same distance. *)
Lemma solvers_agree_on_chain :
  (Spt.compute_dijikstra_using_spt 0 2 chain).1 = Ok 2%Z
  ∧ (λ solved : gmap string Z * gmap nat nat, Heap.dget solved.1 "h2")
      <$> Heap.compute_dijkstra_using_heap chain 0 = Ok 2%Z.
Proof. split; vm_compute; reflexivity. Qed.

End SolverFacts.

(** * ECMP extraction *)

Module EcmpFacts.

Import Graph Spec.

Lemma collect_prefix (n : nat) (K : Z) (acc rest : list Yen.entry) :
  ∃ l, Ecmp.collect n K acc rest = acc ++ l
       ∧ l `prefix_of` filter (λ p, length (Yen.path_of p) = n) rest.
Proof.
  revert acc. induction rest as [|p rest IH]; intros acc; simpl.
  - exists []. rewrite app_nil_r. split; [done|]. by exists [].
  - rewrite filter_cons.
    destruct (Nat.eqb_spec (length (Yen.path_of p)) n) as [Heq|Hne].
    + rewrite decide_True by done.
      destruct (Z.eqb _ _).
      * exists [p]. split; [done|]. by apply prefix_cons, prefix_nil.
      * destruct (IH (acc ++ [p])) as (l & -> & Hl).
        exists (p :: l). rewrite <- app_assoc. split; [done|]. by apply prefix_cons.
    + rewrite decide_False by done.
      destruct (Z.eqb _ _).
      * exists []. rewrite app_nil_r. split; [done|]. apply prefix_nil.
      * apply IH.
Qed.

Lemma collect_bound (n : nat) (K : Z) (acc rest : list Yen.entry) :
  (Z.of_nat (length acc) < K)%Z →
  (Z.of_nat (length (Ecmp.collect n K acc rest)) ≤ K)%Z.
Proof.
  revert acc. induction rest as [|p rest IH]; intros acc Hacc; simpl; [lia|].
  set (acc' := if Nat.eqb (length (Yen.path_of p)) n then acc ++ [p] else acc).
  assert (Z.of_nat (length acc') ≤ K)%Z as Hle.
  { unfold acc'. destruct (Nat.eqb _ _); [rewrite length_app; simpl|]; lia. }
  destruct (Z.eqb_spec (Z.of_nat (length acc')) K) as [->|Hne]; [lia|].
  apply IH. lia.
Qed.

(** For a count of at least one, [get_ecmp_paths] returns paths taken in
    order from index 1 onward, all as long as the path at index 0, and no
    more of them than asked for. *)
Lemma get_ecmp_paths_bounded (g : Graph.t) (host_pair : nat * nat)
  (computed_paths : gmap string (list Yen.entry)) (K : Z)
  (a b : string) (shortest : Yen.entry) (rest res : list Yen.entry) :
  (1 ≤ K)%Z →
  node_id g host_pair.1 = Ok a → node_id g host_pair.2 = Ok b →
  computed_paths !! AllHosts.path_name a b = Some (shortest :: rest) →
  Ecmp.get_ecmp_paths g host_pair computed_paths K = Ok res →
  res `prefix_of`
    filter (λ p, length (Yen.path_of p) = length (Yen.path_of shortest)) rest
  ∧ (Z.of_nat (length res) ≤ K)%Z.
Proof.
  intros HK Ha Hb Hpaths. unfold Ecmp.get_ecmp_paths.
  rewrite Ha, Hb. simpl. rewrite Hpaths. intros [= <-]. split.
  - destruct (collect_prefix (length (Yen.path_of shortest)) K [] rest)
      as (l & -> & Hl). done.
  - apply collect_bound. simpl. lia.
Qed.

(** C7: what the code does for the count 0.  The test for the count comes
    after the append, so with a first candidate of the right length the
    list is already longer than the count, the test never holds, and every
    path of that length is returned: here two of them, for a count of 0. *)
Theorem get_ecmp_paths_zero_count :
  Ecmp.get_ecmp_paths linked_hosts (0, 1)
    {[ "h1:h2" := [Yen.mk 1 [0; 1]; Yen.mk 1 [0; 1]; Yen.mk 1 [0; 1]] ]} 0
  = Ok [Yen.mk 1 [0; 1]; Yen.mk 1 [0; 1]].
Proof. vm_compute. reflexivity. Qed.

End EcmpFacts.

(** * More on the store *)

Module StoreMore.

Import Graph Spec StoreFacts.

Lemma edges_ok_len_mono (len len' k r : nat) (es : list Edge.t) :
  edges_ok len k r es → len ≤ len' → edges_ok len' k r es.
Proof.
  intros [H1 H2] Hl. split; [|done].
  eapply Forall_impl; [done|]. simpl. intros e (? & ? & ?). repeat split; [done|lia|done].
Qed.

Lemma wf_lengths (g : Graph.t) :
  wf g → length (node_names g) = length (nodes g).
Proof. intros [-> _]. by rewrite length_fmap. Qed.

Lemma add_node_fresh (g : Graph.t) (n ty : string) :
  contains n (node_names g) = false →
  add_node n ty g
  = (Ok (length (nodes g)),
     Graph.mk (deliver (NodeAdded n) <$> composables g) (graph_name g)
       (nodes g ++ [Node.mk n ty []]) (node_names g ++ [n]) (edges g)
       (adjacency_matrix g) (allocated g)).
Proof. intros Hc. unfold add_node. by rewrite Hc. Qed.

Lemma wf_add_node (g : Graph.t) (n ty : string) : wf g → wf (add_node n ty g).2.
Proof.
  intros Hwf. destruct (contains n (node_names g)) eqn:Hc.
  { unfold add_node. by rewrite Hc. }
  rewrite (add_node_fresh _ _ _ Hc). simpl. apply wf_intro; simpl.
  - destruct Hwf as [-> _]. by rewrite fmap_app.
  - apply NoDup_app. split_and!; [apply Hwf| |apply NoDup_singleton].
    intros x Hx ->%list_elem_of_singleton. by apply contains_false in Hc.
  - intros r nd Hr. rewrite length_app. simpl.
    apply lookup_app_Some in Hr as [Hr|[Hlen Hr]].
    + eapply edges_ok_len_mono; [apply (wf_incident g r nd Hwf Hr)|lia].
    + apply list_lookup_singleton_Some in Hr as [_ <-]. simpl.
      split; [constructor|constructor].
Qed.

Lemma index_is_Some (n : string) (l : list string) :
  n ∈ l → is_Some (index n l).
Proof.
  induction l as [|x l IH]; simpl; [by intros ?%elem_of_nil|].
  destruct (String.eqb_spec x n); [by eexists|].
  intros [?|Hin]%elem_of_cons; [congruence|].
  destruct (IH Hin) as [i ->]. by eexists.
Qed.

Lemma index_None (n : string) (l : list string) :
  n ∉ l → index n l = None.
Proof.
  intros Hn. destruct (index n l) as [i|] eqn:Hi; [|done].
  exfalso. apply Hn. apply index_lookup in Hi. by eapply list_elem_of_lookup_2.
Qed.

Lemma add_edge_outcome (g : Graph.t) (n1 n2 : string) :
  wf g →
  (add_edge n1 n2 g = (Raise ValueError, g) ∧ (n1 ∉ node_names g ∨ n2 ∉ node_names g))
  ∨ (∃ a b, index n1 (node_names g) = Some a ∧ index n2 (node_names g) = Some b
            ∧ a < length (nodes g) ∧ b < length (nodes g)
            ∧ add_edge n1 n2 g = (Ok tt, added a b n1 n2 g)).
Proof.
  intros Hwf. pose proof (wf_lengths g Hwf) as Hlen.
  destruct (index n1 (node_names g)) as [a|] eqn:Ha; last first.
  { left. split.
    - unfold add_edge, bind, node_by_name. by rewrite Ha.
    - left. intros [i Hi]%index_is_Some. congruence. }
  assert (a < length (nodes g)) as Hla.
  { apply index_lookup, lookup_lt_Some in Ha. lia. }
  destruct (index n2 (node_names g)) as [b|] eqn:Hb; last first.
  { left. split.
    - unfold add_edge.
      rewrite (bind_ok _ _ _ _ _ (node_by_name_ok g n1 a Ha Hla)).
      unfold bind, node_by_name. by rewrite Hb.
    - right. intros [i Hi]%index_is_Some. congruence. }
  assert (b < length (nodes g)) as Hlb.
  { apply index_lookup, lookup_lt_Some in Hb. lia. }
  right. exists a, b. split_and!; [done..|]. by apply add_edge_by_index.
Qed.

Lemma remove_edge_outcome (g : Graph.t) (a b : nat) :
  wf g →
  (remove_edge a b g = (Raise ForeignNode, g)
   ∧ (length (nodes g) ≤ a ∨ length (nodes g) ≤ b))
  ∨ (∃ na nb, nodes g !! a = Some na ∧ nodes g !! b = Some nb
              ∧ remove_edge a b g = (Ok tt, removed a b (Node.id na) (Node.id nb) g)).
Proof.
  intros Hwf.
  destruct (nodes g !! a) as [na|] eqn:Ha; last first.
  { left. split.
    - unfold remove_edge, bind, node. by rewrite Ha.
    - left. by apply lookup_ge_None. }
  destruct (nodes g !! b) as [nb|] eqn:Hb; last first.
  { left. split.
    - unfold remove_edge, bind, node. by rewrite Ha, Hb.
    - right. by apply lookup_ge_None. }
  right. exists na, nb. split_and!; [done..|]. by apply remove_edge_wf.
Qed.

Lemma wf_create_nodes (defs : list NodeDefn) (g : Graph.t) :
  wf g → wf (create_nodes_from_array defs g).2.
Proof.
  revert g. induction defs as [|d defs IH]; intros g Hwf; simpl; [done|].
  destruct (get_type d) as [ty|]; [|done].
  pose proof (wf_add_node g d.1 ty Hwf) as Hwf1.
  unfold bind. destruct (add_node d.1 ty g) as [[nd|e] g1]; simpl in *; [|done].
  by apply IH.
Qed.

(** X1.  The operations of the store keep it well formed, whether they
    succeed or raise: after [add_node], [add_edge], [remove_edge] or
    [create_nodes_from_array] the names still mirror the nodes, ids are
    still unique, and every incident edge still leaves its own node and
    reaches a node of the store. *)
Theorem store_stays_well_formed (g : Graph.t) :
  wf g →
  (∀ n ty, wf (add_node n ty g).2)
  ∧ (∀ n1 n2, wf (add_edge n1 n2 g).2)
  ∧ (∀ a b, wf (remove_edge a b g).2)
  ∧ (∀ defs, wf (create_nodes_from_array defs g).2).
Proof.
  intros Hwf. split_and!.
  - intros n ty. by apply wf_add_node.
  - intros n1 n2.
    destruct (add_edge_outcome g n1 n2 Hwf)
      as [[-> _]|(a & b & _ & _ & Ha & Hb & ->)]; [done|].
    by apply wf_added.
  - intros a b.
    destruct (remove_edge_outcome g a b Hwf) as [[-> _]|(na & nb & _ & _ & ->)];
      [done|].
    by apply wf_removed.
  - intros defs. by apply wf_create_nodes.
Qed.

Lemma store_stays_well_formed_witness :
  wf (add_edge "h1" "s1" chain).2 ∧ wf (remove_edge 0 1 chain).2
  ∧ wf (add_node "s9" "switch" chain).2 ∧ wf (add_edge "h1" "nowhere" chain).2.
Proof.
  destruct (store_stays_well_formed chain) as (H1 & H2 & H3 & _); [by_evaluation|].
  split_and!; [apply H2|apply H3|apply H1|apply H2].
Defined.

(** X2.  [add_edge] with an id that names no node of the store raises
    [ValueError], the error of [list.index], and changes nothing: neither
    endpoint receives an edge and no observer is notified. *)
Theorem add_edge_unknown_id (g : Graph.t) (n1 n2 : string) :
  wf g → n1 ∉ node_names g ∨ n2 ∉ node_names g →
  add_edge n1 n2 g = (Raise ValueError, g).
Proof.
  intros Hwf Hn.
  destruct (add_edge_outcome g n1 n2 Hwf) as [[-> _]|(a & b & Ha & Hb & _)]; [done|].
  destruct Hn as [Hn|Hn]; apply index_None in Hn; congruence.
Qed.

Lemma add_edge_unknown_id_witness :
  add_edge "h1" "s7" chain = (Raise ValueError, chain).
Proof.
  apply add_edge_unknown_id; [by_evaluation|]. right. by_evaluation.
Defined.

Lemma links_drop_first_to_exact (b v : nat) (es : list Edge.t) :
  length (filter (λ e, Edge.rnode e = v) (drop_first_to b es))
  = if decide (b = v) then pred (length (filter (λ e, Edge.rnode e = v) es))
    else length (filter (λ e, Edge.rnode e = v) es).
Proof.
  induction es as [|e es IH]; simpl; [by case_decide|].
  destruct (Nat.eqb_spec (Edge.rnode e) b) as [Heq|Hne].
  - rewrite filter_cons. repeat case_decide; simpl; congruence.
  - rewrite !filter_cons. repeat case_decide; simpl; congruence.
Qed.

Lemma drop_first_to_unlinked (b : nat) (es : list Edge.t) :
  length (filter (λ e, Edge.rnode e = b) es) = 0 → drop_first_to b es = es.
Proof.
  induction es as [|e es IH]; simpl; [done|].
  rewrite filter_cons. destruct (Nat.eqb_spec (Edge.rnode e) b) as [Heq|Hne].
  - rewrite decide_True by done. simpl. lia.
  - rewrite decide_False by done. intros H. by rewrite IH.
Qed.

(** X3.  [remove_edge(a, b)] on two nodes of the store detaches one edge
    object at most: [a] is left with one [a -> b] edge fewer (none fewer
    when it had none), every other count of edges, [b -> a] included, is as
    before, the edge list of the store is untouched, and the observers are
    notified of a removal even when there was no edge to remove and the
    nodes are exactly as they were. *)
Theorem remove_edge_effect (g : Graph.t) (a b : nat) (na nb : Node.t) :
  wf g → nodes g !! a = Some na → nodes g !! b = Some nb →
  ∃ g', remove_edge a b g = (Ok tt, g')
    ∧ links g' a b = pred (links g a b)
    ∧ (∀ u v, (u, v) ≠ (a, b) → links g' u v = links g u v)
    ∧ edges g' = edges g
    ∧ composables g'
      = deliver (EdgeRemoved (Node.id na) (Node.id nb)) <$> composables g
    ∧ (links g a b = 0 → nodes g' = nodes g).
Proof.
  intros Hwf Ha Hb. exists (removed a b (Node.id na) (Node.id nb) g).
  split_and!; [by apply remove_edge_wf| | |done|done|].
  - unfold links. rewrite edges_of_removed, decide_True by done.
    by rewrite links_drop_first_to_exact, decide_True.
  - intros u v Hne. unfold links. rewrite edges_of_removed.
    case_decide as Hu; [|done]. subst u.
    rewrite links_drop_first_to_exact. rewrite decide_False; [done|].
    intros ->. done.
  - intros H0. simpl. apply list_eq. intros i.
    destruct (decide (a = i)) as [<-|Hne].
    + rewrite list_lookup_alter_eq, Ha. simpl. f_equal.
      unfold without_edge. rewrite drop_first_to_unlinked.
      * by destruct na.
      * unfold links, edges_of in H0. by rewrite (incident_lookup _ _ _ Ha) in H0.
    + by rewrite list_lookup_alter_ne.
Qed.

Lemma remove_edge_effect_witness :
  ∃ g', remove_edge 0 2 chain = (Ok tt, g') ∧ nodes g' = nodes chain
        ∧ links g' 0 1 = 1.
Proof.
  destruct (remove_edge_effect chain 0 2
              (Node.mk "h1" "host" [Edge.mk 0 0 1])
              (Node.mk "h2" "host" [Edge.mk 3 2 1]))
    as (g' & H1 & _ & H2 & _ & _ & H3); [by_evaluation|reflexivity|reflexivity|].
  exists g'. split_and!; [exact H1|apply H3; by_evaluation|].
  rewrite H2; [by_evaluation|]. intros [=].
Defined.

Lemma list_find_fst_Some {A} (P : A → Prop) `{∀ x, Decision (P x)}
  (l : list A) (i : nat) (x : A) :
  l !! i = Some x → P x → (∀ j y, l !! j = Some y → P y → j = i) →
  fst <$> list_find P l = Some i.
Proof.
  intros Hi HP Huniq.
  assert (list_find P l = Some (i, x)) as ->; [|done].
  apply list_find_Some. split_and!; [done..|].
  intros j y Hj Hlt HPy. specialize (Huniq j y Hj HPy). lia.
Qed.

(** X4.  Adding a node and looking its id up is a round trip: after a
    successful [add_node(n, t)], [get_node_by_id(n)] is the node that was
    returned, every other id is looked up as before, and an id that names
    no node is answered with [None]. *)
Theorem add_node_then_get_node_by_id (g g' : Graph.t) (n ty : string) (nd : nat) :
  wf g → add_node n ty g = (Ok nd, g') →
  get_node_by_id n g' = Some nd
  ∧ nodes g' !! nd = Some (Node.mk n ty [])
  ∧ (∀ i, i ≠ n → get_node_by_id i g' = get_node_by_id i g)
  ∧ (∀ i, i ∉ node_names g' → get_node_by_id i g' = None).
Proof.
  intros Hwf Hadd.
  destruct (contains n (node_names g)) eqn:Hc.
  { unfold add_node in Hadd. by rewrite Hc in Hadd. }
  rewrite (add_node_fresh _ _ _ Hc) in Hadd. injection Hadd as <- <-.
  pose proof Hc as Hfresh. apply contains_false in Hfresh.
  destruct Hwf as (Hnames & Hnd & _).
  assert ((nodes g ++ [Node.mk n ty []]) !! length (nodes g)
          = Some (Node.mk n ty [])) as Hlast.
  { rewrite lookup_app_r by lia. by rewrite Nat.sub_diag. }
  split_and!.
  - unfold get_node_by_id. simpl.
    apply (list_find_fst_Some _ _ _ (Node.mk n ty [])); [done|done|].
    intros j y Hj Hy. apply lookup_app_Some in Hj as [Hj|[Hge Hj]].
    + exfalso. apply Hfresh. rewrite Hnames, <- Hy.
      apply list_elem_of_fmap. exists y. split; [done|].
      by eapply list_elem_of_lookup_2.
    + apply list_lookup_singleton_Some in Hj as [Hj _]. lia.
  - done.
  - intros i Hi. unfold get_node_by_id. simpl.
    destruct (list_find (λ n0, Node.id n0 = i) (nodes g)) as [[j y]|] eqn:Hf.
    + by rewrite (list_find_app_l _ _ _ _ _ Hf).
    + rewrite (list_find_app_r _ _ _ Hf). simpl.
      rewrite decide_False by done. done.
  - intros i Hi. unfold get_node_by_id. simpl in *.
    assert (list_find (λ n0, Node.id n0 = i) (nodes g ++ [Node.mk n ty []]) = None)
      as ->; [|done].
    apply list_find_None, Forall_forall. intros y Hy Hid. apply Hi.
    apply elem_of_app in Hy as [Hy|Hy%list_elem_of_singleton].
    + apply elem_of_app. left. rewrite Hnames, <- Hid.
      by apply list_elem_of_fmap_2.
    + apply elem_of_app. right. subst y. simpl in Hid. subst i. left.
Qed.

Lemma add_node_then_get_node_by_id_witness :
  ∃ g', add_node "s2" "switch" chain = (Ok 3, g')
        ∧ get_node_by_id "s2" g' = Some 3
        ∧ get_node_by_id "h2" g' = get_node_by_id "h2" chain.
Proof.
  set (g' := (add_node "s2" "switch" chain).2).
  assert (add_node "s2" "switch" chain = (Ok 3, g')) as Hadd
    by (vm_compute; reflexivity).
  exists g'. split; [exact Hadd|].
  destruct (add_node_then_get_node_by_id chain g' "s2" "switch" 3)
    as (H1 & _ & H2 & _); [by_evaluation|exact Hadd|].
  split; [exact H1|]. apply H2. intros [=].
Defined.

End StoreMore.

(** * The adjacency matrix and its cache *)

Module MatrixFacts.

Import Graph Spec StoreFacts.

Lemma is_neighbor_wf (g : Graph.t) (i j : nat) (n : Node.t) :
  wf g → nodes g !! i = Some n →
  Node.is_neighbor n j = true ↔ 0 < links g i j ∨ (i = j ∧ edges_of g i ≠ []).
Proof.
  intros Hwf Hn. unfold links, edges_of. rewrite (incident_lookup _ _ _ Hn).
  destruct (wf_incident g i n Hwf Hn) as [Hall _]. simpl in Hall.
  unfold Node.is_neighbor. induction Hall as [|e es (Hl & _ & _) _ IH]; simpl.
  - split; [done|]. intros [?|[_ ?]]; [lia|done].
  - rewrite filter_cons, orb_true_iff, orb_true_iff, IH, !Nat.eqb_eq, Hl.
    case_decide as Hr; simpl; split.
    + intros _. left. lia.
    + intros _. left. by right.
    + intros [[?|?]|[?|[? ?]]]; [right; by split|done|by left|right; by split].
    + intros [?|[-> _]]; [right; by left|left; by left].
Qed.

(** X5.  The first call of [generate_adjancency_matrix] builds an N x N
    matrix, caches it in the store and returns it.  The entry for [i] and
    [j] is [1] when [i] holds an edge object towards [j], and also on the
    diagonal for every node that holds any edge at all, because a node is
    the left end of its own edges; every other entry is [inf]. *)
Theorem adjacency_matrix_entries (g : Graph.t) :
  wf g → adjacency_matrix g = None →
  ∃ adj, generate_adjancency_matrix g = (Ok adj, set_adjacency_matrix (Some adj) g)
    ∧ length adj = length (nodes g)
    ∧ ∀ i j, i < length (nodes g) → j < length (nodes g) →
        ∃ row, adj !! i = Some row ∧ length row = length (nodes g)
          ∧ row !! j
            = Some (if decide (0 < links g i j ∨ (i = j ∧ edges_of g i ≠ []))
                    then Fin 1 else Inf).
Proof.
  intros Hwf Hnone. exists (build_matrix g). split_and!.
  - unfold generate_adjancency_matrix. by rewrite Hnone.
  - unfold build_matrix. by rewrite length_fmap.
  - intros i j Hi Hj. destruct (lookup_lt_is_Some_2 _ _ Hi) as [n Hn].
    unfold build_matrix. rewrite list_lookup_fmap, Hn. simpl.
    eexists. split; [done|]. rewrite length_fmap, length_seq. split; [done|].
    rewrite list_lookup_fmap, lookup_seq_lt by done. simpl. f_equal.
    pose proof (is_neighbor_wf g i j n Hwf Hn) as Hnb.
    destruct (Node.is_neighbor n j); case_decide as Hd; try done.
    + exfalso. apply Hd. by apply Hnb.
    + apply Hnb in Hd. done.
Qed.

Lemma adjacency_matrix_entries_witness :
  ∃ adj row, (generate_adjancency_matrix chain).1 = Ok adj
             ∧ adj !! 0 = Some row
             ∧ row !! 0 = Some (Fin 1) ∧ row !! 2 = Some Inf.
Proof.
  destruct (adjacency_matrix_entries chain) as (adj & Hgen & Hlen & Hrows);
    [by_evaluation|reflexivity|].
  assert (length (nodes chain) = 3) as Hn by (vm_compute; reflexivity).
  destruct (Hrows 0 0) as (row & Hrow & _ & H00); [lia..|].
  destruct (Hrows 0 2) as (row' & Hrow' & _ & H02); [lia..|].
  rewrite Hrow in Hrow'. injection Hrow' as <-.
  exists adj, row. split_and!; [by rewrite Hgen|exact Hrow| |].
  - rewrite H00. rewrite decide_True; [done|].
    right. split; [done|]. intros Hnil. vm_compute in Hnil. discriminate.
  - rewrite H02. rewrite decide_False; [done|].
    intros [Hl|[Heq _]]; [|discriminate]. vm_compute in Hl. lia.
Defined.

Lemma node_id_same_ids (g1 g2 : Graph.t) (r : nat) :
  Node.id <$> nodes g1 = Node.id <$> nodes g2 → node_id g1 r = node_id g2 r.
Proof.
  intros Hids. unfold node_id. by rewrite <- !list_lookup_fmap, Hids.
Qed.

Lemma spt_uses_the_cache (g1 g2 : Graph.t) (adj : list (list Weight))
  (src dst : nat) :
  Node.id <$> nodes g1 = Node.id <$> nodes g2 →
  node_names g1 = node_names g2 →
  adjacency_matrix g1 = Some adj → adjacency_matrix g2 = Some adj →
  (Spt.compute_dijikstra_using_spt src dst g1).1
  = (Spt.compute_dijikstra_using_spt src dst g2).1.
Proof.
  intros Hids Hnames Ha1 Ha2.
  assert (length (nodes g1) = length (nodes g2)) as Hlen.
  { by rewrite <- (length_fmap Node.id (nodes g1)), Hids, length_fmap. }
  unfold Spt.compute_dijikstra_using_spt, bind, get, lift,
    generate_adjancency_matrix.
  rewrite (node_id_same_ids g1 g2 src Hids), (node_id_same_ids g1 g2 dst Hids).
  rewrite Hnames, Ha1, Ha2, Hlen.
  destruct (node_id g2 src) as [sid|]; [|done].
  destruct (of_option ValueError (index sid (node_names g2))) as [src_idx|]; [|done].
  destruct (node_id g2 dst) as [did|]; [|done].
  destruct (of_option ValueError (index did (node_names g2))) as [dst_idx|]; [|done].
  destruct (of_option IndexError (replicate (length (nodes g2)) maxsize !! src_idx));
    [|done].
  destruct (Spt.rounds _ _ _ _ _) as [dist|]; [|done].
  by destruct (of_option IndexError (dist !! dst_idx)).
Qed.

(** X6.  Once the adjacency matrix has been built it is never rebuilt:
    after [add_edge] or [remove_edge] between nodes of the store,
    [generate_adjancency_matrix] still returns the matrix built before the
    change and leaves the store alone, and the matrix solver answers every
    query as it did before the change. *)
Theorem adjacency_matrix_is_stale (g : Graph.t) (adj : list (list Weight))
  (a b : nat) (na nb : Node.t) :
  wf g → adjacency_matrix g = Some adj →
  nodes g !! a = Some na → nodes g !! b = Some nb →
  ∀ g', g' = (add_edge (Node.id na) (Node.id nb) g).2
        ∨ g' = (remove_edge a b g).2 →
    generate_adjancency_matrix g' = (Ok adj, g')
    ∧ ∀ src dst, (Spt.compute_dijikstra_using_spt src dst g').1
                 = (Spt.compute_dijikstra_using_spt src dst g).1.
Proof.
  intros Hwf Hadj Ha Hb g' Hg'.
  pose proof (lookup_lt_Some _ _ _ Ha) as Hla.
  pose proof (lookup_lt_Some _ _ _ Hb) as Hlb.
  assert (adjacency_matrix g' = Some adj ∧ node_names g' = node_names g
          ∧ Node.id <$> nodes g' = Node.id <$> nodes g) as (Hadj' & Hnames & Hids).
  { destruct Hg' as [->| ->].
    - rewrite (add_edge_by_index g _ _ a b) by (done || by apply wf_index).
      simpl. split_and!; [done..|]. by rewrite !ids_alter_with_edge.
    - rewrite (remove_edge_wf g a b na nb Hwf Ha Hb). simpl.
      split_and!; [done..|]. apply list_eq. intros i.
      rewrite !list_lookup_fmap. destruct (decide (a = i)) as [<-|?].
      + rewrite list_lookup_alter_eq. by destruct (nodes g !! a).
      + by rewrite list_lookup_alter_ne. }
  split.
  - unfold generate_adjancency_matrix. by rewrite Hadj'.
  - intros src dst. by apply (spt_uses_the_cache g' g adj).
Qed.

Lemma adjacency_matrix_is_stale_witness :
  let g := (generate_adjancency_matrix with_isolated_host).2 in
  let g' := (add_edge "h2" "h3" g).2 in
  (generate_adjancency_matrix g').1 = (generate_adjancency_matrix g).1
  ∧ 0 < links g' 1 2
  ∧ (Spt.compute_dijikstra_using_spt 0 2 g').1 = Raise TypeError.
Proof.
  intros g g'.
  assert (∃ adj, adjacency_matrix g = Some adj) as [adj Hadj] by (by eexists).
  destruct (adjacency_matrix_is_stale g adj 1 2 (Node.mk "h2" "host" [Edge.mk 1 1 0])
              (Node.mk "h3" "host" []) ) with (g' := g') as [Hgen Hspt];
    [by_evaluation|exact Hadj|reflexivity|reflexivity|by left|].
  split_and!.
  - rewrite Hgen. unfold generate_adjancency_matrix. by rewrite Hadj.
  - by_evaluation.
  - rewrite Hspt. vm_compute. reflexivity.
Defined.

End MatrixFacts.

(** * More on hosts, bulk construction and ECMP *)

Module MoreFacts.

Import Graph Spec Terms StoreFacts StoreMore.

Lemma hosts_of_imap (k : nat) (names : list string) :
  ∀ r, r ∈ (fst <$> List.filter (λ x : nat * string, startswith x.2 "h")
                      (imap (λ i, pair (k + i)) names))
       ↔ ∃ i n, r = k + i ∧ names !! i = Some n ∧ startswith n "h" = true.
Proof.
  intros r. rewrite list_elem_of_fmap. split.
  - intros ([r' n] & -> & Hin). apply list_elem_of_In, filter_In in Hin as [Hin Hh].
    apply list_elem_of_In, list_elem_of_lookup in Hin as [i Hi].
    rewrite list_lookup_imap in Hi.
    destruct (names !! i) as [n'|] eqn:Hn; simplify_eq/=. by exists i, n.
  - intros (i & n & -> & Hn & Hh). exists (k + i, n). split; [done|].
    apply list_elem_of_In, filter_In. split; [|done].
    apply list_elem_of_In, list_elem_of_lookup. exists i.
    by rewrite list_lookup_imap, Hn.
Qed.

Lemma hosts_sorted (k : nat) (names : list string) :
  StronglySorted lt (fst <$> List.filter (λ x : nat * string, startswith x.2 "h")
                               (imap (λ i, pair (k + i)) names)).
Proof.
  revert k. induction names as [|n names IH]; intros k; simpl; [constructor|].
  assert (StronglySorted lt
            (fst <$> List.filter (λ x : nat * string, startswith x.2 "h")
                       (imap ((λ i, pair (k + i)) ∘ S) names))) as Hrest.
  { erewrite imap_ext; [apply (IH (S k))|]. intros i x _. simpl. f_equal. lia. }
  destruct (startswith n "h"); simpl; [|done].
  constructor; [done|]. apply Forall_forall. intros r Hr.
  erewrite imap_ext in Hr; [apply (hosts_of_imap (S k)) in Hr|].
  - destruct Hr as (i & _ & -> & _). lia.
  - intros i x _. simpl. f_equal. lia.
Qed.

(** X7.  [get_all_hosts] returns exactly the nodes whose id starts with
    [h], each once and in the order in which they were added to the store,
    and does not touch the store. *)
Theorem get_all_hosts_spec (g : Graph.t) :
  wf g →
  ∃ hosts, get_all_hosts g = (Ok hosts, g)
    ∧ StronglySorted lt hosts
    ∧ ∀ r, r ∈ hosts
           ↔ ∃ n, nodes g !! r = Some n ∧ startswith (Node.id n) "h" = true.
Proof.
  intros Hwf. exists (fst <$> host_idxs g).
  assert (∀ r, r ∈ (fst <$> host_idxs g)
               ↔ ∃ n, nodes g !! r = Some n ∧ startswith (Node.id n) "h" = true)
    as Hmem.
  { intros r. unfold host_idxs.
    pose proof (hosts_of_imap 0 (node_names g) r) as H. simpl in H. rewrite H.
    destruct Hwf as (Hnames & _). rewrite Hnames. split.
    - intros (i & n & -> & Hn & Hh). rewrite list_lookup_fmap in Hn.
      destruct (nodes g !! i) as [nd|] eqn:Hnd; simplify_eq/=. by exists nd.
    - intros (nd & Hnd & Hh). exists r, (Node.id nd).
      split_and!; [done| |done]. by rewrite list_lookup_fmap, Hnd. }
  split_and!; [|apply (hosts_sorted 0)|done].
  unfold get_all_hosts. f_equal.
  assert (Forall (λ x : nat * string, x.1 < length (nodes g)) (host_idxs g)) as Hall.
  { apply Forall_forall. intros x Hx.
    destruct (proj1 (Hmem x.1)) as (n & Hn & _);
      [by apply list_elem_of_fmap_2|by eapply lookup_lt_Some]. }
  clear Hmem. induction Hall as [|x l Hx _ IH]; [done|]. simpl in *.
  rewrite decide_True by done. simpl.
  destruct (mapM _ l) as [hs|]; simpl in *; [|done]. by injection IH as ->.
Qed.

Lemma get_all_hosts_spec_witness :
  ∃ hosts, get_all_hosts diamond = (Ok hosts, diamond) ∧ 3 ∈ hosts ∧ 1 ∉ hosts.
Proof.
  destruct (get_all_hosts_spec diamond) as (hosts & Hh & _ & Hmem); [by_evaluation|].
  exists hosts. split_and!; [exact Hh| |].
  - apply Hmem. exists (Node.mk "h2" "host" [Edge.mk 3 3 1; Edge.mk 7 3 2]).
    split; vm_compute; reflexivity.
  - intros (n & Hn & Hs)%Hmem.
    assert (nodes diamond !! 1
            = Some (Node.mk "s1" "switch" [Edge.mk 1 1 0; Edge.mk 2 1 3])) as Hn'
      by (vm_compute; reflexivity).
    rewrite Hn' in Hn. injection Hn as <-. discriminate Hs.
Defined.

(** X8.  When every entry of the array has a type and the names are new
    to the store and distinct from each other, [create_nodes_from_array]
    succeeds and has added the nodes in the order of the array, each without
    edges, told every observer of each of them in that order, and left the
    edges alone. *)
Theorem create_nodes_from_array_adds_all (defs : list NodeDefn) (g : Graph.t) :
  Forall (λ d, is_Some (get_type d)) defs →
  NoDup (fst <$> defs) →
  (∀ n, n ∈ (fst <$> defs) → n ∉ node_names g) →
  ∃ g', create_nodes_from_array defs g = (Ok tt, g')
    ∧ nodes g' = nodes g ++ (node_of <$> defs)
    ∧ node_names g' = node_names g ++ (fst <$> defs)
    ∧ composables g'
      = (λ c, mkComposable (received c ++ (NodeAdded ∘ fst <$> defs)))
          <$> composables g
    ∧ edges g' = edges g.
Proof.
  intros Htyped. revert g.
  induction Htyped as [|d defs [ty Hty] _ IH]; intros g Hnd Hfresh.
  - exists g. rewrite !fmap_nil, !app_nil_r. split_and!; [done..| |done].
    rewrite <- (list_fmap_id (composables g)) at 1.
    apply list_fmap_ext. intros _ [rcv] _. simpl. by rewrite app_nil_r.
  - rewrite fmap_cons in Hnd, Hfresh. apply NoDup_cons in Hnd as [Hd Hnd].
    cbn [create_nodes_from_array]. rewrite Hty.
    assert (contains d.1 (node_names g) = false) as Hc.
    { apply contains_false, Hfresh. left. }
    rewrite (bind_ok _ _ _ _ _ (add_node_fresh g d.1 ty Hc)).
    match goal with
    | |- ∃ g', create_nodes_from_array defs ?g1 = _ ∧ _ =>
        destruct (IH g1 Hnd) as (g' & -> & Hn & Hnm & Hcs & He)
    end.
    { cbn [node_names]. intros n Hn [Hin| ->%list_elem_of_singleton]%elem_of_app;
        [|done].
      apply (Hfresh n); [by right|done]. }
    cbn [nodes node_names composables edges] in *.
    exists g'. rewrite !fmap_cons. split_and!; [done| | | |done].
    + rewrite Hn, <- app_assoc. simpl. unfold node_of at 2. by rewrite Hty.
    + by rewrite Hnm, <- app_assoc.
    + rewrite Hcs, <- list_fmap_compose. apply list_fmap_ext.
      intros _ [rcv] _. simpl. by rewrite <- app_assoc.
Qed.

Lemma create_nodes_from_array_adds_all_witness :
  ∃ g', create_nodes_from_array [("s8", {["type" := Some "switch"]})] chain
          = (Ok tt, g')
        ∧ node_names g' = ["h1"; "s1"; "h2"; "s8"].
Proof.
  destruct (create_nodes_from_array_adds_all
              [("s8", {["type" := Some "switch"]})] chain)
    as (g' & Hrun & _ & Hnames & _).
  - repeat constructor. by eexists.
  - apply NoDup_singleton.
  - intros n ->%list_elem_of_singleton. by_evaluation.
  - exists g'. split; [exact Hrun|]. rewrite Hnames. vm_compute. reflexivity.
Defined.

Lemma collect_exact (n : nat) (K : Z) (acc rest : list Yen.entry) :
  (Z.of_nat (length acc) < K)%Z →
  Ecmp.collect n K acc rest
  = acc ++ take (Z.to_nat K - length acc)
             (filter (λ p, length (Yen.path_of p) = n) rest).
Proof.
  revert acc. induction rest as [|p rest IH]; intros acc Hacc;
    cbn [Ecmp.collect].
  - by rewrite filter_nil, take_nil, app_nil_r.
  - rewrite filter_cons.
    destruct (Nat.eqb_spec (length (Yen.path_of p)) n) as [Heq|Hne].
    + rewrite decide_True by done.
      destruct (Z.to_nat K - length acc) as [|k] eqn:Hk; [lia|]. simpl.
      destruct (Z.eqb_spec (Z.of_nat (length (acc ++ [p]))) K) as [HK|HK].
      * rewrite length_app in HK. simpl in HK.
        assert (k = 0) as -> by lia. by rewrite take_0.
      * rewrite length_app in HK. simpl in HK.
        rewrite IH by (rewrite length_app; simpl; lia).
        rewrite <- app_assoc, length_app. simpl. do 3 f_equal. lia.
    + rewrite decide_False by done.
      destruct (Z.eqb_spec (Z.of_nat (length acc)) K) as [HK|HK]; [lia|].
      by apply IH.
Qed.

Lemma get_ecmp_paths_take (g : Graph.t) (host_pair : nat * nat)
  (computed_paths : gmap string (list Yen.entry)) (K : Z) (a b : string)
  (all_paths : list Yen.entry) :
  node_id g host_pair.1 = Ok a → node_id g host_pair.2 = Ok b →
  computed_paths !! AllHosts.path_name a b = Some all_paths →
  all_paths ≠ [] → (1 ≤ K)%Z →
  Ecmp.get_ecmp_paths g host_pair computed_paths K
  = Ok (take (Z.to_nat K) (equal_cost all_paths)).
Proof.
  intros Ha Hb Hpaths Hne HK. unfold Ecmp.get_ecmp_paths.
  rewrite Ha, Hb. simpl. rewrite Hpaths.
  destruct all_paths as [|shortest rest]; [done|]. simpl.
  rewrite collect_exact by (simpl; lia). simpl. by rewrite Nat.sub_0_r.
Qed.

(** X9.  [get_ecmp_paths] for a pair of nodes of the store: a pair whose
    key is missing yields the empty list; a key that holds an empty list of
    paths is an [IndexError]; and for a requested count of at least one the
    result is exactly the first [K] of the paths after index 0 that are as
    long as the path at index 0, in their order. *)
Theorem get_ecmp_paths_exact (g : Graph.t) (host_pair : nat * nat)
  (computed_paths : gmap string (list Yen.entry)) (K : Z) (a b : string) :
  node_id g host_pair.1 = Ok a → node_id g host_pair.2 = Ok b →
  (computed_paths !! AllHosts.path_name a b = None →
     Ecmp.get_ecmp_paths g host_pair computed_paths K = Ok [])
  ∧ (computed_paths !! AllHosts.path_name a b = Some [] →
     Ecmp.get_ecmp_paths g host_pair computed_paths K = Raise IndexError)
  ∧ (∀ all_paths,
       computed_paths !! AllHosts.path_name a b = Some all_paths →
       all_paths ≠ [] → (1 ≤ K)%Z →
       Ecmp.get_ecmp_paths g host_pair computed_paths K
       = Ok (take (Z.to_nat K) (equal_cost all_paths))).
Proof.
  intros Ha Hb. split_and!.
  - unfold Ecmp.get_ecmp_paths. rewrite Ha, Hb. simpl. by intros ->.
  - unfold Ecmp.get_ecmp_paths. rewrite Ha, Hb. simpl. by intros ->.
  - intros all_paths Hpaths Hne HK. by apply (get_ecmp_paths_take g _ _ _ a b).
Qed.

Lemma get_ecmp_paths_exact_witness :
  Ecmp.get_ecmp_paths linked_hosts (0, 1)
    {[ "h1:h2" := [Yen.mk 1 [0; 1]; Yen.mk 3 [0; 1; 0; 1]; Yen.mk 1 [0; 1];
                   Yen.mk 1 [0; 1]] ]} 1
  = Ok [Yen.mk 1 [0; 1]]
  ∧ Ecmp.get_ecmp_paths linked_hosts (1, 0) {[ "h1:h2" := [Yen.mk 1 [0; 1]] ]} 8
    = Ok [].
Proof.
  split.
  - destruct (get_ecmp_paths_exact linked_hosts (0, 1)
      {[ "h1:h2" := [Yen.mk 1 [0; 1]; Yen.mk 3 [0; 1; 0; 1]; Yen.mk 1 [0; 1];
                     Yen.mk 1 [0; 1]] ]} 1 "h1" "h2") as (_ & _ & H);
      [vm_compute; reflexivity..|].
    erewrite H; [|vm_compute; reflexivity|done|lia]. vm_compute. reflexivity.
  - destruct (get_ecmp_paths_exact linked_hosts (1, 0)
      {[ "h1:h2" := [Yen.mk 1 [0; 1]] ]} 8 "h2" "h1") as (H & _);
      [vm_compute; reflexivity..|].
    apply H. vm_compute. reflexivity.
Defined.

End MoreFacts.

(** ** The all-pairs computation, unit by unit *)

Module AllPairsFacts.

Import Graph Spec Terms StoreFacts HeapFacts AllHostsFacts MoreFacts.

Lemma mapM_positions (n : nat) (l : list (nat * string)) (hs : list nat) :
  mapM (λ x : nat * string, if decide (x.1 < n) then Some x.1 else None) l
  = Some hs →
  hs = l.*1 ∧ Forall (λ r, r < n) hs.
Proof.
  revert hs. induction l as [|x l IH]; intros hs; simpl.
  - intros [= <-]. by split.
  - case_decide as Hx; simpl; [|done].
    destruct (mapM _ l) as [k|]; simpl; [|done].
    intros [= <-]. destruct (IH k eq_refl) as [-> Hk].
    split; [done|by constructor].
Qed.

Lemma get_all_hosts_sorted (g : Graph.t) (hosts : list nat) :
  (get_all_hosts g).1 = Ok hosts →
  StronglySorted lt hosts ∧ Forall (λ r, r < length (nodes g)) hosts.
Proof.
  unfold get_all_hosts. simpl.
  destruct (mapM _ (host_idxs g)) as [hs|] eqn:Hm; simpl; [|done].
  intros [= <-]. apply mapM_positions in Hm as [-> Hv].
  split; [apply (hosts_sorted 0)|done].
Qed.

Lemma sorted_lookup_lt (l : list nat) (i j a b : nat) :
  StronglySorted lt l → l !! i = Some a → l !! j = Some b → i < j → a < b.
Proof.
  intros Hs. revert i j. induction Hs as [|x l Hs IH Hx]; intros i j; [done|].
  destruct i as [|i], j as [|j]; simpl; try lia.
  - intros [= <-] Hb _. rewrite Forall_forall in Hx. apply Hx.
    by eapply list_elem_of_lookup_2.
  - intros Ha Hb Hij. apply (IH i j); [done..|lia].
Qed.

Lemma sorted_lookup_inj (l : list nat) (i j a : nat) :
  StronglySorted lt l → l !! i = Some a → l !! j = Some a → i = j.
Proof.
  intros Hs Hi Hj.
  destruct (Nat.lt_total i j) as [H|[H|H]]; [|done|].
  - pose proof (sorted_lookup_lt _ _ _ _ _ Hs Hi Hj H). lia.
  - pose proof (sorted_lookup_lt _ _ _ _ _ Hs Hj Hi H). lia.
Qed.

Lemma keys_apart_inj (g : Graph.t) (hosts : list nat) (a b c d : nat) :
  keys_apart g hosts → a ∈ hosts → b ∈ hosts → c ∈ hosts → d ∈ hosts →
  key g a b = key g c d → a = c ∧ b = d.
Proof.
  intros H Ha Hb Hc Hd. unfold keys_apart in H.
  rewrite Forall_forall in H. specialize (H a Ha).
  rewrite Forall_forall in H. specialize (H b Hb).
  rewrite Forall_forall in H. specialize (H c Hc).
  rewrite Forall_forall in H. by apply H.
Qed.

Lemma node_id_name (g : Graph.t) (r : nat) :
  r < length (nodes g) → node_id g r = Ok (name_of g r).
Proof.
  intros Hr. destruct (lookup_lt_is_Some_2 _ _ Hr) as [n Hn].
  unfold node_id, name_of. by rewrite Hn.
Qed.

Lemma solver_distance_total (g : Graph.t) (a b : nat) :
  wf g → a < length (nodes g) →
  ∃ dist prev, Heap.compute_dijkstra_using_heap g a = Ok (dist, prev)
               ∧ solver_distance g a b = Ok (dist_of g dist b).
Proof.
  intros Hwf Ha.
  destruct (compute_dijkstra_using_heap_total g a Hwf Ha) as (dist & prev & H & _).
  exists dist, prev. split; [done|]. unfold solver_distance. by rewrite H.
Qed.

Lemma host_valid (g : Graph.t) (hosts : list nat) (i a : nat) :
  Forall (λ r, r < length (nodes g)) hosts →
  hosts !! i = Some a → a < length (nodes g).
Proof.
  intros Hvalid Hi. rewrite Forall_forall in Hvalid. apply Hvalid.
  by eapply list_elem_of_lookup_2.
Qed.

Lemma key_positions (g : Graph.t) (hosts : list nat)
  (i j i' j' a b a' b' : nat) :
  StronglySorted lt hosts → keys_apart g hosts →
  hosts !! i = Some a → hosts !! j = Some b →
  hosts !! i' = Some a' → hosts !! j' = Some b' →
  key g a b = key g a' b' → i = i' ∧ j = j'.
Proof.
  intros Hsorted Hkeys Hi Hj Hi' Hj' Hk.
  destruct (keys_apart_inj g hosts a b a' b' Hkeys) as [-> ->];
    [by eapply list_elem_of_lookup_2..|done|].
  split; by eapply sorted_lookup_inj.
Qed.

(** The hosts of lower index: the memo has their distances. *)
Lemma earlier_hosts (g : Graph.t) (hosts : list nat) (idx host : nat)
  (memo : gmap string Z) (rems : list nat) :
  Forall (λ r, r < length (nodes g)) hosts →
  hosts !! idx = Some host → memoized g hosts idx memo →
  Forall (λ rem, ∃ j, j < idx ∧ hosts !! j = Some rem) rems →
  ∃ ds, Forall2 (λ rem d, solver_distance g rem host = Ok d) rems ds
        ∧ ∀ rest t,
            AllHosts.process_hosts g host (rems ++ rest) (t, memo)
            = AllHosts.process_hosts g host rest (t ++ ds, memo).
Proof.
  intros Hvalid Hhost Hmemo.
  induction 1 as [|rem rems (j & Hj & Hrem) _ (ds & Hds & IH)].
  - exists []. split; [constructor|]. intros rest t. by rewrite app_nil_r.
  - pose proof (Hmemo idx j host rem Hhost Hrem) as Hmiss.
    rewrite decide_False in Hmiss by lia.
    pose proof (Hmemo j idx rem host Hrem Hhost) as Hhit.
    rewrite decide_True in Hhit by lia. destruct Hhit as (d & Hd & Hsolver).
    exists (d :: ds). split; [by constructor|]. intros rest t.
    cbn [app AllHosts.process_hosts].
    rewrite (process_host_reuses g host rem (name_of g host) (name_of g rem) t memo d).
    + simpl. rewrite IH. by rewrite <- app_assoc.
    + apply node_id_name. by eapply host_valid.
    + apply node_id_name. by eapply host_valid.
    + right. done.
Qed.

(** The hosts of higher index: the solver is run and the memo grows. *)
Lemma later_hosts (g : Graph.t) (hosts : list nat) (idx host : nat)
  (rems : list nat) :
  wf g → StronglySorted lt hosts →
  Forall (λ r, r < length (nodes g)) hosts → keys_apart g hosts →
  hosts !! idx = Some host →
  ∀ upto memo t,
    drop upto hosts = rems → idx < upto → memo_at g hosts idx upto memo →
    ∃ ds memo',
      AllHosts.process_hosts g host rems (t, memo) = Ok (t ++ ds, memo')
      ∧ Forall2 (λ rem d, solver_distance g host rem = Ok d) rems ds
      ∧ memoized g hosts (S idx) memo'
      ∧ ∀ k, memo' !! k = memo !! k
             ∨ (memo !! k = None ∧ ∃ rem, rem ∈ rems ∧ k = key g host rem).
Proof.
  intros Hwf Hsorted Hvalid Hkeys Hhost.
  induction rems as [|rem rems IH]; intros upto memo t Hdrop Hupto Hmemo.
  - exists [], memo. cbn [AllHosts.process_hosts]. rewrite app_nil_r.
    split_and!; [done|constructor| |by left].
    intros i j a b Hi Hj. specialize (Hmemo i j a b Hi Hj).
    assert (length hosts ≤ upto) as Hlen.
    { destruct (decide (length hosts ≤ upto)) as [|Hn]; [done|].
      assert (length (drop upto hosts) = 0) as H0 by by rewrite Hdrop.
      rewrite length_drop in H0. lia. }
    apply lookup_lt_Some in Hj.
    repeat case_decide; try done; lia.
  - assert (hosts !! upto = Some rem) as Hrem.
    { rewrite <- (Nat.add_0_r upto), <- lookup_drop, Hdrop. done. }
    assert (drop (S upto) hosts = rems) as Hdrop'.
    { rewrite (drop_S _ _ _ Hrem) in Hdrop. by injection Hdrop. }
    pose proof (host_valid _ _ _ _ Hvalid Hhost) as Hvh.
    pose proof (host_valid _ _ _ _ Hvalid Hrem) as Hvr.
    pose proof (Hmemo idx upto host rem Hhost Hrem) as H1.
    rewrite decide_False in H1 by lia.
    pose proof (Hmemo upto idx rem host Hrem Hhost) as H2.
    rewrite decide_False in H2 by lia.
    destruct (solver_distance_total g host rem Hwf Hvh) as (dist & prev & Hrun & Hsd).
    set (d := dist_of g dist rem).
    assert (AllHosts.process_host g host rem (t, memo)
            = Ok (t ++ [d], <[key g host rem := d]> memo)) as Hstep.
    { unfold AllHosts.process_host.
      rewrite (node_id_name g host Hvh), (node_id_name g rem Hvr). simpl.
      fold (key g host rem). fold (key g rem host). rewrite H1, H2, Hrun. done. }
    destruct (IH (S upto) (<[key g host rem := d]> memo) (t ++ [d]) Hdrop'
                ltac:(lia)) as (ds & memo' & Hrest & Hds & Hm' & Hnew).
    { intros i j a b Hi Hj. specialize (Hmemo i j a b Hi Hj).
      destruct (decide (key g a b = key g host rem)) as [Hk|Hk].
      - destruct (key_positions g hosts _ _ _ _ _ _ _ _ Hsorted Hkeys Hi Hj Hhost Hrem Hk)
          as [-> ->].
        assert (a = host) as -> by congruence.
        assert (b = rem) as -> by congruence.
        rewrite decide_True by lia. exists d.
        by rewrite lookup_insert_eq.
      - rewrite lookup_insert_ne by done.
        repeat case_decide; try done; try lia.
        assert (i = idx ∧ j = upto) as [-> ->] by lia.
        destruct Hk. congruence. }
    exists (d :: ds), memo'. cbn [AllHosts.process_hosts]. rewrite Hstep. simpl.
    rewrite Hrest, <- app_assoc. split_and!; [done|by constructor|done|].
    intros k. destruct (Hnew k) as [Heq|[Hnone (r & Hr & ->)]].
    + destruct (decide (k = key g host rem)) as [->|Hne].
      * right. split; [done|]. exists rem. split; [left|done].
      * left. by rewrite Heq, lookup_insert_ne.
    + right. destruct (decide (key g host r = key g host rem)) as [Heq|Hne].
      * split; [by rewrite Heq|]. exists rem. split; [left|done].
      * rewrite lookup_insert_ne in Hnone by done. split; [done|].
        exists r. split; [by right|done].
Qed.

Lemma processInput_distances (g : Graph.t) (hosts : list nat) (idx : nat)
  (memo : gmap string Z) :
  wf g → StronglySorted lt hosts →
  Forall (λ r, r < length (nodes g)) hosts → keys_apart g hosts →
  idx < length hosts → memoized g hosts idx memo →
  ∃ host t_res memo',
    hosts !! idx = Some host
    ∧ AllHosts.processInput g hosts idx memo = Ok (t_res, memo')
    ∧ unit_distances g hosts idx t_res
    ∧ memoized g hosts (S idx) memo'
    ∧ ∀ k, memo' !! k = memo !! k
           ∨ (memo !! k = None
              ∧ ∃ rem, rem ∈ drop (S idx) hosts ∧ k = key g host rem).
Proof.
  intros Hwf Hsorted Hvalid Hkeys Hidx Hmemo.
  destruct (lookup_lt_is_Some_2 _ _ Hidx) as [host Hhost].
  unfold AllHosts.processInput. rewrite Hhost. simpl.
  destruct (earlier_hosts g hosts idx host memo (take idx hosts) Hvalid Hhost Hmemo)
    as (earlier & Hearlier & Hrun1).
  { apply Forall_forall. intros rem [j Hj]%list_elem_of_lookup.
    pose proof (lookup_lt_Some _ _ _ Hj) as Hlt. rewrite length_take in Hlt.
    rewrite lookup_take_lt in Hj by lia. exists j. split; [lia|done]. }
  destruct (later_hosts g hosts idx host (drop (S idx) hosts) Hwf Hsorted Hvalid
              Hkeys Hhost (S idx) memo ([] ++ earlier) eq_refl ltac:(lia))
    as (later & memo' & Hrun2 & Hlater & Hm' & Hnew).
  { intros i j a b Hi Hj. specialize (Hmemo i j a b Hi Hj).
    repeat case_decide; try done; lia. }
  exists host, (earlier ++ later), memo'. rewrite Hrun1, Hrun2.
  split_and!; [done|done| |done|done].
  by exists host, earlier, later.
Qed.

Lemma run_units_distances (g : Graph.t) (hosts : list nat) (k : nat) :
  wf g → StronglySorted lt hosts →
  Forall (λ r, r < length (nodes g)) hosts → keys_apart g hosts →
  ∀ idx memo, idx + k = length hosts → memoized g hosts idx memo →
    ∃ results, AllHosts.run_units g hosts (seq idx k) memo = Ok results
               ∧ Forall2 (unit_distances g hosts) (seq idx k) results.
Proof.
  intros Hwf Hsorted Hvalid Hkeys.
  induction k as [|k IH]; intros idx memo Hlen Hmemo; cbn [seq AllHosts.run_units].
  - exists []. split; [done|constructor].
  - destruct (processInput_distances g hosts idx memo Hwf Hsorted Hvalid Hkeys
                ltac:(lia) Hmemo)
      as (host & t_res & memo' & _ & -> & Hunit & Hm' & _). simpl.
    destruct (IH (S idx) memo' ltac:(lia) Hm') as (results & -> & Hall).
    simpl. exists (t_res :: results). split; [done|by constructor].
Qed.

(** C5, amended.  With the units run one after the other in index order,
    and distinct ordered pairs of hosts having distinct keys, the unit of
    work for host index [idx] runs the solver only for the hosts of higher
    index, those that no earlier unit has processed, and memoizes each of
    these distances under the key of its own host and that host: every
    unordered pair of hosts is computed by exactly one unit, that of its
    lower index.  For a host of lower index the unit reuses the distance
    that the earlier unit memoized, from that host to its own, and appends
    it to its result all the same.  So every unit yields one distance for
    every other host, and the flat result holds one contribution per
    ordered pair of hosts, [len(hosts) * (len(hosts) - 1)] entries; that
    many it holds whatever the keys are. *)
Theorem all_hosts_unit_distances (g : Graph.t) (hosts : list nat) :
  wf g → (get_all_hosts g).1 = Ok hosts →
  ∃ results,
    AllHosts.run_units g hosts (seq 0 (length hosts)) ∅ = Ok results
    ∧ AllHosts.compute_dijikstra_for_all_hosts g = Ok (concat results)
    ∧ length (concat results) = length hosts * (length hosts - 1)
    ∧ (keys_apart g hosts →
       Forall2 (unit_distances g hosts) (seq 0 (length hosts)) results
       ∧ memoized g hosts 0 ∅
       ∧ ∀ idx memo,
           idx < length hosts → memoized g hosts idx memo →
           ∃ host t_res memo',
             hosts !! idx = Some host
             ∧ AllHosts.processInput g hosts idx memo = Ok (t_res, memo')
             ∧ unit_distances g hosts idx t_res
             ∧ memoized g hosts (S idx) memo'
             ∧ ∀ k, memo' !! k = memo !! k
                    ∨ (memo !! k = None
                       ∧ ∃ rem, rem ∈ drop (S idx) hosts
                                ∧ k = key g host rem)).
Proof.
  intros Hwf Hhosts.
  destruct (get_all_hosts_sorted g hosts Hhosts) as [Hsorted Hvalid].
  destruct (run_units_total g hosts (seq 0 (length hosts)) ∅ Hwf Hvalid)
    as (results & Hrun & Hlen).
  { apply Forall_forall. intros i Hi%elem_of_seq. lia. }
  exists results. unfold AllHosts.compute_dijikstra_for_all_hosts.
  rewrite Hhosts. simpl. rewrite Hrun. simpl.
  split_and!; [done|done|by rewrite Hlen, length_seq|].
  intros Hkeys.
  assert (memoized g hosts 0 ∅) as Hstart.
  { intros i j a b _ _. rewrite decide_False by lia. apply lookup_empty. }
  split_and!; [|done|].
  - destruct (run_units_distances g hosts (length hosts) Hwf Hsorted Hvalid Hkeys
                0 ∅ eq_refl Hstart) as (results' & Hrun' & Hall).
    rewrite Hrun in Hrun'. by injection Hrun' as <-.
  - intros idx memo. by apply processInput_distances.
Qed.

Lemma all_hosts_unit_distances_witness :
  ∃ results,
    AllHosts.compute_dijikstra_for_all_hosts with_isolated_host
    = Ok (concat results)
    ∧ length (concat results) = 6
    ∧ Forall2 (unit_distances with_isolated_host [0; 1; 2]) [0; 1; 2] results.
Proof.
  destruct (all_hosts_unit_distances with_isolated_host [0; 1; 2])
    as (results & _ & Hres & Hlen & Hunits).
  - by_evaluation.
  - vm_compute. reflexivity.
  - destruct Hunits as (Hall & _); [by_evaluation|].
    exists results. split; [exact Hres|]. split; [exact Hlen|exact Hall].
Defined.

End AllPairsFacts.



(** * Centrality *)

Module CentralityFacts.

Import Graph Spec Terms StoreFacts.

(** The counts that the dictionary [m] holds are those of the nodes in
    [seen]: an id that starts with [s] and appears is mapped to its number
    of appearances, every other id is absent. *)
Local Abbreviation holds g m seen :=
  (∀ i, m !! i = if startswith i "s" && (0 <? appearances g i seen)
                 then Some (Z.of_nat (appearances g i seen)) else None).

Lemma appearances_snoc (g : Graph.t) (i : string) (seen : list nat) (r : nat) :
  appearances g i (seen ++ [r])
  = appearances g i seen
    + (if decide (Node.id <$> nodes g !! r = Some i) then 1 else 0).
Proof.
  unfold appearances. rewrite filter_app, length_app, filter_cons, filter_nil.
  by case_decide.
Qed.

Lemma count_node_holds (g : Graph.t) (m : gmap string Z) (seen : list nat)
  (r : nat) :
  holds g m seen → r < length (nodes g) →
  ∃ m', Centrality.count_node g m r = Ok m' ∧ holds g m' (seen ++ [r]).
Proof.
  intros Hm Hr. destruct (lookup_lt_is_Some_2 _ _ Hr) as [n Hn].
  unfold Centrality.count_node. rewrite (node_id_ok _ _ _ Hn). simpl.
  destruct (startswith (Node.id n) "s") eqn:Hs.
  - eexists. split; [done|]. intros i. rewrite appearances_snoc, Hn. simpl.
    destruct (decide (Node.id n = i)) as [<-|Hne].
    + rewrite lookup_insert_eq, Hs, decide_True by done. simpl.
      replace (0 <? appearances g (Node.id n) seen + 1) with true
        by (symmetry; apply Nat.ltb_lt; lia).
      f_equal. specialize (Hm (Node.id n)). rewrite Hs in Hm. simpl in Hm.
      destruct (Nat.ltb_spec 0 (appearances g (Node.id n) seen)) as [Hpos|Hzero].
      * rewrite Hm. destruct (Z.eqb_spec (Z.of_nat (appearances g (Node.id n) seen)) 0);
          lia.
      * rewrite Hm. lia.
    + rewrite lookup_insert_ne by done. rewrite decide_False by congruence.
      rewrite Nat.add_0_r. apply Hm.
  - eexists. split; [done|]. intros i. rewrite appearances_snoc, Hn. simpl.
    destruct (decide (Node.id n = i)) as [<-|Hne].
    + rewrite Hs. simpl. specialize (Hm (Node.id n)). by rewrite Hs in Hm.
    + rewrite decide_False by congruence. rewrite Nat.add_0_r. apply Hm.
Qed.

Lemma count_path_holds (g : Graph.t) (m : gmap string Z) (seen path : list nat) :
  holds g m seen → Forall (λ r, r < length (nodes g)) path →
  ∃ m', Centrality.count_path g m path = Ok m' ∧ holds g m' (seen ++ path).
Proof.
  intros Hm Hpath. revert m seen Hm.
  induction Hpath as [|r path Hr _ IH]; intros m seen Hm; simpl.
  - exists m. by rewrite app_nil_r.
  - destruct (count_node_holds g m seen r Hm Hr) as (m1 & -> & Hm1). simpl.
    destruct (IH m1 (seen ++ [r]) Hm1) as (m' & -> & Hm').
    exists m'. split; [done|]. by rewrite <- app_assoc in Hm'.
Qed.

Lemma count_paths_holds (g : Graph.t) (m : gmap string Z) (seen : list nat)
  (cp : list Yen.entry) :
  holds g m seen →
  Forall (λ r, r < length (nodes g)) (concat (Yen.path_of <$> cp)) →
  ∃ m', Centrality.count_paths g m cp = Ok m'
        ∧ holds g m' (seen ++ concat (Yen.path_of <$> cp)).
Proof.
  revert m seen. induction cp as [|p cp IH]; intros m seen Hm Hcp; simpl.
  - exists m. by rewrite app_nil_r.
  - simpl in Hcp. apply Forall_app in Hcp as [Hp Hcp].
    destruct (count_path_holds g m seen _ Hm Hp) as (m1 & -> & Hm1). simpl.
    destruct (IH m1 _ Hm1 Hcp) as (m' & -> & Hm').
    exists m'. split; [done|]. by rewrite <- app_assoc in Hm'.
Qed.

Lemma count_items_holds (g : Graph.t) (m : gmap string Z) (seen : list nat)
  (items : list (string * list Yen.entry)) :
  holds g m seen →
  Forall (λ r, r < length (nodes g)) (nodes_on_paths items) →
  ∃ m', Centrality.count_items g m items = Ok m'
        ∧ holds g m' (seen ++ nodes_on_paths items).
Proof.
  revert m seen. induction items as [|[k cp] items IH]; intros m seen Hm Hitems.
  - exists m. unfold nodes_on_paths. simpl. by rewrite app_nil_r.
  - unfold nodes_on_paths in *. cbn [fmap list_fmap concat snd] in *.
    rewrite fmap_app, concat_app in *.
    apply Forall_app in Hitems as [Hcp Hitems].
    cbn [Centrality.count_items].
    destruct (count_paths_holds g m seen cp Hm Hcp) as (m1 & -> & Hm1). simpl.
    destruct (IH m1 _ Hm1 Hitems) as (m' & -> & Hm').
    exists m'. split; [done|]. by rewrite <- app_assoc in Hm'.
Qed.

(** X10.  [calculate_centrality] over paths made of nodes of the store
    returns a dictionary that holds, for every id that starts with [s] and
    lies on some path, the number of times a node with that id appears on
    the paths, counted with repetition: a switch that a path passes twice
    counts twice.  Ids that do not start with [s], and so every host, and
    ids on no path are not in the dictionary. *)
Theorem calculate_centrality_counts (g : Graph.t)
  (computed_paths : list (string * list Yen.entry)) :
  Forall (λ r, r < length (nodes g)) (nodes_on_paths computed_paths) →
  ∃ m, Centrality.calculate_centrality g computed_paths = Ok m
    ∧ ∀ i, m !! i
           = if startswith i "s"
                && (0 <? appearances g i (nodes_on_paths computed_paths))
             then Some (Z.of_nat (appearances g i (nodes_on_paths computed_paths)))
             else None.
Proof.
  intros Hvalid. unfold Centrality.calculate_centrality.
  destruct (count_items_holds g ∅ [] computed_paths) as (m & -> & Hm); [|done|].
  - intros i. rewrite lookup_empty. unfold appearances. simpl.
    by rewrite andb_false_r.
  - by exists m.
Qed.

Lemma calculate_centrality_counts_witness :
  ∃ m, Centrality.calculate_centrality diamond
         [("h1:h2", [Yen.mk 2 [0; 2; 3]; Yen.mk 4 [0; 2; 0; 2; 3]])] = Ok m
       ∧ m !! "s2" = Some 3%Z ∧ m !! "h1" = None ∧ m !! "s1" = None.
Proof.
  destruct (calculate_centrality_counts diamond
              [("h1:h2", [Yen.mk 2 [0; 2; 3]; Yen.mk 4 [0; 2; 0; 2; 3]])])
    as (m & Hm & Hcount).
  - apply Forall_forall. intros r Hr.
    assert (length (nodes diamond) = 4) as -> by (vm_compute; reflexivity).
    vm_compute in Hr. repeat (apply elem_of_cons in Hr as [->|Hr]; [lia|]).
    by apply elem_of_nil in Hr.
  - exists m. split; [exact Hm|]. rewrite !Hcount.
    split_and!; vm_compute; reflexivity.
Defined.

End CentralityFacts.

(** * More on Yen's k shortest paths *)

Module KspMore.

Import Graph Spec Terms StoreFacts HeapFacts YenFacts.

(** What a run of [compute_yen_ksp] keeps of the store. *)
Local Abbreviation kept g g' :=
  (wf g' ∧ node_names g' = node_names g
   ∧ adjacency_matrix g' = adjacency_matrix g
   ∧ edges g `prefix_of` edges g'
   ∧ ∀ u v, links g u v ≤ links g' u v).

Lemma kept_refl (g : Graph.t) : wf g → kept g g.
Proof. intros Hwf. split_and!; [done..|]. intros u v. lia. Qed.

Lemma kept_trans (g1 g2 g3 : Graph.t) : kept g1 g2 → kept g2 g3 → kept g1 g3.
Proof.
  intros (_ & Hn1 & Ha1 & He1 & Hl1) (Hwf & Hn2 & Ha2 & He2 & Hl2).
  split_and!; [done|congruence|congruence|by etrans|].
  intros u v. specialize (Hl1 u v). specialize (Hl2 u v). lia.
Qed.

Lemma remove_shared_frame (i : nat) (path_root : list nat) (A : list Yen.entry)
  (acc l : list (nat * nat)) (g g1 : Graph.t) :
  wf g → Yen.remove_shared i path_root A acc g = (Ok l, g1) →
  node_names g1 = node_names g ∧ adjacency_matrix g1 = adjacency_matrix g
  ∧ edges g1 = edges g.
Proof.
  revert acc g. induction A as [|path_k A IH]; intros acc g Hwf; simpl.
  - by intros [= <- <-].
  - destruct (bool_decide _ && bool_decide _); [|by apply IH].
    intros (u & g' & [Hu ->]%lift_ok_inv & H)%bind_ok_inv.
    apply bind_ok_inv in H as (v & g' & [Hv ->]%lift_ok_inv & H).
    apply bind_ok_inv in H as ([] & g2 & Hrem & H).
    destruct (remove_edge_ok_inv g g2 u v Hwf Hrem) as (nu & nv & Hnu & Hnv & ->).
    apply IH in H; [|by apply wf_removed]. done.
Qed.

Lemma restore_frame (l : list (nat * nat)) (g1 g2 : Graph.t) :
  wf g1 → Yen.restore l g1 = (Ok tt, g2) →
  node_names g2 = node_names g1 ∧ adjacency_matrix g2 = adjacency_matrix g1
  ∧ edges g1 `prefix_of` edges g2.
Proof.
  revert g1. induction l as [|[u v] l IH]; intros g1 Hwf; simpl.
  - by intros [= <-].
  - intros (g' & ? & [= <- <-] & H)%bind_ok_inv.
    apply bind_ok_inv in H as (uid & g' & [Hu ->]%lift_ok_inv & H).
    apply bind_ok_inv in H as (vid & g' & [Hv ->]%lift_ok_inv & H).
    apply bind_ok_inv in H as ([] & g' & Hadd & H).
    apply node_id_ok_inv in Hu as (nu & Hnu & <-).
    apply node_id_ok_inv in Hv as (nv & Hnv & <-).
    pose proof (lookup_lt_Some _ _ _ Hnu) as Hlu.
    pose proof (lookup_lt_Some _ _ _ Hnv) as Hlv.
    rewrite (add_edge_by_index g1 _ _ u v) in Hadd
      by (done || by apply wf_index).
    injection Hadd as <-.
    apply IH in H as (Hn & Ha & He); [|by apply wf_added].
    split_and!; [done..|]. etrans; [|exact He]. by apply prefix_app_r.
Qed.

Lemma path_loop_shape (g : Graph.t) (prev : gmap nat nat) (node_start : nat)
  (turns curr : nat) (route r : list nat) :
  Yen.path_loop turns g prev node_start curr route = Ok r →
  ∃ tail, r = route ++ curr :: tail.
Proof.
  revert curr route. induction turns as [|turns IH]; intros curr route; simpl;
    [done|].
  destruct (prev !! curr) as [p|].
  - destruct (node_id g p); simpl; [|done].
    destruct (node_id g node_start); simpl; [|done].
    destruct (String.eqb _ _).
    + intros [= <-]. exists [node_start]. by rewrite <- app_assoc.
    + intros [tail ->]%IH. exists (p :: tail). by rewrite <- app_assoc.
  - intros [= <-]. by exists [].
Qed.

Lemma path_ends_at_node_end (g : Graph.t) (prev : gmap nat nat)
  (node_start node_end : nat) (r : list nat) :
  Yen.path g prev node_start node_end = Ok r → last r = Some node_end.
Proof.
  unfold Yen.path.
  destruct (Yen.path_loop _ _ _ _ _ _) as [r'|] eqn:Hr; simpl; [|done].
  intros [= <-]. apply path_loop_shape in Hr as [tail ->]. simpl.
  by rewrite reverse_cons, last_snoc.
Qed.

Lemma last_app_nonempty {A} (l1 l2 : list A) (x : A) :
  last l2 = Some x → last (l1 ++ l2) = Some x.
Proof.
  intros H. destruct l2 as [|y l2] using rev_ind; [done|].
  rewrite last_snoc in H. injection H as ->. by rewrite app_assoc, last_snoc.
Qed.

Lemma spur_step_keeps (g g' : Graph.t) (distances : gmap string Z)
  (node_end : nat) (A B B' : list Yen.entry) (i : nat) :
  wf g → Yen.spur_step distances node_end A B i g = (Ok B', g') →
  kept g g'
  ∧ (Forall (λ en, last (Yen.path_of en) = Some node_end) B →
     Forall (λ en, last (Yen.path_of en) = Some node_end) B').
Proof.
  intros Hwf H. unfold Yen.spur_step in H.
  apply bind_ok_inv in H as (current & ? & [_ ->]%lift_ok_inv & H).
  apply bind_ok_inv in H as (node_spur & ? & [_ ->]%lift_ok_inv & H).
  apply bind_ok_inv in H as (l & g1 & Hrem & H).
  apply bind_ok_inv in H as (? & ? & [= <- <-] & H).
  apply bind_ok_inv in H as (solved & ? & [_ ->]%lift_ok_inv & H).
  apply bind_ok_inv in H as (spur & ? & [Hspur ->]%lift_ok_inv & H).
  apply bind_ok_inv in H as (sid & ? & [_ ->]%lift_ok_inv & H).
  apply bind_ok_inv in H as (eid & ? & [_ ->]%lift_ok_inv & H).
  apply bind_ok_inv in H as ([] & g2 & Hres & [= <- <-]).
  destruct (remove_shared_inv _ _ _ _ _ _ _ Hwf Hrem)
    as (l' & Hl & Hwf1 & Hlen1 & _ & Hlinks1).
  simpl in Hl. subst l'.
  destruct (remove_shared_frame _ _ _ _ _ _ _ Hwf Hrem) as (Hn1 & Ha1 & He1).
  destruct (restore_inv _ _ _ Hwf1 Hres) as (Hwf2 & Hlen2 & Hlinks2).
  destruct (restore_frame _ _ _ Hwf1 Hres) as (Hn2 & Ha2 & He2).
  split.
  - split_and!; [done|congruence|congruence|by rewrite <- He1|].
    intros u v. specialize (Hlinks1 u v). specialize (Hlinks2 u v). lia.
  - intros HB. destruct (Yen.mem _ B); [done|].
    apply Forall_app. split; [done|]. apply Forall_singleton. simpl.
    apply last_app_nonempty. by eapply path_ends_at_node_end.
Qed.

Lemma spur_steps_keeps (g g' : Graph.t) (distances : gmap string Z)
  (node_end : nat) (A B B' : list Yen.entry) (positions : list nat) :
  wf g → Yen.spur_steps distances node_end A B positions g = (Ok B', g') →
  kept g g'
  ∧ (Forall (λ en, last (Yen.path_of en) = Some node_end) B →
     Forall (λ en, last (Yen.path_of en) = Some node_end) B').
Proof.
  revert g B. induction positions as [|i positions IH]; intros g B Hwf; simpl.
  - intros [= <- <-]. split; [by apply kept_refl|done].
  - intros (B1 & g1 & Hstep & H)%bind_ok_inv.
    destruct (spur_step_keeps _ _ _ _ _ _ _ _ Hwf Hstep) as [Hk1 HB1].
    destruct (IH g1 B1 (proj1 Hk1) H) as [Hk2 HB2].
    split; [by eapply kept_trans|auto].
Qed.

Lemma Forall_insert_by_cost (P : Yen.entry → Prop) (e : Yen.entry)
  (l : list Yen.entry) :
  P e → Forall P l → Forall P (Yen.insert_by_cost e l).
Proof.
  intros He. induction 1 as [|x l Hx Hl IH]; simpl.
  - by constructor.
  - destruct (Z.leb _ _); repeat constructor; done.
Qed.

Lemma Forall_sorted (P : Yen.entry → Prop) (B : list Yen.entry) :
  Forall P B → Forall P (Yen.sorted B).
Proof.
  induction 1 as [|x l Hx Hl IH]; simpl; [constructor|].
  by apply Forall_insert_by_cost.
Qed.

Lemma ksp_loop_keeps (rounds : nat) (g g' : Graph.t) (distances : gmap string Z)
  (node_end : nat) (A B A' : list Yen.entry) :
  wf g → Yen.ksp_loop rounds distances node_end A B g = (Ok A', g') →
  Forall (λ en, last (Yen.path_of en) = Some node_end) B →
  kept g g'
  ∧ ∃ l, A' = A ++ l ∧ length l ≤ rounds
         ∧ Forall (λ en, last (Yen.path_of en) = Some node_end) l.
Proof.
  revert g A B. induction rounds as [|rounds IH]; intros g A B Hwf; simpl.
  - intros [= <- <-] _. split; [by apply kept_refl|].
    exists []. rewrite app_nil_r. split_and!; [done|simpl; lia|constructor].
  - intros H HB.
    apply bind_ok_inv in H as (current & ? & [_ ->]%lift_ok_inv & H).
    apply bind_ok_inv in H as (B1 & g1 & Hsteps & H).
    destruct (spur_steps_keeps _ _ _ _ _ _ _ _ Hwf Hsteps) as [Hk1 HB1].
    specialize (HB1 HB).
    destruct B1 as [|b B1].
    { injection H as <- <-. split; [done|].
      exists []. rewrite app_nil_r. split_and!; [done|simpl; lia|constructor]. }
    pose proof (Forall_sorted _ _ HB1) as Hsorted.
    destruct (Yen.sorted (b :: B1)) as [|b0 B0]; [done|].
    apply Forall_cons in Hsorted as [Hb0 HB0].
    destruct (IH g1 _ _ (proj1 Hk1) H HB0) as (Hk2 & l & -> & Hlen & Hl).
    split; [by eapply kept_trans|].
    exists (b0 :: l). rewrite <- app_assoc. split_and!; [done|simpl; lia|].
    by constructor.
Qed.

(** X11.  What [compute_yen_ksp] returns on a well-formed store.  The first
    entry of [A] is the route that [path] reads off the solver's
    predecessors, with the solver's distance to the destination as cost;
    [A] holds at least that entry and at most [max_k] entries (one, when
    [max_k] is below one); and every path of [A] ends at the
    destination. *)
Theorem compute_yen_ksp_result (g g' : Graph.t) (node_start node_end : nat)
  (max_k : Z) (A : list Yen.entry) :
  wf g → Yen.compute_yen_ksp node_start node_end max_k g = (Ok A, g') →
  ∃ dist prev eid p,
    Heap.compute_dijkstra_using_heap g node_start = Ok (dist, prev)
    ∧ node_id g node_end = Ok eid
    ∧ Yen.path g prev node_start node_end = Ok p
    ∧ A !! 0 = Some (Yen.mk (Heap.dget dist eid) p)
    ∧ 1 ≤ length A ≤ max 1 (Z.to_nat max_k)
    ∧ Forall (λ en, last (Yen.path_of en) = Some node_end) A.
Proof.
  intros Hwf H. unfold Yen.compute_yen_ksp in H.
  apply bind_ok_inv in H as (? & ? & [= <- <-] & H).
  apply bind_ok_inv in H as ([dist prev] & ? & [Hsolved ->]%lift_ok_inv & H).
  apply bind_ok_inv in H as (eid & ? & [Heid ->]%lift_ok_inv & H).
  apply bind_ok_inv in H as (p & ? & [Hp ->]%lift_ok_inv & H).
  cbn [fst snd] in *. exists dist, prev, eid, p.
  pose proof (path_ends_at_node_end _ _ _ _ _ Hp) as Hlast.
  assert (∃ l, A = Yen.mk (Heap.dget dist eid) p :: l
               ∧ length l ≤ Z.to_nat (max_k - 1)
               ∧ Forall (λ en, last (Yen.path_of en) = Some node_end) l)
    as (l & -> & Hlen & Hl).
  { destruct p as [|x p]; [done|].
    apply ksp_loop_keeps in H as (_ & l & -> & ? & ?); [|done|constructor].
    by exists l. }
  split_and!; [done|done|done|done|simpl; lia|simpl; lia|by constructor].
Qed.

Lemma compute_yen_ksp_result_witness :
  ∃ A g', Yen.compute_yen_ksp 0 3 2 diamond = (Ok A, g')
          ∧ A !! 0 = Some (Yen.mk 2 [0; 2; 3]) ∧ length A ≤ 2.
Proof.
  set (r := Yen.compute_yen_ksp 0 3 2 diamond).
  assert (r.1 = Ok [Yen.mk 2 [0; 2; 3]; Yen.mk 2 [0; 1; 3]]) as Hr
    by (vm_compute; reflexivity).
  exists [Yen.mk 2 [0; 2; 3]; Yen.mk 2 [0; 1; 3]], r.2.
  assert (Yen.compute_yen_ksp 0 3 2 diamond
          = (Ok [Yen.mk 2 [0; 2; 3]; Yen.mk 2 [0; 1; 3]], r.2)) as Hrun.
  { fold r. rewrite <- Hr. by destruct r. }
  split; [exact Hrun|].
  destruct (compute_yen_ksp_result diamond r.2 0 3 2 _ ltac:(by_evaluation) Hrun)
    as (dist & prev & eid & p & _ & _ & _ & H0 & [_ Hlen] & _).
  split; [reflexivity|exact Hlen].
Defined.

(** X12.  What a run of [compute_yen_ksp] that returns leaves of the store:
    it is well formed, has the same nodes under the same names and the same
    cached matrix, its edge list starts with the edges it had, and no node
    has fewer edge objects towards any other node than before; a run for
    [max_k] below two changes nothing at all. *)
Theorem compute_yen_ksp_store (g g' : Graph.t) (node_start node_end : nat)
  (max_k : Z) (A : list Yen.entry) :
  wf g → Yen.compute_yen_ksp node_start node_end max_k g = (Ok A, g') →
  wf g' ∧ node_names g' = node_names g
  ∧ adjacency_matrix g' = adjacency_matrix g
  ∧ edges g `prefix_of` edges g'
  ∧ (∀ u v, links g u v ≤ links g' u v)
  ∧ ((max_k < 2)%Z → g' = g).
Proof.
  intros Hwf H. unfold Yen.compute_yen_ksp in H.
  apply bind_ok_inv in H as (? & ? & [= <- <-] & H).
  apply bind_ok_inv in H as ([dist prev] & ? & [Hsolved ->]%lift_ok_inv & H).
  apply bind_ok_inv in H as (eid & ? & [Heid ->]%lift_ok_inv & H).
  apply bind_ok_inv in H as (p & ? & [Hp ->]%lift_ok_inv & H).
  cbn [fst snd] in *. destruct p as [|x p].
  { injection H as <- <-. split_and!; [done..| |done]. intros u v. lia. }
  pose proof H as H'.
  apply ksp_loop_keeps in H as ((? & ? & ? & ? & ?) & _); [|done|constructor].
  split_and!; [done..|].
  intros Hk. replace (Z.to_nat (max_k - 1)) with 0 in H' by lia.
  simpl in H'. by injection H' as _ <-.
Qed.

Lemma compute_yen_ksp_store_witness :
  ∃ A g', Yen.compute_yen_ksp 0 2 2 chain = (Ok A, g')
          ∧ wf g' ∧ 0 < links g' 1 2.
Proof.
  set (r := Yen.compute_yen_ksp 0 2 2 chain).
  assert (is_Some (match r.1 with Ok A => Some A | Raise _ => None end)) as [A HA]
    by (vm_compute; by eexists).
  assert (Yen.compute_yen_ksp 0 2 2 chain = (Ok A, r.2)) as Hrun.
  { fold r. destruct r as [[A'|] g']; simpl in *; [|done]. by injection HA as ->. }
  exists A, r.2. split; [exact Hrun|].
  destruct (compute_yen_ksp_store chain r.2 0 2 2 A ltac:(by_evaluation) Hrun)
    as (Hwf & _ & _ & _ & Hlinks & _).
  split; [exact Hwf|].
  eapply Nat.lt_le_trans; [|apply Hlinks]. by_evaluation.
Defined.

End KspMore.

(** * The pipeline over permutation pairs *)

(** ** Calls on the nodes of another store *)

Module DetachedFacts.

Import Graph Spec Terms StoreFacts HeapFacts YenFacts KspFacts MoreFacts KspMore.

Lemma remove_edge_via_original (p : Detached.t) (a b : nat) :
  Detached.remove_edge a b p =
  match Graph.remove_edge a b (Detached.original p) with
  | (Ok _, g') =>
      (Ok tt,
       Detached.mk
         (set_composables (composables (Detached.original p)) g')
         (notify (EdgeRemoved
                    (default "" (Node.id <$> nodes (Detached.original p) !! a))
                    (default "" (Node.id <$> nodes (Detached.original p) !! b)))
                 (Detached.copy p)).2)
  | (Raise e, _) => (Raise e, p)
  end.
Proof.
  destruct p as [g c]. unfold Detached.remove_edge, Graph.remove_edge.
  unfold Detached.bind, Graph.bind, Detached.on_original, Detached.on_copy,
    Detached.lift, Graph.lift, Detached.get, Graph.get, node, Detached.ret, Graph.ret.
  cbn [Detached.original Detached.copy].
  destruct (nodes g !! a) as [na|]; cbn [of_option]; [|done].
  destruct (nodes g !! b) as [nb|]; cbn [of_option]; [|done].
  destruct (find_edge g (Node.id na) (Node.id nb) (Node.edges na)) as [[e|]|];
    [| |done].
  - destruct (Node.remove_edge e na) as [na'|]; [|done].
    cbn. by destruct g.
  - cbn. by destruct g.
Qed.

Lemma dbind_ok_inv {A B} (m : Detached.M A) (k : A → Detached.M B)
  (p p' : Detached.t) (b : B) :
  Detached.bind m k p = (Ok b, p') → ∃ a p1, m p = (Ok a, p1) ∧ k a p1 = (Ok b, p').
Proof.
  unfold Detached.bind. destruct (m p) as [[a|e] p1]; [|done]. by exists a, p1.
Qed.

Lemma dlift_ok_inv {A} (r : Result A) (p p' : Detached.t) (a : A) :
  Detached.lift r p = (Ok a, p') → r = Ok a ∧ p' = p.
Proof. unfold Detached.lift. by intros [= -> ->]. Qed.

Lemma worn_refl (g : Graph.t) : wf g → worn g g.
Proof. intros Hwf. split_and!; [done|by destruct g|done|]. intros u v. lia. Qed.

Lemma worn_trans (g1 g2 g3 : Graph.t) : worn g1 g2 → worn g2 g3 → worn g1 g3.
Proof.
  intros (_ & E1 & I1 & L1) (Hwf & E2 & I2 & L2).
  split_and!; [done| |congruence|].
  - rewrite E2 at 1. rewrite E1. done.
  - intros u v. specialize (L1 u v). specialize (L2 u v). lia.
Qed.

Lemma worn_node_id (g g' : Graph.t) (r : nat) :
  worn g g' → node_id g' r = node_id g r.
Proof.
  intros (_ & _ & Hid & _). unfold node_id.
  by rewrite <- !list_lookup_fmap, Hid.
Qed.

Lemma worn_length (g g' : Graph.t) :
  worn g g' → length (nodes g') = length (nodes g).
Proof.
  intros (_ & _ & Hid & _).
  by rewrite <- (length_fmap Node.id (nodes g')), Hid, length_fmap.
Qed.

Lemma links_unlinked (g : Graph.t) (a b u v : nat) :
  links (unlinked a b g) u v
  = if decide (a = u ∧ b = v) then pred (links g u v) else links g u v.
Proof.
  change (links (unlinked a b g) u v) with (links (removed a b "" "" g) u v).
  unfold links. rewrite edges_of_removed.
  case_decide as Hu.
  - subst u. rewrite StoreMore.links_drop_first_to_exact.
    repeat case_decide; intuition congruence.
  - rewrite decide_False by tauto. done.
Qed.

Lemma worn_unlinked (g : Graph.t) (a b : nat) : wf g → worn g (unlinked a b g).
Proof.
  intros Hwf. pose proof (wf_removed g a b "" "" Hwf) as Hwf'.
  split_and!; [done|done| |].
  - destruct Hwf as [Hn _]. destruct Hwf' as [Hn' _]. simpl in Hn'.
    change (nodes (unlinked a b g)) with (alter (without_edge b) a (nodes g)).
    congruence.
  - intros u v. rewrite links_unlinked. case_decide; lia.
Qed.

Lemma remove_edge_original (p p' : Detached.t) (u v : nat) :
  wf (Detached.original p) → Detached.remove_edge u v p = (Ok tt, p') →
  u < length (nodes (Detached.original p))
  ∧ v < length (nodes (Detached.original p))
  ∧ Detached.original p' = unlinked u v (Detached.original p).
Proof.
  intros Hwf. rewrite remove_edge_via_original.
  destruct (StoreMore.remove_edge_outcome _ u v Hwf)
    as [[-> _]|(nu & nv & Hu & Hv & ->)]; [done|].
  intros [= <-]. cbn [Detached.original].
  split_and!; [by eapply lookup_lt_Some|by eapply lookup_lt_Some|done].
Qed.

Lemma remove_shared_original (i : nat) (path_root : list nat)
  (A : list Yen.entry) (acc l : list (nat * nat)) (p p1 : Detached.t) :
  wf (Detached.original p) →
  Detached.remove_shared i path_root A acc p = (Ok l, p1) →
  worn (Detached.original p) (Detached.original p1)
  ∧ ∃ l', l = acc ++ l'
      ∧ (∀ u v, (u, v) ∈ l' → 0 < links (Detached.original p) u v →
           links (Detached.original p1) u v < links (Detached.original p) u v)
      ∧ (∀ path_k u v,
           path_k ∈ A → path_root = take (S i) (Yen.path_of path_k) →
           Yen.path_of path_k !! i = Some u →
           Yen.path_of path_k !! S i = Some v → (u, v) ∈ l').
Proof.
  revert acc p. induction A as [|path_k A IH]; intros acc p Hwf;
    cbn [Detached.remove_shared].
  - intros [= <- <-]. split; [by apply worn_refl|].
    exists []. rewrite app_nil_r. split_and!; [done| |].
    + intros u v Hin. by apply elem_of_nil in Hin.
    + intros path_k u v Hin. by apply elem_of_nil in Hin.
  - destruct (bool_decide (i < length (Yen.path_of path_k))) eqn:Hlen;
      [destruct (bool_decide (path_root = take (S i) (Yen.path_of path_k)))
         eqn:Hroot|]; cbn [andb].
    + intros (u & ? & [Hu ->]%dlift_ok_inv & H)%dbind_ok_inv.
      apply dbind_ok_inv in H as (v & ? & [Hv ->]%dlift_ok_inv & H).
      apply dbind_ok_inv in H as ([] & p0 & Hrem & H).
      destruct (remove_edge_original _ _ _ _ Hwf Hrem) as (Hlu & Hlv & Ho).
      pose proof (worn_unlinked _ u v Hwf) as Hw0. rewrite <- Ho in Hw0.
      destruct (IH _ _ (proj1 Hw0) H) as (Hw1 & l' & -> & Hl' & Hcov).
      split; [by eapply worn_trans|].
      exists ((u, v) :: l'). split_and!; [by rewrite <- app_assoc| |].
      * intros a b Hin Hpos.
        destruct Hw1 as (_ & _ & _ & Hle1). specialize (Hle1 a b).
        destruct Hw0 as (_ & _ & _ & Hle0). specialize (Hle0 a b).
        apply elem_of_cons in Hin as [[= -> ->]|Hin].
        -- rewrite Ho, links_unlinked, decide_True in Hle1 by done. lia.
        -- destruct (decide (0 < links (Detached.original p0) a b)) as [Hp|Hp];
             [specialize (Hl' a b Hin Hp)|]; lia.
      * intros x a b [->|Hin]%elem_of_cons Hx Ha Hb.
        -- destruct (Yen.path_of path_k !! i); [|done].
           destruct (Yen.path_of path_k !! S i); [|done].
           injection Hu as <-. injection Hv as <-.
           injection Ha as <-. injection Hb as <-. left.
        -- right. by eapply Hcov.
    + intros H. destruct (IH _ _ Hwf H) as (Hw1 & l' & -> & Hl' & Hcov).
      split; [done|]. exists l'. split_and!; [done..|].
      intros x a b [->|Hin]%elem_of_cons Hx Ha Hb; [|by eapply Hcov].
      apply bool_decide_eq_false in Hroot. done.
    + intros H. destruct (IH _ _ Hwf H) as (Hw1 & l' & -> & Hl' & Hcov).
      split; [done|]. exists l'. split_and!; [done..|].
      intros x a b [->|Hin]%elem_of_cons Hx Ha Hb; [|by eapply Hcov].
      apply bool_decide_eq_false in Hlen. apply lookup_lt_Some in Ha. done.
Qed.

Lemma restore_original (l : list (nat * nat)) (p p' : Detached.t) :
  Detached.restore l p = (Ok tt, p') →
  Detached.original p' = Detached.original p.
Proof.
  revert p. induction l as [|[u v] l IH]; intros p; cbn [Detached.restore].
  - by intros [= <-].
  - intros (? & ? & [= <- <-] & H)%dbind_ok_inv.
    apply dbind_ok_inv in H as (uid & ? & [_ ->]%dlift_ok_inv & H).
    apply dbind_ok_inv in H as (vid & ? & [_ ->]%dlift_ok_inv & H).
    apply dbind_ok_inv in H as ([] & p0 & Hadd & H).
    apply IH in H. rewrite H. unfold Detached.on_copy in Hadd.
    destruct (add_edge uid vid (Detached.copy p)) as [r c].
    by injection Hadd as _ <-.
Qed.

Lemma spur_step_original (p p' : Detached.t) (distances : gmap string Z)
  (node_end : nat) (A B B' : list Yen.entry) (i : nat) :
  wf (Detached.original p) →
  Detached.spur_step distances node_end A B i p = (Ok B', p') →
  worn (Detached.original p) (Detached.original p')
  ∧ ∀ current u v,
      last A = Some current →
      Yen.path_of current !! i = Some u → Yen.path_of current !! S i = Some v →
      0 < links (Detached.original p) u v →
      links (Detached.original p') u v < links (Detached.original p) u v.
Proof.
  intros Hwf H. unfold Detached.spur_step in H.
  apply dbind_ok_inv in H as (current & ? & [Hlast ->]%dlift_ok_inv & H).
  apply dbind_ok_inv in H as (node_spur & ? & [_ ->]%dlift_ok_inv & H).
  apply dbind_ok_inv in H as (l & p1 & Hrem & H).
  apply dbind_ok_inv in H as (? & ? & [= <- <-] & H).
  apply dbind_ok_inv in H as (solved & ? & [_ ->]%dlift_ok_inv & H).
  apply dbind_ok_inv in H as (spur & ? & [_ ->]%dlift_ok_inv & H).
  apply dbind_ok_inv in H as (sid & ? & [_ ->]%dlift_ok_inv & H).
  apply dbind_ok_inv in H as (eid & ? & [_ ->]%dlift_ok_inv & H).
  apply dbind_ok_inv in H as ([] & p2 & Hres & [= <- <-]).
  apply restore_original in Hres. rewrite Hres.
  destruct (remove_shared_original _ _ _ _ _ _ _ Hwf Hrem)
    as (Hw & l' & _ & Hl' & Hcov).
  split; [done|]. intros c u v Hc Hu Hv. apply Hl'.
  destruct (last A) as [c'|] eqn:HA; [|done]. injection Hc as ->.
  injection Hlast as ->.
  apply (Hcov current); [|done..].
  apply last_Some in HA as [A' ->]. apply elem_of_app. right. left.
Qed.

Lemma spur_steps_original (p p' : Detached.t) (distances : gmap string Z)
  (node_end : nat) (A B B' : list Yen.entry) (positions : list nat) :
  wf (Detached.original p) →
  Detached.spur_steps distances node_end A B positions p = (Ok B', p') →
  worn (Detached.original p) (Detached.original p').
Proof.
  revert p B. induction positions as [|i positions IH]; intros p B Hwf;
    cbn [Detached.spur_steps].
  - intros [= <- <-]. by apply worn_refl.
  - intros (B1 & p1 & Hstep & H)%dbind_ok_inv.
    destruct (spur_step_original _ _ _ _ _ _ _ _ Hwf Hstep) as [Hw1 _].
    eapply worn_trans; [done|]. eapply IH; [|done]. apply Hw1.
Qed.

Lemma ksp_loop_original (rounds : nat) (p p' : Detached.t)
  (distances : gmap string Z) (node_end : nat) (A B A' : list Yen.entry) :
  wf (Detached.original p) →
  Detached.ksp_loop rounds distances node_end A B p = (Ok A', p') →
  worn (Detached.original p) (Detached.original p')
  ∧ ∃ l, A' = A ++ l ∧ length l ≤ rounds.
Proof.
  revert p A B. induction rounds as [|rounds IH]; intros p A B Hwf;
    cbn [Detached.ksp_loop].
  - intros [= <- <-]. split; [by apply worn_refl|].
    exists []. by rewrite app_nil_r.
  - intros H.
    apply dbind_ok_inv in H as (current & ? & [_ ->]%dlift_ok_inv & H).
    apply dbind_ok_inv in H as (B1 & p1 & Hsteps & H).
    pose proof (spur_steps_original _ _ _ _ _ _ _ _ Hwf Hsteps) as Hw1.
    destruct B1 as [|b B1].
    { injection H as <- <-. split; [done|].
      exists []. rewrite app_nil_r. split; [done|simpl; lia]. }
    destruct (Yen.sorted (b :: B1)) as [|b0 B0]; [done|].
    destruct (IH _ _ _ (proj1 Hw1) H) as (Hw2 & l & -> & Hlen).
    split; [by eapply worn_trans|].
    exists (b0 :: l). rewrite <- app_assoc. split; [done|simpl; lia].
Qed.

Lemma compute_yen_ksp_original (p p' : Detached.t) (node_start node_end : nat)
  (max_k : Z) (A : list Yen.entry) :
  wf (Detached.original p) →
  Detached.compute_yen_ksp node_start node_end max_k p = (Ok A, p') →
  worn (Detached.original p) (Detached.original p')
  ∧ ∃ solved route l,
      Heap.compute_dijkstra_using_heap (Detached.original p) node_start
      = Ok solved
      ∧ Yen.path (Detached.original p) solved.2 node_start node_end = Ok route
      ∧ A = Yen.mk (dist_of (Detached.original p) solved.1 node_end) route :: l
      ∧ (Z.of_nat (length l) ≤ Z.max 0 (max_k - 1))%Z.
Proof.
  intros Hwf H. unfold Detached.compute_yen_ksp in H.
  apply dbind_ok_inv in H as (? & ? & [= <- <-] & H).
  apply dbind_ok_inv in H as (solved & ? & [Hs ->]%dlift_ok_inv & H).
  apply dbind_ok_inv in H as (eid & ? & [He ->]%dlift_ok_inv & H).
  apply dbind_ok_inv in H as (route & ? & [Hp ->]%dlift_ok_inv & H).
  assert (Heap.dget solved.1 eid = dist_of (Detached.original p) solved.1 node_end)
    as Hd.
  { unfold dist_of. apply node_id_ok_inv in He as (n & -> & <-). done. }
  rewrite Hd in H.
  destruct route as [|x route].
  - injection H as <- <-. split; [by apply worn_refl|].
    exists solved, [], []. split_and!; [done..|simpl; lia].
  - apply ksp_loop_original in H as (Hw & l & -> & Hlen); [|done].
    split; [done|]. exists solved, (x :: route), l.
    split_and!; [done..|]. lia.
Qed.

(** *** What a call reads of the copy *)

Lemma respects_ret {A} (a : A) : respects (Detached.ret a).
Proof. by intros p q H. Qed.

Lemma respects_lift {A} (r : Result A) : respects (Detached.lift r).
Proof. by intros p q H. Qed.

Lemma respects_bind {A B} (m : Detached.M A) (k : A → Detached.M B) :
  respects m → (∀ a, respects (k a)) → respects (Detached.bind m k).
Proof.
  intros Hm Hk p q H. unfold Detached.bind.
  destruct (Hm p q H) as [E1 A1].
  destruct (m p) as [[a|e] p1], (m q) as [[a'|e'] q1]; simpl in *;
    try discriminate.
  - injection E1 as <-. by apply Hk.
  - injection E1 as <-. by split.
Qed.

Lemma respects_get_bind {B} (k : Detached.t → Detached.M B) :
  (∀ p0 q0, Detached.original p0 = Detached.original q0 →
            alike_runs (k p0) (k q0)) →
  respects (Detached.bind Detached.get k).
Proof.
  intros Hk p q H. unfold Detached.bind, Detached.get. apply Hk; [apply H|done].
Qed.

Lemma respects_on_original {A} (m : Graph.M A) : respects (Detached.on_original m).
Proof.
  intros p q (Ho & Hn & Hl). unfold Detached.on_original. rewrite Ho.
  destruct (m (Detached.original q)) as [r g']. by split.
Qed.

Lemma respects_notify (ev : Event) : respects (Detached.on_copy (notify ev)).
Proof. intros p q (Ho & Hn & Hl). by split. Qed.

Lemma add_edge_cases (c : Graph.t) (n1 n2 : string) :
  add_edge n1 n2 c =
  match index n1 (node_names c) with
  | None => (Raise ValueError, c)
  | Some a =>
      if decide (a < length (nodes c)) then
        match index n2 (node_names c) with
        | None => (Raise ValueError, c)
        | Some b =>
            if decide (b < length (nodes c)) then (Ok tt, added a b n1 n2 c)
            else (Raise IndexError, c)
        end
      else (Raise IndexError, c)
  end.
Proof.
  destruct (index n1 (node_names c)) as [a|] eqn:H1.
  2:{ unfold add_edge, Graph.bind, node_by_name. by rewrite H1. }
  case_decide as Ha.
  2:{ unfold add_edge, Graph.bind, node_by_name. by rewrite H1, decide_False. }
  destruct (index n2 (node_names c)) as [b|] eqn:H2.
  2:{ unfold add_edge, Graph.bind, node_by_name.
      by rewrite H1, decide_True, H2. }
  case_decide as Hb.
  2:{ unfold add_edge, Graph.bind, node_by_name.
      by rewrite H1, decide_True, H2, decide_False. }
  by apply add_edge_by_index.
Qed.

Lemma respects_add_edge (n1 n2 : string) :
  respects (Detached.on_copy (add_edge n1 n2)).
Proof.
  intros [g c] [g' c'] (Ho & Hn & Hl). cbn [Detached.original Detached.copy] in *.
  subst g'. unfold Detached.on_copy. cbn [Detached.original Detached.copy].
  rewrite !add_edge_cases, <- Hn, <- Hl.
  destruct (index n1 (node_names c)) as [a|]; [|by split].
  case_decide as Ha; [|by split].
  destruct (index n2 (node_names c)) as [b|]; [|by split].
  case_decide as Hb; [|by split].
  split; [done|]. split; [done|]. cbn [Detached.copy].
  split; [done|]. simpl. by rewrite !length_alter.
Qed.

Ltac respects_step :=
  lazymatch goal with
  | |- respects (Detached.ret _) => apply respects_ret
  | |- respects (Detached.lift _) => apply respects_lift
  | |- respects (Detached.on_original _) => apply respects_on_original
  | |- respects (Detached.on_copy (notify _)) => apply respects_notify
  | |- respects (Detached.on_copy (add_edge _ _)) => apply respects_add_edge
  | |- respects (Detached.bind Detached.get _) =>
      apply respects_get_bind;
      let H := fresh in
      intros ? ? H; cbv beta; rewrite ?H; clear H;
      lazymatch goal with
      | |- alike_runs ?m ?m => change (respects m)
      end
  | |- respects (Detached.bind _ _) => apply respects_bind; [|intros ?]
  | |- respects (match ?x with _ => _ end) => destruct x
  | |- respects (if ?x then _ else _) => destruct x
  end.

Lemma respects_remove_edge (n t : nat) : respects (Detached.remove_edge n t).
Proof. unfold Detached.remove_edge. repeat respects_step. Qed.

Lemma respects_remove_shared (i : nat) (path_root : list nat)
  (A : list Yen.entry) (acc : list (nat * nat)) :
  respects (Detached.remove_shared i path_root A acc).
Proof.
  revert acc. induction A as [|path_k A IH]; intros acc;
    cbn [Detached.remove_shared]; repeat respects_step;
    auto using respects_remove_edge.
Qed.

Lemma respects_restore (l : list (nat * nat)) : respects (Detached.restore l).
Proof.
  induction l as [|[u v] l IH]; cbn [Detached.restore]; repeat respects_step.
  done.
Qed.

Lemma respects_spur_step (distances : gmap string Z) (node_end : nat)
  (A B : list Yen.entry) (i : nat) :
  respects (Detached.spur_step distances node_end A B i).
Proof.
  unfold Detached.spur_step. repeat respects_step;
    auto using respects_remove_shared, respects_restore.
Qed.

Lemma respects_spur_steps (distances : gmap string Z) (node_end : nat)
  (A B : list Yen.entry) (positions : list nat) :
  respects (Detached.spur_steps distances node_end A B positions).
Proof.
  revert B. induction positions as [|i positions IH]; intros B;
    cbn [Detached.spur_steps]; repeat respects_step;
    auto using respects_spur_step.
Qed.

Lemma respects_ksp_loop (rounds : nat) (distances : gmap string Z)
  (node_end : nat) (A B : list Yen.entry) :
  respects (Detached.ksp_loop rounds distances node_end A B).
Proof.
  revert A B. induction rounds as [|rounds IH]; intros A B;
    cbn [Detached.ksp_loop]; repeat respects_step;
    auto using respects_spur_steps.
Qed.

Lemma respects_compute_yen_ksp (node_start node_end : nat) (max_k : Z) :
  respects (Detached.compute_yen_ksp node_start node_end max_k).
Proof.
  unfold Detached.compute_yen_ksp. repeat respects_step;
    auto using respects_ksp_loop.
Qed.

(** C3.  The call that [compute_yen_for_server_permutation_pairs] makes,
    [graph.compute_yen_ksp(h1, h2, 64)] on a copy of the chain h1 - s1 - h2
    with the nodes of the chain itself, does not put back what a spur step
    removes.  After the first spur step (latest path [h1, s1, h2], spur
    position 0) the node h1 that is searched has no edge to s1 any more; the
    restore loop has added the edge to the copy, which now has two.  And
    when the whole computation has returned, the store has lost the edges
    h1 -> s1 and s1 -> h2 for good. *)
Theorem pipeline_spur_step_leaves_edge_removed :
  (∃ solved B p',
     Heap.compute_dijkstra_using_heap chain 0 = Ok solved
     ∧ Yen.path chain solved.2 0 2 = Ok [0; 1; 2]
     ∧ Detached.spur_step solved.1 2 [Yen.mk 2 [0; 1; 2]] [] 0
         (Detached.mk chain chain) = (Ok B, p')
     ∧ links chain 0 1 = 1
     ∧ links (Detached.original p') 0 1 = 0
     ∧ links (Detached.copy p') 0 1 = 2)
  ∧ (∃ results g',
       Pairs.compute_yen_for_server_permutation_pairs [2; 0] chain
       = (Ok results, g')
       ∧ links chain 0 1 = 1 ∧ links chain 1 2 = 1
       ∧ links g' 0 1 = 0 ∧ links g' 1 2 = 0).
Proof.
  split.
  - assert (match Heap.compute_dijkstra_using_heap chain 0 with
            | Ok solved =>
                Yen.path chain solved.2 0 2 = Ok [0; 1; 2]
                ∧ match Detached.spur_step solved.1 2 [Yen.mk 2 [0; 1; 2]] [] 0
                          (Detached.mk chain chain) with
                  | (Ok _, p') =>
                      links (Detached.original p') 0 1 = 0
                      ∧ links (Detached.copy p') 0 1 = 2
                  | (Raise _, _) => False
                  end
            | Raise _ => False
            end) as Hfact by (vm_compute; repeat split).
    destruct (Heap.compute_dijkstra_using_heap chain 0) as [solved|];
      [|destruct Hfact].
    destruct Hfact as [Hpath Hfact].
    remember (Detached.spur_step solved.1 2 [Yen.mk 2 [0; 1; 2]] [] 0
                (Detached.mk chain chain)) as r eqn:Hstep.
    destruct r as [[B|] p']; [|destruct Hfact]. symmetry in Hstep.
    exists solved, B, p'. split_and!; [done|done|exact Hstep|by_evaluation|..];
      apply Hfact.
  - assert (match Pairs.compute_yen_for_server_permutation_pairs [2; 0] chain with
            | (Ok _, g') => links g' 0 1 = 0 ∧ links g' 1 2 = 0
            | (Raise _, _) => False
            end) as Hfact by (vm_compute; repeat split).
    destruct (Pairs.compute_yen_for_server_permutation_pairs [2; 0] chain)
      as [[results|] g']; [|destruct Hfact].
    exists results, g'. split_and!; [done|by_evaluation|by_evaluation|..];
      apply Hfact.
Qed.

End DetachedFacts.

Module PairsFacts.

Import Graph Spec Terms StoreFacts HeapFacts YenFacts KspFacts MoreFacts KspMore
  DetachedFacts.

Lemma processInput_unit (p p' : Detached.t) (h : nat * nat)
  (r : Pairs.unit_result) :
  wf (Detached.original p) → Pairs.processInput h p = (Ok r, p') →
  ∃ h0 h1 ksp,
    node_id (Detached.original p) h.1 = Ok h0
    ∧ node_id (Detached.original p) h.2 = Ok h1
    ∧ Detached.compute_yen_ksp h.1 h.2 64 p = (Ok ksp, p')
    ∧ worn (Detached.original p) (Detached.original p')
    ∧ Pairs.path_name r = AllHosts.path_name h0 h1
    ∧ Pairs.computed_paths r = {[AllHosts.path_name h0 h1 := ksp]}
    ∧ Pairs.eight_shortest_path r = take 8 ksp
    ∧ Pairs.eight_ecmp r = take 8 (equal_cost ksp)
    ∧ Pairs.sixty_four_ecmp r = take 64 (equal_cost ksp).
Proof.
  intros Hwf H. unfold Pairs.processInput in H. cbv zeta in H.
  apply dbind_ok_inv in H as (? & ? & [= <- <-] & H).
  apply dbind_ok_inv in H as (h0 & ? & [Hh0 ->]%dlift_ok_inv & H).
  apply dbind_ok_inv in H as (h1 & ? & [Hh1 ->]%dlift_ok_inv & H).
  rewrite !lookup_empty in H. cbn [mbind option_bind] in H.
  apply dbind_ok_inv in H as (named & p1 & Hnamed & H).
  apply dbind_ok_inv in Hnamed as (ksp & p2 & Hksp & [= <- <-]).
  cbn [fst snd] in H. rewrite lookup_insert_eq in H.
  apply dbind_ok_inv in H as (all_paths & ? & [[= <-] ->]%dlift_ok_inv & H).
  apply dbind_ok_inv in H as (? & ? & [= <- <-] & H).
  destruct (compute_yen_ksp_original _ _ _ _ _ _ Hwf Hksp)
    as (Hw & solved & route & l & _ & _ & -> & _).
  rewrite (get_ecmp_paths_take (Detached.original p2) h _ 8 h0 h1 (_ :: l)) in H
    by (done || (by rewrite (worn_node_id _ _ _ Hw))
        || by rewrite lookup_insert_eq).
  rewrite (get_ecmp_paths_take (Detached.original p2) h _ 64 h0 h1 (_ :: l)) in H
    by (done || (by rewrite (worn_node_id _ _ _ Hw))
        || by rewrite lookup_insert_eq).
  apply dbind_ok_inv in H as (? & ? & [[= <-] ->]%dlift_ok_inv & H).
  apply dbind_ok_inv in H as (? & ? & [[= <-] ->]%dlift_ok_inv & H).
  injection H as <- <-. eexists h0, h1, _.
  cbn [Pairs.path_name Pairs.computed_paths Pairs.eight_shortest_path
       Pairs.eight_ecmp Pairs.sixty_four_ecmp].
  rewrite insert_empty. split_and!; done.
Qed.

Lemma run_units_inv (g g' : Graph.t) (pairs : list (nat * nat))
  (resp : list Pairs.unit_result) :
  wf g → Pairs.run_units pairs g = (Ok resp, g') →
  worn g g'
  ∧ ∀ i r, resp !! i = Some r →
      ∃ h p1, pairs !! i = Some h
        ∧ worn g (Pairs.run_units (take i pairs) g).2
        ∧ Pairs.processInput h
            (let g1 := (Pairs.run_units (take i pairs) g).2 in Detached.mk g1 g1)
          = (Ok r, p1).
Proof.
  revert g resp. induction pairs as [|h pairs IH]; intros g resp Hwf;
    cbn [Pairs.run_units].
  - intros [= <- <-]. split; [by apply worn_refl|]. intros i r Hi.
    by rewrite lookup_nil in Hi.
  - intros (r0 & g1 & Hunit & H)%bind_ok_inv.
    apply bind_ok_inv in H as (rs & g2 & Hrest & [= <- <-]).
    unfold Pairs.unit_of_work in Hunit.
    destruct (Pairs.processInput h (Detached.mk g g)) as [r1 p1] eqn:Hp.
    injection Hunit as -> <-.
    destruct (processInput_unit (Detached.mk g g) _ _ _ Hwf Hp)
      as (_ & _ & _ & _ & _ & _ & Hw1 & _).
    cbn [Detached.original] in Hw1.
    destruct (IH _ _ (proj1 Hw1) Hrest) as (Hw2 & Hunits).
    split; [by eapply worn_trans|].
    intros [|i] r Hi.
    + injection Hi as <-. exists h, p1. cbn [take Pairs.run_units Graph.ret snd].
      split_and!; [done|by apply worn_refl|done].
    + destruct (Hunits i r Hi) as (h' & p' & Hh' & Hw' & Hrun).
      assert ((Pairs.run_units (take (S i) (h :: pairs)) g).2
              = (Pairs.run_units (take i pairs) (Detached.original p1)).2) as ->.
      { cbn [take Pairs.run_units]. unfold Graph.bind at 1.
        unfold Pairs.unit_of_work at 1. rewrite Hp.
        unfold Graph.bind.
        by destruct (Pairs.run_units (take i pairs) (Detached.original p1))
          as [[?|?] ?]. }
      exists h', p'. split_and!; [done|by eapply worn_trans|done].
Qed.

Lemma chain_map_lookup (resp : list Pairs.unit_result) (k : string)
  (r : Pairs.unit_result) :
  Pairs.chain_map resp !! k = Some r → r ∈ resp ∧ Pairs.path_name r = k.
Proof.
  induction resp as [|r' resp IH]; simpl.
  - by rewrite lookup_empty.
  - destruct (decide (Pairs.path_name r' = k)) as [<-|Hne].
    + rewrite lookup_insert_eq. intros [= <-]. split; [left|done].
    + rewrite lookup_insert_ne by done. intros [? ?]%IH. split; [by right|done].
Qed.

(** X13.  What [compute_yen_for_server_permutation_pairs] returns and what
    it leaves of the store, for whatever order the shuffle leaves the hosts
    in, with the units run one after the other.  The four dictionaries have
    the same keys.  Under each key [a:b] lie the results of one pair
    [(a, b)] of a host and its partner: the paths that [compute_yen_ksp],
    called with 64 on a copy of the store and the store's own nodes [a] and
    [b], finds in the store as the units before this one left it; the first
    eight of them; and the first 8 and the first 64 of the paths after the
    shortest that are as long as it.  The first dictionary holds under [a:b]
    not that list but the unit's own dictionary, whose single key is again
    [a:b].  The store itself comes out worn: well formed, with nodes of
    the same ids, the same names, edge list, cached matrix and observers,
    and with no more edge objects from any node to any other than
    before. *)
Theorem permutation_pairs_results (g g' : Graph.t) (shuffled_hosts : list nat)
  (computed_paths : gmap string (gmap string (list Yen.entry)))
  (eight_shortest_path eight_ecmp sixty_four_ecmp : gmap string (list Yen.entry)) :
  wf g →
  Pairs.compute_yen_for_server_permutation_pairs shuffled_hosts g
  = (Ok (computed_paths, eight_shortest_path, eight_ecmp, sixty_four_ecmp), g') →
  ∃ hosts, (get_all_hosts g).1 = Ok hosts ∧ worn g g' ∧
  ∀ k,
    (computed_paths !! k = None ∧ eight_shortest_path !! k = None
     ∧ eight_ecmp !! k = None ∧ sixty_four_ecmp !! k = None)
    ∨ ∃ i h h0 h1 ksp g1 p1,
        zip hosts shuffled_hosts !! i = Some h
        ∧ node_id g h.1 = Ok h0 ∧ node_id g h.2 = Ok h1
        ∧ k = AllHosts.path_name h0 h1
        ∧ g1 = (Pairs.run_units (take i (zip hosts shuffled_hosts)) g).2
        ∧ worn g g1
        ∧ Detached.compute_yen_ksp h.1 h.2 64 (Detached.mk g1 g1) = (Ok ksp, p1)
        ∧ computed_paths !! k = Some {[k := ksp]}
        ∧ eight_shortest_path !! k = Some (take 8 ksp)
        ∧ eight_ecmp !! k = Some (take 8 (equal_cost ksp))
        ∧ sixty_four_ecmp !! k = Some (take 64 (equal_cost ksp)).
Proof.
  intros Hwf H. unfold Pairs.compute_yen_for_server_permutation_pairs in H.
  apply bind_ok_inv in H as (hosts & g0 & Hhosts & H).
  assert (g0 = g) as -> by (unfold get_all_hosts in Hhosts; congruence).
  apply bind_ok_inv in H as (resp & g2 & Hresp & [= <- <- <- <- <-]).
  exists hosts. rewrite Hhosts.
  destruct (run_units_inv _ _ _ _ Hwf Hresp) as [Hw Hunits].
  split_and!; [done..|].
  intros k. rewrite !lookup_fmap.
  destruct (Pairs.chain_map resp !! k) as [r|] eqn:Hk; simpl; [right|by left].
  apply chain_map_lookup in Hk as [Hin <-].
  apply list_elem_of_lookup in Hin as [i Hi].
  destruct (Hunits i r Hi) as (h & p1 & Hh & Hw1 & Hunit). cbv zeta in Hunit.
  destruct (processInput_unit (Detached.mk _ _) _ _ _ (proj1 Hw1) Hunit)
    as (h0 & h1 & ksp & Hh0 & Hh1 & Hksp & _ & Hname & Hcp & H8 & He8 & He64).
  cbn [Detached.original] in Hh0, Hh1.
  rewrite (worn_node_id _ _ _ Hw1) in Hh0. rewrite (worn_node_id _ _ _ Hw1) in Hh1.
  eexists i, h, h0, h1, ksp, _, p1.
  split_and!; [done|done|done|done|reflexivity|done|done|..]; congruence.
Qed.

Lemma permutation_pairs_results_witness :
  ∃ g' cp e8 ec8 ec64 ksp,
    Pairs.compute_yen_for_server_permutation_pairs [3; 0] diamond
    = (Ok (cp, e8, ec8, ec64), g')
    ∧ worn diamond g'
    ∧ e8 !! "h2:h1" = Some (take 8 ksp)
    ∧ ec8 !! "h2:h1" = Some (take 8 (equal_cost ksp)).
Proof.
  assert ((λ r, r.1.1.2 !! "h2:h1")
            <$> (Pairs.compute_yen_for_server_permutation_pairs [3; 0] diamond).1
          = Ok (Some [Yen.mk 2 [3; 1; 0]; Yen.mk maxsize [0];
                      Yen.mk (maxsize + 1) [3; 0]; Yen.mk maxsize [0]])) as Hfact
    by (vm_compute; reflexivity).
  destruct (Pairs.compute_yen_for_server_permutation_pairs [3; 0] diamond)
    as [[[[[cp e8] ec8] ec64]|] g'] eqn:Hrun; [|discriminate Hfact].
  injection Hfact as Hfact. cbn [fst snd] in Hfact.
  destruct (permutation_pairs_results diamond g' [3; 0] cp e8 ec8 ec64
              ltac:(by_evaluation) Hrun) as (hosts & _ & Hw & Hkeys).
  destruct (Hkeys "h2:h1")
    as [(_ & Hnone & _)
       |(i & h & h0 & h1 & ksp & g1 & p1 & _ & _ & _ & _ & _ & _ & _ & _
         & H8 & He8 & _)].
  - rewrite Hnone in Hfact. discriminate Hfact.
  - clear Hrun Hfact. exists g', cp, e8, ec8, ec64, ksp.
    split; [reflexivity|]. split; [exact Hw|]. split; [exact H8|exact He8].
Defined.

Lemma respects_processInput (h : nat * nat) : respects (Pairs.processInput h).
Proof.
  unfold Pairs.processInput. cbv zeta. repeat respects_step;
    auto using respects_compute_yen_ksp.
Qed.

(** X18.  A work unit of [compute_yen_for_server_permutation_pairs] only
    writes to the copy it is given.  Whatever copy it is run with, as long
    as the copy has the names and the number of nodes of the store, the
    unit returns (or raises) the same and leaves the same of the store's
    own nodes as with a copy taken right before the unit starts: the
    incident lists, the edge list and the observers of the copy, and so the
    moment at which the copy was taken, do not matter. *)
Theorem unit_only_writes_to_copy (g c : Graph.t) (h : nat * nat) :
  node_names c = node_names g → length (nodes c) = length (nodes g) →
  (Pairs.processInput h (Detached.mk g c)).1 = (Pairs.unit_of_work h g).1
  ∧ Detached.original (Pairs.processInput h (Detached.mk g c)).2
    = (Pairs.unit_of_work h g).2.
Proof.
  intros Hn Hl.
  destruct (respects_processInput h (Detached.mk g c) (Detached.mk g g))
    as (Hr & Ho & _); [by split|].
  unfold Pairs.unit_of_work.
  destruct (Pairs.processInput h (Detached.mk g g)) as [r p].
  by split.
Qed.

Lemma unit_only_writes_to_copy_witness :
  (Pairs.processInput (0, 2)
     (Detached.mk chain (add_edge "h1" "h2" chain).2)).1
  = (Pairs.unit_of_work (0, 2) chain).1.
Proof.
  apply (unit_only_writes_to_copy chain (add_edge "h1" "h2" chain).2 (0, 2));
    vm_compute; reflexivity.
Defined.

End PairsFacts.


(** * The result of the priority-queue solver and the routes read off it *)

Module RouteFacts.

Import Graph Spec Terms StoreFacts HeapqFacts HeapFacts YenFacts.

Lemma links_pos (g : Graph.t) (u : nat) (nu : Node.t) (e : Edge.t) :
  nodes g !! u = Some nu → e ∈ Node.edges nu → 0 < links g u (Edge.rnode e).
Proof.
  intros Hu He. unfold links, edges_of, incident. rewrite Hu. simpl.
  assert (e ∈ filter (λ e', Edge.rnode e' = Edge.rnode e) (Node.edges nu)) as Hin
    by (by apply list_elem_of_filter).
  destruct (filter _ _); [by apply elem_of_nil in Hin|simpl; lia].
Qed.

Lemma is_Some_insert_keep (m : gmap nat nat) (k v x : nat) :
  is_Some (m !! x) → is_Some (<[k := v]> m !! x).
Proof.
  intros Hx. destruct (decide (k = x)) as [->|Hne].
  - rewrite lookup_insert_eq. by eexists.
  - by rewrite lookup_insert_ne.
Qed.

Lemma relax_path_inv (g : Graph.t) (src node : nat) (nn : Node.t)
  (st st' : Heap.state) (e : Edge.t) :
  wf g → heap_inv g st → heap_inv_path g src st → src < length (nodes g) →
  nodes g !! node = Some nn → e ∈ Node.edges nn →
  Edge.rnode e < length (nodes g) →
  Heap.relax g node (Node.id nn) st e = Ok st' → heap_inv_path g src st'.
Proof.
  intros Hwf Hinv Hpath Hsrc Hnode He Hr. unfold Heap.relax.
  case_bool_decide as Hrv; [by intros [= <-]|].
  destruct (lookup_lt_is_Some_2 _ _ Hr) as [nr Hnr].
  rewrite (node_id_ok _ _ _ Hnr). simpl.
  destruct (Z.ltb_spec (Heap.dget (Heap.distance st) (Node.id nn) + 1)
              (Heap.dget (Heap.distance st) (Node.id nr))) as [Hlt|_];
    [|by intros [= <-]].
  intros [= <-].
  destruct Hinv as [Hq Hnn Hv Hp]. destruct Hpath as [Hs Hsp Hed Hre Hqu Hfar].
  pose proof (dget_nonneg _ (Node.id nn) Hnn) as Hge.
  assert (src ≠ Edge.rnode e) as Hne.
  { intros Heq. rewrite Heq, (dist_of_lookup _ _ _ _ Hnr) in Hs. lia. }
  constructor; simpl.
  - by rewrite (dist_of_insert_ne g _ src (Edge.rnode e) nr).
  - by rewrite lookup_insert_ne.
  - intros x y Hxy. destruct (decide (x = Edge.rnode e)) as [->|Hx].
    + rewrite lookup_insert_eq in Hxy. injection Hxy as <-. by eapply links_pos.
    + rewrite lookup_insert_ne in Hxy by done. by apply Hed.
  - intros y Hy. destruct (Hre y Hy) as [->|Hsome]; [by left|right].
    by apply is_Some_insert_keep.
  - apply Forall_heappush.
    + eapply Forall_impl; [exact Hqu|]. intros it [?|Hsome]; [by left|right].
      by apply is_Some_insert_keep.
    + simpl. right. rewrite lookup_insert_eq. by eexists.
  - intros x Hx. destruct (decide (x = Edge.rnode e)) as [->|Hxe].
    + right. left. rewrite lookup_insert_eq. by eexists.
    + destruct (Hfar x Hx) as [->|[Hsome|Hmax]]; [by left|right; left|right; right].
      * by apply is_Some_insert_keep.
      * by rewrite (dist_of_insert_ne g _ x (Edge.rnode e) nr).
Qed.

Lemma relax_all_path_inv (g : Graph.t) (src node : nat) (nn : Node.t)
  (st st' : Heap.state) (es : list Edge.t) :
  wf g → heap_inv g st → heap_inv_path g src st → src < length (nodes g) →
  nodes g !! node = Some nn → node ∈ Heap.visited st →
  Forall (λ e, e ∈ Node.edges nn ∧ Edge.rnode e < length (nodes g)) es →
  Heap.relax_all g node (Node.id nn) st es = Ok st' → heap_inv_path g src st'.
Proof.
  intros Hwf Hinv Hpath Hsrc Hnode Hvis Hes. revert st Hinv Hpath Hvis.
  induction Hes as [|e es [He Hr] _ IH]; intros st Hinv Hpath Hvis; simpl.
  - by intros [= <-].
  - destruct (relax_inv g node nn st e Hwf Hinv Hnode Hvis Hr)
      as (st1 & Hst1 & Hinv1 & _ & Hv1).
    rewrite Hst1. simpl. apply IH; [done| |by rewrite Hv1].
    by apply (relax_path_inv g src node nn st st1 e).
Qed.

Lemma turn_path_inv (g : Graph.t) (src : nat) (st : Heap.state)
  (r : Heap.state + Heap.state) :
  wf g → heap_inv g st → heap_inv_path g src st → src < length (nodes g) →
  Heap.turn g st = Ok r →
  ∃ st', (r = inl st' ∨ r = inr st') ∧ heap_inv g st' ∧ heap_inv_path g src st'.
Proof.
  intros Hwf Hinv Hpath Hsrc Hturn.
  destruct (turn_inv g st Hwf Hinv) as [H|(st2 & H & Hinv2 & _)];
    rewrite H in Hturn; injection Hturn as <-.
  { exists st. split_and!; [by right|done..]. }
  exists st2. split_and!; [by left|done|].
  unfold Heap.turn in H.
  destruct (heapq.heappop (Heap.priority_queue st)) as [[[d node] pq']|] eqn:Hpop;
    [|done].
  destruct Hinv as [Hq Hnn Hv Hp]. destruct Hpath as [Hs Hsp Hed Hre Hqu Hfar].
  destruct (heappop_some _ _ _ _ Hpop Hq) as (Hnode & Hq' & _). simpl in Hnode.
  destruct (heappop_some _ _ _ _ Hpop Hqu) as (Hnq & Hqu' & _). simpl in Hnq.
  destruct (lookup_lt_is_Some_2 _ _ Hnode) as [nn Hn]. rewrite Hn in H.
  simpl in H.
  destruct (Heap.relax_all _ _ _ _ _) as [st3|] eqn:Hrel; simpl in H; [|done].
  injection H as <-.
  eapply (relax_all_path_inv g src node nn _ st3 (Node.edges nn));
    [done| | |done|done| | |exact Hrel].
  - constructor; simpl; [done|done| |].
    + intros y [->%elem_of_singleton|?]%elem_of_union; [done|by apply Hv].
    + intros x y Hxy. destruct (Hp x y Hxy) as (? & ? & ?).
      split_and!; [done| |done]. apply elem_of_union. by right.
  - constructor; simpl; [done|done|done| |done|done].
    intros y [->%elem_of_singleton|?]%elem_of_union; [done|by apply Hre].
  - simpl. apply elem_of_union. left. by apply elem_of_singleton.
  - destruct (wf_incident g node nn Hwf Hn) as [Hall _]. simpl in Hall.
    rewrite Forall_forall in Hall. apply Forall_forall. intros e He.
    split; [done|]. by apply Hall.
Qed.

Lemma turns_path_inv (g : Graph.t) (src : nat) (budget : positive)
  (st : Heap.state) (r : Heap.state + Heap.state) :
  wf g → src < length (nodes g) → heap_inv g st → heap_inv_path g src st →
  Heap.turns budget g st = Ok r →
  ∃ st', (r = inl st' ∨ r = inr st') ∧ heap_inv g st' ∧ heap_inv_path g src st'.
Proof.
  intros Hwf Hsrc. revert st r.
  induction budget as [b IH|b IH|]; intros st r Hinv Hpath H; simpl in H.
  - destruct (Heap.turn g st) as [r1|] eqn:Ht; simpl in H; [|done].
    destruct (turn_path_inv g src st r1 Hwf Hinv Hpath Hsrc Ht)
      as (st1 & [->| ->] & Hinv1 & Hpath1).
    + destruct (Heap.turns b g st1) as [r2|] eqn:Ht2; simpl in H; [|done].
      destruct (IH st1 r2 Hinv1 Hpath1 Ht2) as (st2 & [->| ->] & Hinv2 & Hpath2).
      * by apply (IH st2).
      * injection H as <-. exists st2. split_and!; [by right|done..].
    + injection H as <-. exists st1. split_and!; [by right|done..].
  - destruct (Heap.turns b g st) as [r2|] eqn:Ht2; simpl in H; [|done].
    destruct (IH st r2 Hinv Hpath Ht2) as (st2 & [->| ->] & Hinv2 & Hpath2).
    + by apply (IH st2).
    + injection H as <-. exists st2. split_and!; [by right|done..].
  - by apply (turn_path_inv g src st).
Qed.

(** The state in which the solver leaves its loop. *)
Lemma compute_dijkstra_using_heap_inv (g : Graph.t) (src : nat)
  (dist : gmap string Z) (prev : gmap nat nat) :
  wf g → Heap.compute_dijkstra_using_heap g src = Ok (dist, prev) →
  src < length (nodes g)
  ∧ ∃ st, Heap.distance st = dist ∧ Heap.pathMap st = prev
          ∧ heap_inv g st ∧ heap_inv_path g src st.
Proof.
  intros Hwf H. unfold Heap.compute_dijkstra_using_heap in H.
  destruct (node_id g src) as [sid|] eqn:Hsid; simpl in H; [|done].
  apply node_id_ok_inv in Hsid as (ns & Hns & <-).
  assert (src < length (nodes g)) as Hsrc by (by eapply lookup_lt_Some).
  split; [done|].
  set (st0 := Heap.mk ∅ (heapq.heappush [] (0%Z, src)) ∅ (<[Node.id ns:=0%Z]> ∅))
    in H.
  destruct (Heap.turns (Heap.budget g) g st0) as [r|] eqn:Hturns; simpl in H;
    [|done].
  destruct (turns_path_inv g src (Heap.budget g) st0 r Hwf Hsrc)
    as (st & [->| ->] & Hinv & Hpath); [| |done|done|].
  - constructor; simpl.
    + apply Forall_heappush; [constructor|done].
    + apply map_Forall_insert_2; [lia|apply map_Forall_empty].
    + intros y Hy. by apply elem_of_empty in Hy.
    + intros x y Hxy. by rewrite lookup_empty in Hxy.
  - constructor; simpl.
    + by rewrite (dist_of_lookup _ _ _ _ Hns), dget_insert, decide_True.
    + apply lookup_empty.
    + intros x y Hxy. by rewrite lookup_empty in Hxy.
    + intros y Hy. by apply elem_of_empty in Hy.
    + apply Forall_heappush; [constructor|by left].
    + intros x Hx. destruct (decide (x = src)) as [->|Hne]; [by left|].
      right. right. rewrite (dist_of_insert_ne g _ x src ns) by done.
      unfold dist_of, Heap.dget. by rewrite lookup_empty.
  - injection H as <- <-. by exists st.
Qed.

Lemma walk_snoc (g : Graph.t) (l : list nat) (y x : nat) :
  walk g l → last l = Some y → 0 < links g y x → walk g (l ++ [x]).
Proof.
  intros Hw Hl Hlink. induction l as [|u l IH]; [done|].
  destruct l as [|v l].
  - injection Hl as ->. by split.
  - destruct Hw as [Huv Hw]. split; [done|]. by apply IH.
Qed.

Lemma path_loop_route (g : Graph.t) (dist : gmap string Z) (prev : gmap nat nat)
  (src : nat) (turns curr : nat) (route r : list nat) :
  wf g → src < length (nodes g) → descending g dist prev →
  dist_of g dist src = 0%Z →
  (∀ x y, prev !! x = Some y →
          0 < links g y x ∧ (y = src ∨ is_Some (prev !! y))) →
  is_Some (prev !! curr) →
  Yen.path_loop turns g prev src curr route = Ok r →
  ∃ tail, r = route ++ tail ∧ head tail = Some curr ∧ last tail = Some src
          ∧ walk g (reverse tail)
          ∧ Z.of_nat (length tail) = (dist_of g dist curr + 1)%Z.
Proof.
  intros Hwf Hsrc Hdesc Hzero Hstep.
  destruct (lookup_lt_is_Some_2 _ _ Hsrc) as [ns Hns].
  revert curr route. induction turns as [|turns IH]; intros curr route [p Hp] H;
    simpl in H; [done|].
  rewrite Hp in H.
  destruct (Hdesc curr p Hp) as (Hc & Hlp & Hd).
  destruct (Hstep curr p Hp) as [Hlink Hnext].
  destruct (lookup_lt_is_Some_2 _ _ Hlp) as [np Hnp].
  rewrite (node_id_ok _ _ _ Hnp), (node_id_ok _ _ _ Hns) in H. simpl in H.
  destruct (String.eqb_spec (Node.id np) (Node.id ns)) as [Heq|Hneq].
  - injection H as <-.
    assert (p = src) as -> by (by eapply wf_id_inj).
    exists [curr; src]. split_and!; [by rewrite <- app_assoc|done|done| |].
    + by split.
    + simpl length. rewrite Hd, Hzero. lia.
  - destruct Hnext as [->|Hsome]; [congruence|].
    apply IH in H as (tail & -> & Hhead & Hlast & Hwalk & Hlen); [|done].
    exists (curr :: tail).
    split_and!; [by rewrite <- app_assoc|done| | |].
    + destruct tail; [done|]. exact Hlast.
    + rewrite reverse_cons. apply (walk_snoc g _ p); [done| |done].
      by rewrite last_reverse.
    + simpl length. rewrite Hd. lia.
Qed.

(** X14.  What [compute_dijkstra_using_heap] returns on a well-formed store,
    node by node.  For every source node of the store the solver comes to an
    end and returns.  The source is at distance 0 and has no predecessor.
    Any other node either has a predecessor, which is a node of the store
    that holds an edge towards it and lies exactly one step nearer to the
    source, or it has none, and then reading its distance gives
    [sys.maxsize]. *)
Theorem heap_result_is_consistent (g : Graph.t) (src : nat) :
  wf g → src < length (nodes g) →
  ∃ dist prev,
    Heap.compute_dijkstra_using_heap g src = Ok (dist, prev)
    ∧ dist_of g dist src = 0%Z ∧ prev !! src = None
    ∧ ∀ x, x < length (nodes g) → x ≠ src →
        match prev !! x with
        | Some y => y < length (nodes g) ∧ 0 < links g y x
                    ∧ dist_of g dist x = (dist_of g dist y + 1)%Z
        | None => dist_of g dist x = maxsize
        end.
Proof.
  intros Hwf Hsrc.
  destruct (compute_dijkstra_using_heap_total g src Hwf Hsrc)
    as (dist & prev & H & _).
  exists dist, prev. split; [done|].
  apply compute_dijkstra_using_heap_inv in H
    as (_ & st & <- & <- & [_ _ Hv Hp] & [Hs Hsp Hed _ _ Hfar]); [|done].
  split_and!; [done..|]. intros x Hx Hne.
  destruct (Heap.pathMap st !! x) as [y|] eqn:Hxy.
  - destruct (Hp x y Hxy) as (_ & Hy & Hd).
    split_and!; [by apply Hv|by apply Hed|done].
  - destruct (Hfar x Hx) as [?|[[y Hy]|Hmax]]; [done|congruence|done].
Qed.

Lemma heap_result_is_consistent_witness :
  ∃ dist prev,
    Heap.compute_dijkstra_using_heap chain 0 = Ok (dist, prev)
    ∧ dist_of chain dist 0 = 0%Z ∧ prev !! 0 = None.
Proof.
  destruct (heap_result_is_consistent chain 0 ltac:(by_evaluation)
              ltac:(by_evaluation))
    as (dist & prev & Hrun & Hzero & Hnone & _).
  exists dist, prev. split; [exact Hrun|]. split; [exact Hzero|exact Hnone].
Defined.

(** The route that [path] reads off the solver's predecessors. *)
Lemma solver_route (g : Graph.t) (src dst : nat)
  (dist : gmap string Z) (prev : gmap nat nat) :
  wf g →
  Heap.compute_dijkstra_using_heap g src = Ok (dist, prev) →
  is_Some (prev !! dst) →
  ∃ route,
    Yen.path g prev src dst = Ok route
    ∧ head route = Some src ∧ last route = Some dst
    ∧ walk g route
    ∧ Z.of_nat (length route) = (dist_of g dist dst + 1)%Z.
Proof.
  intros Hwf H Hdst.
  apply compute_dijkstra_using_heap_inv in H
    as (Hsrc & st & <- & <- & [_ _ Hv Hp] & [Hs Hsp Hed Hre _ _]); [|done].
  assert (descending g (Heap.distance st) (Heap.pathMap st)) as Hdesc.
  { intros x y Hxy. destruct (Hp x y Hxy) as (? & ? & ?).
    split_and!; [done|by apply Hv|done]. }
  destruct (path_total g _ _ src dst Hdesc Hsrc) as [route Hroute].
  exists route. split; [done|]. unfold Yen.path in Hroute.
  destruct (Yen.path_loop _ _ _ _ _ _) as [r|] eqn:Hloop; simpl in Hroute; [|done].
  injection Hroute as <-.
  apply (path_loop_route g (Heap.distance st)) in Hloop
    as (tail & -> & Hhead & Hlast & Hwalk & Hlen); [|done..| |done].
  - simpl. by rewrite head_reverse, last_reverse, length_reverse.
  - intros x y Hxy. split; [by apply Hed|]. apply Hre. by apply (Hp x y).
Qed.

(** X15.  A node to which the solver gave a predecessor has a route.  On a
    well-formed store the solver returns for every source node of the
    store, and for every node that its predecessor map knows, [path] comes
    to an end and returns a route that starts at the source, ends at that
    node, steps only along edges of the store, and has one node more than
    the distance the solver reported for the node. *)
Theorem heap_route_is_walk (g : Graph.t) (src : nat) :
  wf g → src < length (nodes g) →
  ∃ dist prev,
    Heap.compute_dijkstra_using_heap g src = Ok (dist, prev)
    ∧ ∀ dst, is_Some (prev !! dst) →
        ∃ route,
          Yen.path g prev src dst = Ok route
          ∧ head route = Some src ∧ last route = Some dst
          ∧ walk g route
          ∧ Z.of_nat (length route) = (dist_of g dist dst + 1)%Z.
Proof.
  intros Hwf Hsrc.
  destruct (compute_dijkstra_using_heap_total g src Hwf Hsrc)
    as (dist & prev & H & _).
  exists dist, prev. split; [done|].
  intros dst Hdst. by apply (solver_route g src dst dist prev).
Qed.

Lemma heap_route_is_walk_witness :
  ∃ dist prev,
    Heap.compute_dijkstra_using_heap chain 0 = Ok (dist, prev)
    ∧ ∀ dst, is_Some (prev !! dst) →
        ∃ route, Yen.path chain prev 0 dst = Ok route ∧ walk chain route.
Proof.
  destruct (heap_route_is_walk chain 0 ltac:(by_evaluation) ltac:(by_evaluation))
    as (dist & prev & Hrun & Hroutes).
  exists dist, prev. split; [exact Hrun|].
  intros dst Hdst.
  destruct (Hroutes dst Hdst) as (route & Hpath & _ & _ & Hwalk & _).
  exists route. split; [exact Hpath|exact Hwalk].
Defined.

End RouteFacts.

(** * The order of the queue *)

Module HeapOrder.

Import heapq HeapqFacts Terms.

(** [lia] with the type of queue entries unfolded, so that it sees one
    [length] and one projection. *)
Ltac hlia := unfold item in *; lia.

Lemma parent_lt (i : nat) : 0 < i → (i - 1) / 2 < i.
Proof.
  intros Hi. pose proof (Nat.Div0.div_le_upper_bound (i - 1) 2 (i - 1)). lia.
Qed.

Lemma parent_child (i p : nat) :
  0 < i → (i - 1) / 2 = p ↔ i = 2 * p + 1 ∨ i = 2 * p + 2.
Proof.
  intros Hi. pose proof (Nat.div_mod_eq (i - 1) 2) as Hdm.
  pose proof (Nat.mod_upper_bound (i - 1) 2). split.
  - intros <-. lia.
  - intros [->| ->].
    + replace (2 * p + 1 - 1) with (p * 2) by lia. by rewrite Nat.div_mul.
    + replace (2 * p + 2 - 1) with (1 + p * 2) by lia.
      by rewrite Nat.div_add.
Qed.

Lemma item_lt_le (a b : item) : item_lt a b = true → (a.1 ≤ b.1)%Z.
Proof. unfold item_lt. destruct (Z.eqb_spec a.1 b.1); [hlia|]. hlia. Qed.

Lemma item_lt_ge (a b : item) : item_lt a b = false → (b.1 ≤ a.1)%Z.
Proof. unfold item_lt. destruct (Z.eqb_spec a.1 b.1); [hlia|]. hlia. Qed.

(** ** [_siftdown]: the new item climbs towards the root *)

Lemma siftdown_loop_ordered turns heap pos newitem :
  pos ≤ turns → pos < length heap →
  (∀ i, 0 < i → i < length heap → i ≠ pos →
        ((heap !!! ((i - 1) / 2)%nat).1 ≤ (heap !!! i).1)%Z) →
  (∀ c, 0 < c → c < length heap → (c - 1) / 2 = pos → 0 < pos →
        ((heap !!! ((pos - 1) / 2)%nat).1 ≤ (heap !!! c).1)%Z) →
  (∀ c, 0 < c → c < length heap → (c - 1) / 2 = pos →
        (newitem.1 ≤ (heap !!! c).1)%Z) →
  heap_ordered (siftdown_loop turns heap 0 pos newitem).
Proof.
  revert heap pos.
  assert (∀ heap pos,
    pos < length heap →
    (pos = 0 ∨ ((heap !!! ((pos - 1) / 2)%nat).1 ≤ newitem.1)%Z) →
    (∀ i, 0 < i → i < length heap → i ≠ pos →
          ((heap !!! ((i - 1) / 2)%nat).1 ≤ (heap !!! i).1)%Z) →
    (∀ c, 0 < c → c < length heap → (c - 1) / 2 = pos →
          (newitem.1 ≤ (heap !!! c).1)%Z) →
    heap_ordered (<[pos := newitem]> heap)) as Hstop.
  { intros heap pos Hpos Htop H1 H3 i Hi Hlen. rewrite length_insert in Hlen.
    pose proof (parent_lt i Hi) as Hpar.
    destruct (decide (i = pos)) as [->|Hne].
    - rewrite list_lookup_total_insert_eq by done.
      rewrite list_lookup_total_insert_ne by hlia.
      destruct Htop; [hlia|done].
    - rewrite (list_lookup_total_insert_ne _ pos i) by done.
      destruct (decide ((i - 1) / 2 = pos)) as [Hp|Hp].
      + rewrite Hp, list_lookup_total_insert_eq by done. by apply H3.
      + rewrite list_lookup_total_insert_ne by done. by apply H1. }
  induction turns as [|turns IH]; intros heap pos Hturns Hpos H1 H2 H3;
    cbn [siftdown_loop].
  - apply Hstop; [done|left; hlia|done|done].
  - case_decide as Hp; [|apply Hstop; [done|left; hlia|done|done]].
    pose proof (parent_lt pos Hp) as Hpar.
    destruct (item_lt newitem (heap !!! ((pos - 1) / 2)%nat)) eqn:Hlt;
      [|apply Hstop; [done|right; by apply item_lt_ge|done|done]].
    apply item_lt_le in Hlt.
    apply IH; [hlia|rewrite length_insert; hlia|..].
    + intros i Hi Hlen Hne. rewrite length_insert in Hlen.
      pose proof (parent_lt i Hi).
      destruct (decide (i = pos)) as [->|Hip].
      * rewrite list_lookup_total_insert_eq by done.
        by rewrite list_lookup_total_insert_ne by hlia.
      * rewrite (list_lookup_total_insert_ne _ pos i) by done.
        destruct (decide ((i - 1) / 2 = pos)) as [Hpi|Hpi].
        -- rewrite Hpi, list_lookup_total_insert_eq by done. by apply H2.
        -- rewrite list_lookup_total_insert_ne by done. by apply H1.
    + intros c Hc Hlen Hpc Hpp. rewrite length_insert in Hlen.
      pose proof (parent_lt _ Hpp).
      rewrite (list_lookup_total_insert_ne _ pos ((_ - 1) / 2)) by hlia.
      pose proof (H1 ((pos - 1) / 2) Hpp ltac:(hlia) ltac:(hlia)) as Hgp.
      destruct (decide (c = pos)) as [->|Hcp].
      * by rewrite list_lookup_total_insert_eq.
      * rewrite list_lookup_total_insert_ne by done.
        pose proof (H1 c Hc Hlen Hcp) as Hcc. rewrite Hpc in Hcc.
        eapply Z.le_trans; [exact Hgp|exact Hcc].
    + intros c Hc Hlen Hpc. rewrite length_insert in Hlen.
      destruct (decide (c = pos)) as [->|Hcp].
      * by rewrite list_lookup_total_insert_eq.
      * rewrite list_lookup_total_insert_ne by done.
        pose proof (H1 c Hc Hlen Hcp) as Hcc. rewrite Hpc in Hcc.
        eapply Z.le_trans; [exact Hlt|exact Hcc].
Qed.

Lemma heappush_ordered heap x :
  heap_ordered heap → heap_ordered (heappush heap x).
Proof.
  intros Hord. unfold heappush, siftdown.
  apply siftdown_loop_ordered; [done|rewrite length_app; simpl; hlia|..].
  - intros i Hi Hlen Hne. rewrite length_app in Hlen. simpl in Hlen.
    pose proof (parent_lt i Hi).
    rewrite !lookup_total_app_l by hlia. apply Hord; hlia.
  - intros c Hc Hlen Hpc _. rewrite length_app in Hlen. simpl in Hlen.
    apply parent_child in Hpc; hlia.
  - intros c Hc Hlen Hpc. rewrite length_app in Hlen. simpl in Hlen.
    apply parent_child in Hpc; hlia.
Qed.

(** ** [_siftup]: the hole sinks to a leaf *)

Lemma siftup_loop_ordered turns heap pos :
  length heap ≤ turns + pos → pos < length heap →
  (∀ i, 0 < i → i < length heap → (i - 1) / 2 ≠ pos →
        ((heap !!! ((i - 1) / 2)%nat).1 ≤ (heap !!! i).1)%Z) →
  (∀ c, 0 < c → c < length heap → (c - 1) / 2 = pos → 0 < pos →
        ((heap !!! ((pos - 1) / 2)%nat).1 ≤ (heap !!! c).1)%Z) →
  let r := siftup_loop turns heap (length heap) pos in
  r.2 < length heap ∧ length heap ≤ 2 * r.2 + 1
  ∧ ∀ i, 0 < i → i < length heap →
         ((r.1 !!! ((i - 1) / 2)%nat).1 ≤ (r.1 !!! i).1)%Z.
Proof.
  revert heap pos.
  induction turns as [|turns IH]; intros heap pos Hturns Hpos H1 H2;
    cbn [siftup_loop fst snd].
  - hlia.
  - case_decide as Hc.
    2:{ cbn [fst snd]. split_and!; [done|hlia|]. intros i Hi Hlen. apply H1; [done..|].
        intros Hp. apply parent_child in Hp; hlia. }
    set (child := if decide (2 * pos + 1 + 1 < length heap)
                  then if item_lt (heap !!! (2 * pos + 1)) (heap !!! (2 * pos + 1 + 1))
                       then 2 * pos + 1 else 2 * pos + 1 + 1
                  else 2 * pos + 1).
    assert (child < length heap ∧ (child = 2 * pos + 1 ∨ child = 2 * pos + 2))
      as [Hchild Hcases].
    { unfold child. case_decide; [destruct (item_lt _ _)|]; hlia. }
    assert (∀ c, 0 < c → c < length heap → (c - 1) / 2 = pos →
                 ((heap !!! child).1 ≤ (heap !!! c).1)%Z) as Hmin.
    { intros c Hc0 Hclen Hpc. apply parent_child in Hpc; [|done].
      unfold child. case_decide as Hr.
      - destruct (item_lt _ _) eqn:Hlt.
        + apply item_lt_le in Hlt. destruct Hpc as [->| ->]; [hlia|].
          by replace (2 * pos + 2) with (2 * pos + 1 + 1) by hlia.
        + apply item_lt_ge in Hlt. destruct Hpc as [->| ->]; [done|].
          replace (2 * pos + 2) with (2 * pos + 1 + 1) by hlia. hlia.
      - destruct Hpc as [->| ->]; [hlia|hlia]. }
    pose proof (IH (<[pos := heap !!! child]> heap) child) as IH'.
    rewrite length_insert in IH'. apply IH'; [hlia|done|..].
    + intros i Hi Hlen Hne. pose proof (parent_lt i Hi).
      destruct (decide (i = pos)) as [->|Hip].
      * rewrite list_lookup_total_insert_eq by done.
        rewrite list_lookup_total_insert_ne by hlia.
        apply H2; [hlia|done| |done]. apply parent_child; hlia.
      * rewrite (list_lookup_total_insert_ne _ pos i) by done.
        destruct (decide ((i - 1) / 2 = pos)) as [Hpi|Hpi].
        -- rewrite Hpi, list_lookup_total_insert_eq by done. by apply Hmin.
        -- rewrite list_lookup_total_insert_ne by done. by apply H1.
    + intros c Hc0 Hclen Hpc _.
      assert ((child - 1) / 2 = pos) as -> by (apply parent_child; hlia).
      rewrite list_lookup_total_insert_eq by done.
      pose proof (parent_lt c Hc0).
      rewrite list_lookup_total_insert_ne by hlia.
      pose proof (H1 c Hc0 Hclen ltac:(hlia)) as Hcc. by rewrite Hpc in Hcc.
Qed.

Lemma siftup_ordered heap :
  0 < length heap →
  (∀ i, 0 < i → i < length heap → (i - 1) / 2 ≠ 0 →
        ((heap !!! ((i - 1) / 2)%nat).1 ≤ (heap !!! i).1)%Z) →
  heap_ordered (siftup heap 0).
Proof.
  intros Hlen H1. unfold siftup.
  pose proof (siftup_loop_ordered (length heap) heap 0 ltac:(hlia) Hlen H1
                ltac:(intros; hlia)) as Hr.
  pose proof (length_siftup_loop (length heap) heap (length heap) 0) as Hl.
  destruct (siftup_loop _ _ _ _) as [heap' pos']. simpl in Hr, Hl.
  destruct Hr as (Hpos' & Hleaf & Hord).
  unfold siftdown. rewrite list_lookup_total_insert_eq by hlia.
  apply siftdown_loop_ordered; [done|rewrite length_insert; hlia|..].
  - intros i Hi Hi' Hne. rewrite length_insert, Hl in Hi'.
    rewrite (list_lookup_total_insert_ne _ pos' i) by done.
    rewrite list_lookup_total_insert_ne; [by apply Hord|].
    intros Hp. symmetry in Hp. apply parent_child in Hp; hlia.
  - intros c Hc Hc' Hp _. rewrite length_insert, Hl in Hc'.
    apply parent_child in Hp; hlia.
  - intros c Hc Hc' Hp. rewrite length_insert, Hl in Hc'.
    apply parent_child in Hp; hlia.
Qed.

Lemma heap_ordered_snoc heap x : heap_ordered (heap ++ [x]) → heap_ordered heap.
Proof.
  intros Hord i Hi Hlen. pose proof (parent_lt i Hi).
  specialize (Hord i Hi). rewrite length_app in Hord. cbn [length] in Hord.
  rewrite !lookup_total_app_l in Hord by hlia. apply Hord. hlia.
Qed.

Lemma heap_ordered_root heap i :
  heap_ordered heap → i < length heap →
  ((heap !!! 0%nat).1 ≤ (heap !!! i).1)%Z.
Proof.
  intros Hord. induction (lt_wf i) as [i _ IH]. intros Hlen.
  destruct (decide (i = 0)) as [->|Hne]; [hlia|].
  pose proof (parent_lt i ltac:(hlia)) as Hp.
  pose proof (IH _ Hp ltac:(hlia)). pose proof (Hord i ltac:(hlia) Hlen). hlia.
Qed.

Lemma heappop_split heap x heap' :
  heappop heap = Some (x, heap') →
  ∃ front lastelt, heap = front ++ [lastelt]
    ∧ (front = [] ∧ x = lastelt ∧ heap' = []
       ∨ 0 < length front ∧ x = front !!! 0
         ∧ heap' = siftup (<[0 := lastelt]> front) 0).
Proof.
  unfold heappop. intros Hpop.
  destruct (reverse heap) as [|lastelt rest] eqn:Hr; [done|].
  apply (f_equal reverse) in Hr. rewrite reverse_involutive, reverse_cons in Hr.
  exists (reverse rest), lastelt. split; [done|].
  destruct (reverse rest) as [|returnitem heap0].
  - left. by injection Hpop as <- <-.
  - right. injection Hpop as <- <-. split; [simpl; hlia|done].
Qed.

Lemma heappop_ordered heap x heap' :
  heap_ordered heap → heappop heap = Some (x, heap') →
  heap_ordered heap' ∧ Forall (λ y, (x.1 ≤ y.1)%Z) heap.
Proof.
  intros Hord Hpop.
  assert (x = heap !!! 0) as Hx.
  { apply heappop_split in Hpop
      as (front & lastelt & -> & [(-> & -> & _)|(Hlen & -> & _)]); [done|].
    by rewrite lookup_total_app_l. }
  split.
  - apply heappop_split in Hpop
      as (front & lastelt & -> & [(_ & _ & ->)|(Hlen & _ & ->)]).
    { intros i Hi Hl. simpl in Hl. hlia. }
    apply heap_ordered_snoc in Hord.
    apply siftup_ordered; [by rewrite length_insert|].
    intros i Hi Hl Hp. rewrite length_insert in Hl.
    rewrite !list_lookup_total_insert_ne by hlia. by apply Hord.
  - apply Forall_forall. intros y [i Hi]%list_elem_of_lookup.
    rewrite Hx, <- (list_lookup_total_correct _ _ _ Hi).
    apply heap_ordered_root; [done|by eapply lookup_lt_Some].
Qed.

(** ** Nothing is lost from the queue *)

Lemma elem_of_insert_swap (heap : list item) (i j : nat) (a y : item) :
  i ≠ j → i < length heap → j < length heap →
  y ∈ <[i := a]> heap → y ∈ <[j := a]> (<[i := heap !!! j]> heap).
Proof.
  intros Hne Hi Hj [k Hk]%list_elem_of_lookup.
  apply list_lookup_insert_Some in Hk as [(<- & <- & _)|[Hik Hk]].
  - apply (list_elem_of_lookup_2 _ j).
    apply list_lookup_insert_eq. by rewrite length_insert.
  - destruct (decide (k = j)) as [->|Hkj].
    + apply (list_elem_of_lookup_2 _ i).
      rewrite list_lookup_insert_ne by done.
      rewrite list_lookup_insert_eq by done.
      by rewrite (list_lookup_total_correct _ _ _ Hk).
    + apply (list_elem_of_lookup_2 _ k).
      by rewrite !list_lookup_insert_ne by done.
Qed.

Lemma siftdown_loop_elem turns heap pos newitem y :
  pos < length heap → y ∈ <[pos := newitem]> heap →
  y ∈ siftdown_loop turns heap 0 pos newitem.
Proof.
  revert heap pos. induction turns as [|turns IH]; intros heap pos Hpos Hy;
    cbn [siftdown_loop]; [done|].
  case_decide as Hp; [|done].
  pose proof (parent_lt pos Hp).
  destruct (item_lt _ _); [|done].
  apply IH; [rewrite length_insert; hlia|].
  apply elem_of_insert_swap; [hlia|done|hlia|done].
Qed.

Lemma heappush_elem heap x y : y ∈ heap ∨ y = x → y ∈ heappush heap x.
Proof.
  intros Hy. unfold heappush, siftdown.
  apply siftdown_loop_elem; [rewrite length_app; simpl; hlia|].
  rewrite list_insert_id.
  - apply elem_of_app. destruct Hy as [?| ->]; [by left|right; by left].
  - apply list_lookup_lookup_total_lt. rewrite length_app. simpl. hlia.
Qed.

Lemma siftup_loop_elem turns heap pos x y :
  pos < length heap → y ∈ <[pos := x]> heap →
  let r := siftup_loop turns heap (length heap) pos in
  y ∈ <[r.2 := x]> r.1.
Proof.
  revert heap pos. induction turns as [|turns IH]; intros heap pos Hpos Hy;
    cbn [siftup_loop fst snd]; [done|].
  case_decide as Hc; [|done].
  set (child := if decide (2 * pos + 1 + 1 < length heap)
                then if item_lt (heap !!! (2 * pos + 1)) (heap !!! (2 * pos + 1 + 1))
                     then 2 * pos + 1 else 2 * pos + 1 + 1
                else 2 * pos + 1).
  assert (child < length heap ∧ pos < child) as [Hchild Hlt].
  { unfold child. case_decide; [destruct (item_lt _ _)|]; hlia. }
  pose proof (IH (<[pos := heap !!! child]> heap) child) as IH'.
  rewrite length_insert in IH'. apply IH'; [done|].
  apply elem_of_insert_swap; [hlia|done|done|done].
Qed.

Lemma heappop_elem heap x heap' y :
  heappop heap = Some (x, heap') → y ∈ heap → y = x ∨ y ∈ heap'.
Proof.
  intros Hpop Hy.
  apply heappop_split in Hpop
    as (front & lastelt & -> & [(-> & -> & ->)|(Hlen & -> & ->)]).
  { left. by apply list_elem_of_singleton in Hy. }
  assert (y = front !!! 0 ∨ y ∈ <[0 := lastelt]> front) as [?|Hin]; [|by left|].
  { apply elem_of_app in Hy as [[i Hi]%list_elem_of_lookup|Hy].
    - destruct i as [|i]; [left; by rewrite (list_lookup_total_correct _ _ _ Hi)|].
      right. apply (list_elem_of_lookup_2 _ (S i)).
      by rewrite list_lookup_insert_ne.
    - apply list_elem_of_singleton in Hy as ->. right.
      apply (list_elem_of_lookup_2 _ 0). by apply list_lookup_insert_eq. }
  right. unfold siftup. set (heap0 := <[0 := lastelt]> front) in *.
  assert (0 < length heap0) as Hlen0 by (unfold heap0; by rewrite length_insert).
  pose proof (siftup_loop_elem (length heap0) heap0 0 (heap0 !!! 0) y Hlen0) as He.
  pose proof (Forall_siftup_loop (λ _, True) (length heap0) heap0 0) as [_ Hb];
    [by apply Forall_true|done|].
  pose proof (length_siftup_loop (length heap0) heap0 (length heap0) 0) as Hl.
  destruct (siftup_loop _ _ _ _) as [heap1 pos1]. simpl in He, Hb, Hl.
  unfold siftdown. apply siftdown_loop_elem; [rewrite length_insert; hlia|].
  rewrite list_lookup_total_insert_eq by hlia.
  rewrite list_insert_insert_eq. apply He.
  rewrite list_insert_id; [done|]. by apply list_lookup_lookup_total_lt.
Qed.

End HeapOrder.

(** * The distances of the priority-queue solver *)

Module DistanceFacts.

Import Graph Spec Terms StoreFacts HeapqFacts HeapFacts HeapOrder YenFacts
  RouteFacts.

Lemma dist_of_insert_eq (g : Graph.t) (d : gmap string Z) (r : nat)
  (nr : Node.t) (v : Z) :
  nodes g !! r = Some nr → dist_of g (<[Node.id nr := v]> d) r = v.
Proof.
  intros Hr. by rewrite (dist_of_lookup _ _ _ _ Hr), dget_insert, decide_True.
Qed.

Lemma dist_of_insert_le (g : Graph.t) (d : gmap string Z) (x r : nat)
  (nr : Node.t) (v : Z) :
  wf g → x < length (nodes g) → nodes g !! r = Some nr →
  (v ≤ dist_of g d r)%Z →
  (dist_of g (<[Node.id nr := v]> d) x ≤ dist_of g d x)%Z.
Proof.
  intros Hwf Hx Hr Hv. destruct (decide (x = r)) as [->|Hne].
  - by rewrite (dist_of_insert_eq g d r nr).
  - by rewrite (dist_of_insert_ne g d x r nr).
Qed.

Lemma heap_inv_dist_done (g : Graph.t) (st : Heap.state) (u u' : nat) :
  heap_inv_dist g st u [] → heap_inv_dist g st u' [].
Proof.
  intros [Hord Hbound Hent Hset Hclo Hpen]. constructor; [done..| |done].
  intros w e Hw He. destruct (Hclo w e Hw He) as [[_ Hin]|?]; [|by right].
  by apply elem_of_nil in Hin.
Qed.

Lemma relax_dist_inv (g : Graph.t) (u : nat) (nu : Node.t) (st st' : Heap.state)
  (e : Edge.t) (es : list Edge.t) :
  wf g → heap_inv g st → heap_inv_dist g st u (e :: es) →
  nodes g !! u = Some nu → u ∈ Heap.visited st →
  Edge.rnode e < length (nodes g) →
  (∀ w, w ∈ Heap.visited st →
        (dist_of g (Heap.distance st) w ≤ dist_of g (Heap.distance st) u + 1)%Z) →
  Heap.relax g u (Node.id nu) st e = Ok st' →
  heap_inv_dist g st' u es
  ∧ (∀ w, w ∈ Heap.visited st' →
          (dist_of g (Heap.distance st') w
           ≤ dist_of g (Heap.distance st') u + 1)%Z).
Proof.
  intros Hwf Hinv Hdist Hu Hvis Hr Hb. unfold Heap.relax.
  destruct Hinv as [Hq _ Hv _].
  destruct Hdist as [Hord Hbound Hent Hset Hclo Hpen].
  assert (∀ w e', w ∈ Heap.visited st → e' ∈ edges_of g w →
            (dist_of g (Heap.distance st) (Edge.rnode e)
             ≤ dist_of g (Heap.distance st) u + 1)%Z →
            (w = u ∧ e' ∈ es)
            ∨ (dist_of g (Heap.distance st) (Edge.rnode e')
               ≤ dist_of g (Heap.distance st) w + 1)%Z) as Hclo'.
  { intros w e' Hw He' Hle.
    destruct (Hclo w e' Hw He') as [[-> [->|Hin]%elem_of_cons]|?];
      [by right|by left|by right]. }
  case_bool_decide as Hrv.
  { intros [= <-]. split; [|done]. constructor; try done.
    intros w e' Hw He'. apply Hclo'; [done..|]. by apply Hb. }
  destruct (lookup_lt_is_Some_2 _ _ Hr) as [nr Hnr].
  rewrite (node_id_ok _ _ _ Hnr). simpl.
  rewrite <- (dist_of_lookup g _ u nu Hu).
  rewrite <- (dist_of_lookup g (Heap.distance st) (Edge.rnode e) nr Hnr).
  destruct (Z.ltb_spec (dist_of g (Heap.distance st) u + 1)
              (dist_of g (Heap.distance st) (Edge.rnode e))) as [Hlt|Hge].
  2:{ intros [= <-]. split; [|done]. constructor; try done.
      intros w e' Hw He'. apply Hclo'; [done..|]. lia. }
  intros [= <-]. simpl.
  assert (u ≠ Edge.rnode e) as Hue by (intros ->; done).
  assert (u < length (nodes g)) as Hul by (by apply Hv).
  assert (∀ w, w ∈ Heap.visited st →
     dist_of g (<[Node.id nr := (dist_of g (Heap.distance st) u + 1)%Z]>
                  (Heap.distance st)) w
     = dist_of g (Heap.distance st) w) as Hsame.
  { intros w Hw.
    apply (dist_of_insert_ne g _ w (Edge.rnode e) nr); [done|by apply Hv|done|].
    intros ->. done. }
  assert (∀ x, x < length (nodes g) →
     (dist_of g (<[Node.id nr := (dist_of g (Heap.distance st) u + 1)%Z]>
                   (Heap.distance st)) x
      ≤ dist_of g (Heap.distance st) x)%Z) as Hle.
  { intros x Hx. apply (dist_of_insert_le g _ x (Edge.rnode e) nr); [done..|lia]. }
  pose proof (Hbound (Node.id nr)) as Hbr.
  rewrite <- (dist_of_lookup g _ _ nr Hnr) in Hbr.
  split.
  - constructor; simpl.
    + by apply heappush_ordered.
    + intros k. rewrite dget_insert. case_decide; [lia|done].
    + apply Forall_heappush.
      * rewrite Forall_forall in Hent, Hq. apply Forall_forall. intros it Hit.
        destruct (Hent it Hit) as [H1 H2]. split; [|done].
        specialize (Hle it.2 (Hq it Hit)). lia.
      * simpl. rewrite (dist_of_insert_eq g _ _ nr) by done. lia.
    + intros w Hw. rewrite (Hsame w Hw). apply Forall_heappush; [by apply Hset|].
      simpl. by apply Hb.
    + intros w e' Hw He'. rewrite (Hsame w Hw).
      assert (Edge.rnode e' < length (nodes g)) as Hr' by (by eapply wf_edge).
      destruct (Hclo w e' Hw He') as [[-> [->|Hin]%elem_of_cons]|Hok].
      * right. rewrite (dist_of_insert_eq g _ _ nr) by done. lia.
      * by left.
      * right. specialize (Hle _ Hr'). lia.
    + intros x Hx Hxv Hxd. apply heappush_elem.
      destruct (decide (x = Edge.rnode e)) as [->|Hne].
      * right. by rewrite (dist_of_insert_eq g _ _ nr).
      * left. rewrite (dist_of_insert_ne g _ x (Edge.rnode e) nr) in Hxd |- * by done.
        by apply Hpen.
  - simpl. intros w Hw. rewrite (Hsame w Hw), (Hsame u Hvis). by apply Hb.
Qed.

Lemma relax_all_dist_inv (g : Graph.t) (u : nat) (nu : Node.t)
  (st st' : Heap.state) (es : list Edge.t) :
  wf g → heap_inv g st → heap_inv_dist g st u es →
  nodes g !! u = Some nu → u ∈ Heap.visited st →
  Forall (λ e, Edge.rnode e < length (nodes g)) es →
  (∀ w, w ∈ Heap.visited st →
        (dist_of g (Heap.distance st) w ≤ dist_of g (Heap.distance st) u + 1)%Z) →
  Heap.relax_all g u (Node.id nu) st es = Ok st' →
  heap_inv_dist g st' u [].
Proof.
  intros Hwf Hinv Hdist Hu Hvis Hes. revert st Hinv Hdist Hvis.
  induction Hes as [|e es Hr _ IH]; intros st Hinv Hdist Hvis Hb; simpl.
  - by intros [= <-].
  - destruct (relax_inv g u nu st e Hwf Hinv Hu Hvis Hr)
      as (st1 & Hst1 & Hinv1 & _ & Hv1).
    rewrite Hst1. simpl.
    destruct (relax_dist_inv g u nu st st1 e es Hwf Hinv Hdist Hu Hvis Hr Hb Hst1)
      as [Hdist1 Hb1].
    apply IH; [done|done|by rewrite Hv1|done].
Qed.

Lemma relax_all_settled (g : Graph.t) (u : nat) (nu : Node.t) (st : Heap.state)
  (es : list Edge.t) :
  nodes g !! u = Some nu →
  Forall (λ e, Edge.rnode e < length (nodes g)
               ∧ (dist_of g (Heap.distance st) (Edge.rnode e)
                  ≤ dist_of g (Heap.distance st) u + 1)%Z) es →
  Heap.relax_all g u (Node.id nu) st es = Ok st.
Proof.
  intros Hu Hes. induction Hes as [|e es [Hr Hle] _ IH]; simpl; [done|].
  assert (Heap.relax g u (Node.id nu) st e = Ok st) as ->; [|done].
  unfold Heap.relax. case_bool_decide; [done|].
  destruct (lookup_lt_is_Some_2 _ _ Hr) as [nr Hnr].
  rewrite (node_id_ok _ _ _ Hnr). simpl.
  rewrite <- (dist_of_lookup g _ u nu Hu).
  rewrite <- (dist_of_lookup g (Heap.distance st) (Edge.rnode e) nr Hnr).
  destruct (Z.ltb_spec (dist_of g (Heap.distance st) u + 1)
              (dist_of g (Heap.distance st) (Edge.rnode e))); [lia|done].
Qed.

Lemma turn_dist_inv (g : Graph.t) (st : Heap.state)
  (r : Heap.state + Heap.state) :
  wf g → heap_inv g st → heap_inv_dist g st 0 [] →
  Heap.turn g st = Ok r →
  ∃ st', heap_inv g st' ∧ heap_inv_dist g st' 0 []
         ∧ (r = inl st' ∨ r = inr st' ∧ Heap.priority_queue st' = []).
Proof.
  intros Hwf Hinv Hdist Hturn.
  destruct (turn_inv g st Hwf Hinv) as [H|(st2 & H & Hinv2 & _)];
    rewrite H in Hturn; injection Hturn as <-.
  { exists st. split_and!; [done..|]. right. split; [done|].
    unfold Heap.turn in H.
    destruct (heapq.heappop (Heap.priority_queue st)) as [[[d u] pq']|] eqn:Hpop.
    - destruct (nodes g !! u); simpl in H; [|done].
      by destruct (Heap.relax_all _ _ _ _ _).
    - by apply heappop_none. }
  exists st2. split_and!; [done| |by left].
  unfold Heap.turn in H.
  destruct (heapq.heappop (Heap.priority_queue st)) as [[[p u] pq']|] eqn:Hpop;
    [|done].
  pose proof Hinv as [Hq Hnn Hv Hp].
  destruct Hdist as [Hord Hbound Hent Hset Hclo Hpen].
  destruct (heappop_some _ _ _ _ Hpop Hq) as (Hul & Hq' & _). simpl in Hul.
  destruct (heappop_some _ _ _ _ Hpop Hent) as ([Hup Hpm] & Hent' & _).
  simpl in Hup, Hpm.
  destruct (heappop_ordered _ _ _ Hord Hpop) as [Hord' Hmin].
  destruct (lookup_lt_is_Some_2 _ _ Hul) as [nu Hu]. rewrite Hu in H.
  simpl in H.
  set (st1 := Heap.mk ({[u]} ∪ Heap.visited st) pq' (Heap.pathMap st)
                      (Heap.distance st)) in *.
  assert (heap_inv g st1) as Hinv1.
  { constructor; simpl; [done|done| |].
    - intros y [->%elem_of_singleton|?]%elem_of_union; [done|by apply Hv].
    - intros x y Hxy. destruct (Hp x y Hxy) as (? & ? & ?).
      split_and!; [done| |done]. apply elem_of_union. by right. }
  assert (Forall (λ e, Edge.rnode e < length (nodes g)) (Node.edges nu)) as Hedges.
  { destruct (wf_incident g u nu Hwf Hu) as [Hall _]. simpl in Hall.
    eapply Forall_impl; [done|]. simpl. tauto. }
  assert (edges_of g u = Node.edges nu) as Heu
    by (unfold edges_of, incident; by rewrite Hu).
  assert (∀ x, x < length (nodes g) → x ∉ Heap.visited st1 →
     (dist_of g (Heap.distance st) x < maxsize)%Z →
     (dist_of g (Heap.distance st) x, x) ∈ pq') as Hpen'.
  { intros x Hx Hxv Hxd. simpl in Hxv.
    apply not_elem_of_union in Hxv as [Hxu%not_elem_of_singleton Hxv'].
    destruct (heappop_elem _ _ _ _ Hpop (Hpen x Hx Hxv' Hxd)) as [[= _ ?]|?]; done. }
  destruct (decide (u ∈ Heap.visited st)) as [Hvis|Hnew].
  - rewrite (relax_all_settled g u nu st1) in H.
    + simpl in H. injection H as <-. constructor; simpl; [done|done|done| | |done].
      * intros w Hw. assert (w ∈ Heap.visited st) as Hw'.
        { by apply elem_of_union in Hw as [->%elem_of_singleton|?]. }
        by destruct (heappop_some _ _ _ _ Hpop (Hset w Hw')) as (_ & ? & _).
      * intros w e Hw He. assert (w ∈ Heap.visited st) as Hw'.
        { by apply elem_of_union in Hw as [->%elem_of_singleton|?]. }
        by apply Hclo.
    + done.
    + simpl. apply Forall_forall. intros e He. rewrite Forall_forall in Hedges.
      split; [by apply Hedges|].
      destruct (Hclo u e Hvis) as [[_ Hin]|?]; [by rewrite Heu| |done].
      by apply elem_of_nil in Hin.
  - assert ((dist_of g (Heap.distance st) u, u) ∈ Heap.priority_queue st) as Hqu.
    { apply Hpen; [done|done|lia]. }
    destruct (Heap.relax_all g u (Node.id nu) st1 (Node.edges nu)) as [st3|] eqn:Hrel;
      simpl in H; [|done].
    injection H as <-.
    apply (heap_inv_dist_done g st3 u).
    apply (relax_all_dist_inv g u nu st1 st3 (Node.edges nu)); try done.
    + constructor; simpl; [done|done|done| | |done].
      * intros w [->%elem_of_singleton|Hw]%elem_of_union.
        -- destruct (heappop_some (λ y, (dist_of g (Heap.distance st) u ≤ y.1)%Z)
                       _ _ _ Hpop) as (_ & ? & _); [|done].
           eapply Forall_impl; [exact Hmin|]. simpl. intros y Hy. lia.
        -- by destruct (heappop_some _ _ _ _ Hpop (Hset w Hw)) as (_ & ? & _).
      * intros w e [->%elem_of_singleton|Hw]%elem_of_union He.
        -- left. by rewrite <- Heu.
        -- right. destruct (Hclo w e Hw He) as [[_ Hin]|?]; [|done].
           by apply elem_of_nil in Hin.
    + simpl. apply elem_of_union. left. by apply elem_of_singleton.
    + simpl. intros w [->%elem_of_singleton|Hw]%elem_of_union; [lia|].
      pose proof (Hset w Hw) as Hall. rewrite Forall_forall in Hall.
      specialize (Hall _ Hqu). simpl in Hall. lia.
Qed.

Lemma turns_dist_inv (g : Graph.t) (budget : positive) (st : Heap.state)
  (r : Heap.state + Heap.state) :
  wf g → heap_inv g st → heap_inv_dist g st 0 [] →
  Heap.turns budget g st = Ok r →
  ∃ st', heap_inv g st' ∧ heap_inv_dist g st' 0 []
         ∧ (r = inl st' ∨ r = inr st' ∧ Heap.priority_queue st' = []).
Proof.
  intros Hwf. revert st r.
  induction budget as [b IH|b IH|]; intros st r Hinv Hdist H; simpl in H.
  - destruct (Heap.turn g st) as [r1|] eqn:Ht; simpl in H; [|done].
    destruct (turn_dist_inv g st r1 Hwf Hinv Hdist Ht)
      as (st1 & Hinv1 & Hdist1 & [->|[-> Hq1]]).
    + destruct (Heap.turns b g st1) as [r2|] eqn:Ht2; simpl in H; [|done].
      destruct (IH st1 r2 Hinv1 Hdist1 Ht2)
        as (st2 & Hinv2 & Hdist2 & [->|[-> Hq2]]).
      * by apply (IH st2).
      * injection H as <-. exists st2. split_and!; [done..|by right].
    + injection H as <-. exists st1. split_and!; [done..|by right].
  - destruct (Heap.turns b g st) as [r2|] eqn:Ht2; simpl in H; [|done].
    destruct (IH st r2 Hinv Hdist Ht2) as (st2 & Hinv2 & Hdist2 & [->|[-> Hq2]]).
    + by apply (IH st2).
    + injection H as <-. exists st2. split_and!; [done..|by right].
  - by apply (turn_dist_inv g st).
Qed.

Lemma compute_dijkstra_using_heap_dist (g : Graph.t) (src : nat)
  (dist : gmap string Z) (prev : gmap nat nat) :
  wf g → Heap.compute_dijkstra_using_heap g src = Ok (dist, prev) →
  ∃ st, Heap.distance st = dist ∧ Heap.priority_queue st = []
        ∧ heap_inv g st ∧ heap_inv_dist g st 0 [].
Proof.
  intros Hwf H. unfold Heap.compute_dijkstra_using_heap in H.
  destruct (node_id g src) as [sid|] eqn:Hsid; simpl in H; [|done].
  apply node_id_ok_inv in Hsid as (ns & Hns & <-).
  assert (src < length (nodes g)) as Hsrc by (by eapply lookup_lt_Some).
  set (st0 := Heap.mk ∅ (heapq.heappush [] (0%Z, src)) ∅ (<[Node.id ns:=0%Z]> ∅))
    in H.
  destruct (Heap.turns (Heap.budget g) g st0) as [r|] eqn:Hturns; simpl in H;
    [|done].
  destruct (turns_dist_inv g (Heap.budget g) st0 r Hwf)
    as (st & Hinv & Hdist & [->|[-> Hq]]); [| |done|done|].
  - constructor; simpl.
    + apply Forall_heappush; [constructor|done].
    + apply map_Forall_insert_2; [lia|apply map_Forall_empty].
    + intros y Hy. by apply elem_of_empty in Hy.
    + intros x y Hxy. by rewrite lookup_empty in Hxy.
  - assert (∀ x, x < length (nodes g) → x ≠ src →
              dist_of g (<[Node.id ns:=0%Z]> ∅) x = maxsize) as Hfar.
    { intros x Hx Hne. rewrite (dist_of_insert_ne g _ x src ns) by done.
      unfold dist_of, Heap.dget. by rewrite lookup_empty. }
    constructor; simpl.
    + apply heappush_ordered. intros i Hi Hl. simpl in Hl. lia.
    + intros k. rewrite dget_insert. case_decide; unfold Heap.dget, maxsize.
      * lia.
      * rewrite lookup_empty. simpl. lia.
    + apply Forall_heappush; [constructor|]. simpl.
      rewrite (dist_of_insert_eq g _ _ ns) by done. unfold maxsize. lia.
    + intros w Hw. by apply elem_of_empty in Hw.
    + intros w e Hw. by apply elem_of_empty in Hw.
    + intros x Hx _ Hxd. apply heappush_elem. right.
      destruct (decide (x = src)) as [->|Hne].
      * by rewrite (dist_of_insert_eq g _ _ ns).
      * rewrite (Hfar x Hx Hne) in Hxd. lia.
  - injection H as <- _. by exists st.
Qed.

Lemma links_edge (g : Graph.t) (u v : nat) :
  0 < links g u v → ∃ e, e ∈ edges_of g u ∧ Edge.rnode e = v.
Proof.
  unfold links. intros Hl.
  destruct (filter (λ e, Edge.rnode e = v) (edges_of g u)) as [|e l] eqn:Hf;
    [simpl in Hl; lia|].
  assert (e ∈ filter (λ e, Edge.rnode e = v) (edges_of g u)) as Hin
    by (rewrite Hf; by left).
  apply list_elem_of_filter in Hin as [? ?]. by exists e.
Qed.

(** A bound on the distance of the end of a route, for distances that are
    closed under the edges of the store: 0 at the source, and along an edge
    out of a node below [M] at most one more. *)
Lemma walk_bound (g : Graph.t) (d : nat → Z) (M : Z) (src x : nat)
  (route : list nat) :
  wf g → src < length (nodes g) → (d src ≤ 0)%Z →
  (∀ v, v < length (nodes g) → (d v ≤ M)%Z) →
  (∀ u y, u < length (nodes g) → 0 < links g u y → (d u < M)%Z →
          (d y ≤ d u + 1)%Z) →
  head route = Some src → last route = Some x → walk g route →
  (d x < Z.of_nat (length route))%Z.
Proof.
  intros Hwf Hsrc Hzero Hbound Hclo Hhead Hlast Hwalk.
  assert (∀ u k, u < length (nodes g) → (d u ≤ k)%Z → head route = Some u →
            (d x < k + Z.of_nat (length route))%Z)
    as Hgen; [|pose proof (Hgen src 0%Z Hsrc Hzero Hhead); lia].
  clear Hhead. induction route as [|a route IH]; intros u k Hu Hk Hhead;
    [done|].
  injection Hhead as ->. destruct route as [|v route].
  - injection Hlast as ->. simpl. lia.
  - destruct Hwalk as [Hlink Hwalk].
    destruct (links_edge g u v Hlink) as (e & He & Hev).
    assert (v < length (nodes g)) as Hv by (rewrite <- Hev; by eapply wf_edge).
    assert (d v ≤ k + 1)%Z as Hk'.
    { destruct (decide (d u < M)%Z) as [Hfin|Hinf].
      - pose proof (Hclo u v Hu Hlink Hfin). lia.
      - pose proof (Hbound v Hv). lia. }
    specialize (IH Hlast Hwalk v (k + 1)%Z Hv Hk' eq_refl).
    cbn [length] in *. lia.
Qed.

(** No route is shorter than the distance the solver reports. *)
Lemma solver_lower_bound (g : Graph.t) (src x : nat)
  (dist : gmap string Z) (prev : gmap nat nat) (route : list nat) :
  wf g →
  Heap.compute_dijkstra_using_heap g src = Ok (dist, prev) →
  head route = Some src → last route = Some x → walk g route →
  (dist_of g dist x < Z.of_nat (length route))%Z.
Proof.
  intros Hwf H Hhead Hlast Hwalk.
  destruct (compute_dijkstra_using_heap_inv g src dist prev Hwf H)
    as (Hsrc & st0 & Hd0 & _ & _ & [Hzero _ _ _ _ _]).
  rewrite Hd0 in Hzero. clear st0 Hd0.
  destruct (compute_dijkstra_using_heap_dist g src dist prev Hwf H)
    as (st & <- & Hq & _ & [_ Hbound _ _ Hclo Hpen]).
  apply (walk_bound g (dist_of g (Heap.distance st)) maxsize src x route);
    [done|done|lia| | |done..].
  - intros v _. apply Hbound.
  - intros u y Hu Hlink Hfin.
    destruct (links_edge g u y Hlink) as (e & He & <-).
    assert (u ∈ Heap.visited st) as Hvis.
    { destruct (decide (u ∈ Heap.visited st)) as [?|Hnv]; [done|].
      pose proof (Hpen u Hu Hnv Hfin) as Hin. rewrite Hq in Hin.
      by apply elem_of_nil in Hin. }
    destruct (Hclo u e Hvis He) as [[_ Hin]|?]; [|done].
    by apply elem_of_nil in Hin.
Qed.

(** X16.  The distances of [compute_dijkstra_using_heap] are the lengths of
    shortest routes, although [Node.__lt__] never says no.  On a well-formed
    store the solver returns for every source node of the store, and
    whatever route leads from the source to a node along edges of the
    store, it has more nodes than the distance reported for that node.  The
    route that [path] reads off the predecessors has exactly one node more
    than that distance, so no route is shorter than it. *)
Theorem heap_distances_are_shortest (g : Graph.t) (src : nat) :
  wf g → src < length (nodes g) →
  ∃ dist prev,
    Heap.compute_dijkstra_using_heap g src = Ok (dist, prev)
    ∧ ∀ route x,
        head route = Some src → last route = Some x → walk g route →
        (dist_of g dist x < Z.of_nat (length route))%Z.
Proof.
  intros Hwf Hsrc.
  destruct (compute_dijkstra_using_heap_total g src Hwf Hsrc)
    as (dist & prev & H & _).
  exists dist, prev. split; [done|].
  intros route x. by apply (solver_lower_bound g src x dist prev).
Qed.

Lemma heap_distances_are_shortest_witness :
  ∃ dist prev,
    Heap.compute_dijkstra_using_heap chain 0 = Ok (dist, prev)
    ∧ (dist_of chain dist 2 < 3)%Z.
Proof.
  destruct (heap_distances_are_shortest chain 0 ltac:(by_evaluation)
              ltac:(by_evaluation)) as (dist & prev & Hrun & Hshort).
  exists dist, prev. split; [exact Hrun|].
  apply (Hshort [0; 1; 2] 2 eq_refl eq_refl). by_evaluation.
Defined.

End DistanceFacts.

(** * The matrix solver on a store in which every node can be reached *)

Module SptFacts.

Import Graph Spec Terms StoreFacts HeapFacts YenFacts MatrixFacts RouteFacts
  DistanceFacts.

(** Runs the solver's code one step, leaving the decisions of the
    statements alone. *)
Ltac run :=
  cbn [Spt.relax Spt.select Spt.rounds mbind Result_bind rbind of_option negb
       Spt.positive_weight Spt.exceeds Spt.plus].

(** ** Counting the settled vertices *)

Lemma all_settled (settled : list nat) (n : nat) :
  NoDup settled → (∀ v, v ∈ settled → v < n) → length settled = n →
  ∀ v, v < n → v ∈ settled.
Proof.
  intros Hnd Hin Hlen v Hv.
  assert (settled ≡ₚ seq 0 n) as Hperm.
  { apply submseteq_length_Permutation; [|rewrite length_seq; lia].
    apply NoDup_submseteq; [done|]. intros x Hx. apply elem_of_seq.
    specialize (Hin x Hx). lia. }
  rewrite Hperm. apply elem_of_seq. lia.
Qed.

Lemma some_unsettled (settled : list nat) (n : nat) :
  length settled < n → ∃ v, v < n ∧ (v ∉ settled).
Proof.
  intros Hlen.
  destruct (decide (Forall (λ v, v ∈ settled) (seq 0 n))) as [Hall|Hex].
  - assert (seq 0 n ⊆+ settled) as Hsub.
    { apply NoDup_submseteq; [apply NoDup_seq|]. by apply Forall_forall. }
    apply submseteq_length in Hsub. rewrite length_seq in Hsub. lia.
  - apply not_Forall_Exists in Hex; [|apply _].
    apply Exists_exists in Hex as (v & Hv & Hnot).
    exists v. split; [|done]. apply elem_of_seq in Hv. lia.
Qed.

(** ** The selection loop *)

Lemma select_spec (dist : list Z) (sptSet : list bool) (n : nat)
  (us : list nat) (min_val : Z) (min_idx : option nat) (seen : nat → Prop) :
  length dist = n → length sptSet = n → Forall (λ v, v < n) us →
  match min_idx with
  | Some u => u < n ∧ sptSet !!! u = false ∧ dist !!! u = min_val
              ∧ (min_val < maxsize)%Z
  | None => min_val = maxsize
  end →
  (∀ v, seen v → sptSet !!! v = false → (min_val ≤ dist !!! v)%Z) →
  ∃ r, Spt.select dist sptSet us min_val min_idx = Ok r
    ∧ match r with
      | Some u => u < n ∧ sptSet !!! u = false ∧ (dist !!! u < maxsize)%Z
                  ∧ ∀ v, seen v ∨ v ∈ us → sptSet !!! v = false →
                         (dist !!! u ≤ dist !!! v)%Z
      | None => ∀ v, seen v ∨ v ∈ us → sptSet !!! v = false →
                     (maxsize ≤ dist !!! v)%Z
      end.
Proof.
  intros Hd Hs Hus. revert min_val min_idx seen.
  induction Hus as [|u us Hu _ IH]; intros min_val min_idx seen Hacc Hseen; simpl.
  - exists min_idx. split; [done|].
    destruct min_idx as [m|].
    + destruct Hacc as (? & ? & <- & ?). split_and!; [done..|].
      intros v [Hv|Hv%elem_of_nil]; [|done]. by apply Hseen.
    + subst min_val. intros v [Hv|Hv%elem_of_nil]; [|done]. by apply Hseen.
  - rewrite (list_lookup_lookup_total_lt dist u) by lia. simpl.
    assert (∀ b : Z,
      (∀ v, (seen v ∨ v = u) ∨ v ∈ us → sptSet !!! v = false →
            (b ≤ dist !!! v)%Z) →
      ∀ v, seen v ∨ v ∈ u :: us → sptSet !!! v = false → (b ≤ dist !!! v)%Z)
      as Hshift.
    { intros b H v [Hv|[->|Hv]%elem_of_cons] Hvs; apply H; auto. }
    destruct (Z.ltb_spec (dist !!! u) min_val) as [Hlt|Hge].
    + rewrite (list_lookup_lookup_total_lt sptSet u) by lia. simpl.
      destruct (sptSet !!! u) eqn:Hsu; simpl.
      * destruct (IH min_val min_idx (λ v, seen v ∨ v = u)) as (r & -> & Hr);
          [done| |].
        { intros v [Hv| ->] Hvs; [by apply Hseen|congruence]. }
        exists r. split; [done|]. destruct r as [m|].
        -- destruct Hr as (? & ? & ? & Hr). split_and!; [done..|].
           by apply (Hshift (dist !!! m)).
        -- by apply (Hshift maxsize).
      * destruct (IH (dist !!! u) (Some u) (λ v, seen v ∨ v = u))
          as (r & -> & Hr).
        { split_and!; [done..|]. destruct min_idx as [m|].
          - destruct Hacc as (_ & _ & _ & ?). lia.
          - lia. }
        { intros v [Hv| ->] Hvs; [|lia]. specialize (Hseen v Hv Hvs). lia. }
        exists r. split; [done|]. destruct r as [m|].
        -- destruct Hr as (? & ? & ? & Hr). split_and!; [done..|].
           by apply (Hshift (dist !!! m)).
        -- by apply (Hshift maxsize).
    + destruct (IH min_val min_idx (λ v, seen v ∨ v = u)) as (r & -> & Hr);
        [done| |].
      { intros v [Hv| ->] Hvs; [by apply Hseen|lia]. }
      exists r. split; [done|]. destruct r as [m|].
      * destruct Hr as (? & ? & ? & Hr). split_and!; [done..|].
        by apply (Hshift (dist !!! m)).
      * by apply (Hshift maxsize).
Qed.

(** ** The relaxation loop against the matrix of the store *)

Lemma build_matrix_entry (g : Graph.t) (m y : nat) :
  wf g → m < length (nodes g) → y < length (nodes g) →
  Spt.entry (build_matrix g) (Some m) y
  = Ok (if decide (0 < links g m y ∨ (m = y ∧ edges_of g m ≠ []))
        then Fin 1 else Inf).
Proof.
  intros Hwf Hm Hy. destruct (lookup_lt_is_Some_2 _ _ Hm) as [n Hn].
  unfold Spt.entry, build_matrix. rewrite list_lookup_fmap, Hn. simpl.
  rewrite list_lookup_fmap, lookup_seq_lt by done. simpl. f_equal.
  pose proof (is_neighbor_wf g m y n Hwf Hn) as Hnb.
  destruct (Node.is_neighbor n y); case_decide as Hd; try done.
  - exfalso. apply Hd. by apply Hnb.
  - apply Hnb in Hd. done.
Qed.

Lemma relax_spec (g : Graph.t) (m : nat) (sptSet : list bool) (dm : Z)
  (ys : list nat) (dist : list Z) :
  wf g → m < length (nodes g) → length sptSet = length (nodes g) →
  sptSet !!! m = true → (dm < maxsize)%Z →
  NoDup ys → Forall (λ y, y < length (nodes g)) ys →
  length dist = length (nodes g) → dist !!! m = dm →
  ∃ dist',
    Spt.relax (build_matrix g) (Some m) sptSet dist ys = Ok dist'
    ∧ length dist' = length (nodes g)
    ∧ ∀ y, y < length (nodes g) →
        dist' !!! y
        = if decide (y ∈ ys ∧ sptSet !!! y = false ∧ 0 < links g m y
                     ∧ (dm + 1 < dist !!! y)%Z)
          then (dm + 1)%Z else dist !!! y.
Proof.
  intros Hwf Hm Hs Hsm Hdm Hnd Hys. revert dist.
  induction Hys as [|y ys Hy _ IH]; intros dist Hd Hdistm; run.
  - exists dist. split_and!; [done..|]. intros y Hy.
    rewrite decide_False; [done|]. intros [?%elem_of_nil _]. done.
  - apply NoDup_cons in Hnd as [Hyys Hnd]. specialize (IH Hnd).
    rewrite (build_matrix_entry g m y Hwf Hm Hy). run.
    assert (∀ dist' : list Z,
      (∀ z, z < length (nodes g) →
         dist' !!! z
         = if decide (z ∈ ys ∧ sptSet !!! z = false ∧ 0 < links g m z
                      ∧ (dm + 1 < dist !!! z)%Z)
           then (dm + 1)%Z else dist !!! z) →
      ¬ (sptSet !!! y = false ∧ 0 < links g m y ∧ (dm + 1 < dist !!! y)%Z) →
      ∀ z, z < length (nodes g) →
         dist' !!! z
         = if decide (z ∈ y :: ys ∧ sptSet !!! z = false ∧ 0 < links g m z
                      ∧ (dm + 1 < dist !!! z)%Z)
           then (dm + 1)%Z else dist !!! z) as Hskip.
    { intros dist' H Hnot z Hz. rewrite (H z Hz).
      destruct (decide (z = y)) as [->|Hne].
      - rewrite !decide_False; [done| |]; intros (? & ? & ? & ?); [|done].
        apply Hnot. done.
      - apply decide_ext. rewrite elem_of_cons. intuition congruence. }
    assert (Spt.positive_weight
              (if decide (0 < links g m y ∨ m = y ∧ edges_of g m ≠ [])
               then Fin 1 else Inf) = true) as Hpos by (by case_decide).
    rewrite Hpos. rewrite (list_lookup_lookup_total_lt sptSet y) by lia.
    run. destruct (sptSet !!! y) eqn:Hsy; run.
    { destruct (IH dist Hd Hdistm) as (dist' & -> & Hlen & Hall).
      exists dist'. split_and!; [done..|]. apply Hskip; [done|].
      intros (? & _). done. }
    rewrite (list_lookup_lookup_total_lt dist m) by lia. run.
    rewrite Hdistm.
    destruct (Z.eqb_spec dm maxsize) as [?|_]; [lia|]. run.
    rewrite (list_lookup_lookup_total_lt dist y) by lia. run.
    assert (m ≠ y) as Hmy by (intros ->; congruence).
    case_decide as Hadj; run.
    + destruct Hadj as [Hlink|[? _]]; [|done].
      destruct (Z.ltb_spec (dm + 1) (dist !!! y)) as [Hlt|Hge].
      * destruct (IH (<[y := (dm + 1)%Z]> dist)) as (dist' & -> & Hlen & Hall).
        { by rewrite length_insert. }
        { by rewrite list_lookup_total_insert_ne. }
        exists dist'. split_and!; [done..|]. intros z Hz. rewrite (Hall z Hz).
        destruct (decide (z = y)) as [->|Hne].
        -- rewrite decide_False by (intros (? & _); done).
           rewrite list_lookup_total_insert_eq by lia.
           rewrite decide_True; [done|]. split_and!; [by left|done..].
        -- rewrite list_lookup_total_insert_ne by done.
           apply decide_ext. rewrite elem_of_cons. intuition congruence.
      * destruct (IH dist Hd Hdistm) as (dist' & -> & Hlen & Hall).
        exists dist'. split_and!; [done..|]. apply Hskip; [done|].
        intros (_ & _ & ?). lia.
    + destruct (IH dist Hd Hdistm) as (dist' & -> & Hlen & Hall).
      exists dist'. split_and!; [done..|]. apply Hskip; [done|].
      intros (_ & ? & _). apply Hadj. by left.
Qed.

(** ** One round, and all of them *)

Lemma lookup_total_settled (sptSet : list bool) (v : nat) :
  v < length sptSet → sptSet !!! v = false ↔ sptSet !! v ≠ Some true.
Proof.
  intros Hv. rewrite (list_lookup_lookup_total_lt sptSet v) by done.
  by destruct (sptSet !!! v); split.
Qed.

Lemma spt_inv_nonneg (g : Graph.t) (src : nat) (settled : list nat)
  (sptSet : list bool) (dist : list Z) (v : nat) :
  spt_inv g src settled sptSet dist → v < length (nodes g) →
  (0 ≤ dist !!! v)%Z.
Proof.
  intros Hinv Hv. pose proof (spt_le _ _ _ _ _ Hinv v Hv) as Hle.
  destruct (decide (dist !!! v < maxsize)%Z) as [Hfin|?]; [|unfold maxsize in *; lia].
  destruct (spt_route _ _ _ _ _ Hinv v Hv Hfin) as (route & Hh & _ & _ & Hlen).
  destruct route; [done|]. cbn [length] in Hlen. lia.
Qed.

(** As long as some vertex is unsettled, one of the unsettled vertices has
    a distance: the first vertex off the settled ones on a route to it. *)
Lemma spt_frontier (g : Graph.t) (src : nat) (settled : list nat)
  (sptSet : list bool) (dist : list Z) :
  wf g → src < length (nodes g) →
  (Z.of_nat (length (nodes g)) < maxsize)%Z →
  (∀ x, x < length (nodes g) → reachable g src x) →
  spt_inv g src settled sptSet dist → length settled < length (nodes g) →
  ∃ v, v < length (nodes g) ∧ (v ∉ settled) ∧ (dist !!! v < maxsize)%Z.
Proof.
  intros Hwf Hsrc Hsmall Hreach Hinv Hlen.
  destruct (decide (src ∈ settled)) as [Hin|Hout].
  2:{ exists src. split_and!; [done..|].
      rewrite (list_lookup_total_correct _ _ _ (spt_src _ _ _ _ _ Hinv)).
      unfold maxsize. lia. }
  destruct (some_unsettled settled _ Hlen) as (x & Hx & Hxs).
  destruct (Hreach x Hx) as (route & Hhead & Hlast & Hwalk).
  assert (∀ route s, s ∈ settled → head route = Some s →
            last route = Some x → walk g route →
            ∃ a b, a ∈ settled ∧ (b ∉ settled) ∧ 0 < links g a b) as Hgen.
  { clear route Hhead Hlast Hwalk.
    induction route as [|u route IH]; intros s Hs Hh Hl Hw; [done|].
    injection Hh as ->. destruct route as [|v route].
    - injection Hl as ->. done.
    - destruct Hw as [Hlink Hw].
      destruct (decide (v ∈ settled)) as [Hv|Hv].
      + by apply (IH v).
      + by exists s, v. }
  destruct (Hgen route src Hin Hhead Hlast Hwalk) as (a & b & Ha & Hb & Hab).
  destruct (links_edge g a b Hab) as (e & He & Heb).
  assert (b < length (nodes g)) as Hbl by (rewrite <- Heb; by eapply wf_edge).
  exists b. split_and!; [done..|].
  pose proof (spt_closed _ _ _ _ _ Hinv a b Ha Hab).
  pose proof (spt_fin _ _ _ _ _ Hinv a Ha) as Hfa.
  assert (a < length (nodes g)) as Hal.
  { apply (spt_settled _ _ _ _ _ Hinv) in Ha. apply lookup_lt_Some in Ha.
    by rewrite (spt_len_set _ _ _ _ _ Hinv) in Ha. }
  pose proof (spt_bound _ _ _ _ _ Hinv a Hal Hfa). lia.
Qed.

Lemma round_spec (g : Graph.t) (src : nat) (settled : list nat)
  (sptSet : list bool) (dist : list Z) :
  wf g → src < length (nodes g) →
  (Z.of_nat (length (nodes g)) < maxsize)%Z →
  (∀ x, x < length (nodes g) → reachable g src x) →
  spt_inv g src settled sptSet dist → length settled < length (nodes g) →
  ∃ u dist',
    Spt.select dist sptSet (seq 0 (length (nodes g))) maxsize None = Ok (Some u)
    ∧ Spt.relax (build_matrix g) (Some u) (<[u := true]> sptSet) dist
        (seq 0 (length (nodes g))) = Ok dist'
    ∧ spt_inv g src (u :: settled) (<[u := true]> sptSet) dist'.
Proof.
  intros Hwf Hsrc Hsmall Hreach Hinv Hlen.
  pose proof Hinv as [Hls Hld Hnd Hset Hs0 Hroute Hbound Hle Hmono Hfin Hclo].
  assert (∀ v, v < length (nodes g) → sptSet !!! v = false ↔ v ∉ settled)
    as Hunset.
  { intros v Hv. rewrite lookup_total_settled by lia. by rewrite Hset. }
  destruct (select_spec dist sptSet (length (nodes g))
              (seq 0 (length (nodes g))) maxsize None (λ _, False))
    as (r & Hsel & Hr); [done|done| |done|done|].
  { apply Forall_forall. intros v Hv%elem_of_seq. lia. }
  destruct r as [u|].
  2:{ destruct (spt_frontier g src settled sptSet dist) as (v & Hv & Hvs & Hvd);
        [done..|].
      specialize (Hr v). rewrite elem_of_seq in Hr.
      specialize (Hr ltac:(right; lia) ltac:(by apply Hunset)). lia. }
  destruct Hr as (Hu & Hus & Hud & Hmin).
  assert (u ∉ settled) as Hunew by (by apply Hunset).
  assert (∀ v, v < length (nodes g) → v ∉ settled →
               (dist !!! u ≤ dist !!! v)%Z) as Hmin'.
  { intros v Hv Hvs. apply Hmin; [right; apply elem_of_seq; lia|].
    by apply Hunset. }
  destruct (relax_spec g u (<[u := true]> sptSet) (dist !!! u)
              (seq 0 (length (nodes g))) dist)
    as (dist' & Hrel & Hld' & Hall);
    [done|done|by rewrite length_insert|by rewrite list_lookup_total_insert_eq by lia
    |done|apply NoDup_seq| |done|done|].
  { apply Forall_forall. intros v Hv%elem_of_seq. lia. }
  exists u, dist'. split_and!; [done..|].
  assert (∀ v, v < length (nodes g) →
            <[u := true]> sptSet !!! v = false ↔ v ∉ u :: settled) as Hunset'.
  { intros v Hv. rewrite not_elem_of_cons.
    destruct (decide (v = u)) as [->|Hne].
    - rewrite list_lookup_total_insert_eq by lia. split; [done|].
      intros [? _]. done.
    - rewrite list_lookup_total_insert_ne by done. rewrite Hunset by done.
      split; [by split|]. by intros [_ ?]. }
  assert (∀ y, y < length (nodes g) →
     dist' !!! y
     = if decide ((y ∉ u :: settled) ∧ 0 < links g u y
                  ∧ (dist !!! u + 1 < dist !!! y)%Z)
       then (dist !!! u + 1)%Z else dist !!! y) as Hall'.
  { intros y Hy. rewrite (Hall y Hy). apply decide_ext.
    rewrite Hunset' by done. rewrite elem_of_seq. split.
    - intros (_ & ? & ? & ?). by split_and!.
    - intros (? & ? & ?). split_and!; [lia|done..]. }
  clear Hall.
  assert (∀ y, y < length (nodes g) → (dist' !!! y ≤ dist !!! y)%Z) as Hdown.
  { intros y Hy. rewrite (Hall' y Hy). case_decide; lia. }
  assert (∀ s, s ∈ u :: settled → dist' !!! s = dist !!! s) as Hkeep.
  { intros s Hin.
    assert (s < length (nodes g)) as Hsl.
    { apply elem_of_cons in Hin as [->|Hin]; [done|].
      apply Hset in Hin. apply lookup_lt_Some in Hin. lia. }
    rewrite (Hall' s Hsl). rewrite decide_False; [done|].
    intros (Hnot & _). by apply Hnot. }
  pose proof (spt_inv_nonneg g src settled sptSet dist u Hinv Hu) as Hu0.
  constructor.
  - by rewrite length_insert.
  - done.
  - by constructor.
  - intros v. rewrite elem_of_cons, list_lookup_insert_Some, Hset.
    split; [intros [->|Hv]|intros [(<- & _ & _)|[_ ?]]]; [| |by left|by right].
    + left. split_and!; [done..|lia].
    + destruct (decide (u = v)) as [->|Hne]; [left|by right].
      split_and!; [done..|]. by apply lookup_lt_Some in Hv.
  - rewrite (list_lookup_lookup_total_lt dist' src) by lia. f_equal.
    rewrite (Hall' src Hsrc).
    rewrite (list_lookup_total_correct _ _ _ Hs0).
    case_decide as Hc; [|done]. destruct Hc as (_ & _ & ?). lia.
  - intros v Hv Hvd. rewrite (Hall' v Hv) in Hvd |- *.
    case_decide as Hc; [|by apply Hroute].
    destruct Hc as (_ & Hlink & _).
    destruct (Hroute u Hu Hud) as (route & Hh & Hl & Hw & Hlen').
    exists (route ++ [v]). split_and!.
    + by destruct route.
    + by rewrite last_snoc.
    + by apply (walk_snoc g route u v).
    + rewrite length_app. simpl. lia.
  - intros v Hv Hvd. rewrite (Hall' v Hv) in Hvd |- *. cbn [length].
    case_decide as Hc.
    + pose proof (Hbound u Hu Hud). lia.
    + pose proof (Hbound v Hv Hvd). lia.
  - intros v Hv. pose proof (Hdown v Hv). pose proof (Hle v Hv). lia.
  - intros s v Hs Hv Hvs. rewrite (Hkeep s Hs), (Hall' v Hv).
    apply not_elem_of_cons in Hvs as [Hvu Hvs].
    apply elem_of_cons in Hs as [->|Hs].
    + case_decide; [lia|by apply Hmin'].
    + pose proof (Hmono s u Hs Hu Hunew). pose proof (Hmono s v Hs Hv Hvs).
      case_decide; lia.
  - intros s Hs. rewrite (Hkeep s Hs).
    apply elem_of_cons in Hs as [->|Hs]; [done|by apply Hfin].
  - intros s y Hs Hlink. rewrite (Hkeep s Hs).
    destruct (links_edge g s y Hlink) as (e & He & Hey).
    assert (y < length (nodes g)) as Hy by (rewrite <- Hey; by eapply wf_edge).
    apply elem_of_cons in Hs as [->|Hs].
    + rewrite (Hall' y Hy). case_decide as Hc; [lia|].
      destruct (decide (y ∈ u :: settled)) as [[->|Hys]%elem_of_cons|Hys].
      * lia.
      * pose proof (Hmono y u Hys Hu Hunew). lia.
      * assert (¬ (dist !!! u + 1 < dist !!! y)%Z) as Hn
          by (intros ?; apply Hc; by split_and!).
        lia.
    + pose proof (Hclo s y Hs Hlink). pose proof (Hdown y Hy). lia.
Qed.

Lemma rounds_spec (g : Graph.t) (src : nat) (k : nat) (settled : list nat)
  (sptSet : list bool) (dist : list Z) :
  wf g → src < length (nodes g) →
  (Z.of_nat (length (nodes g)) < maxsize)%Z →
  (∀ x, x < length (nodes g) → reachable g src x) →
  spt_inv g src settled sptSet dist →
  length settled + k = length (nodes g) →
  ∃ dist' settled' sptSet',
    Spt.rounds k (length (nodes g)) (build_matrix g) sptSet dist = Ok dist'
    ∧ spt_inv g src settled' sptSet' dist'
    ∧ length settled' = length (nodes g).
Proof.
  intros Hwf Hsrc Hsmall Hreach. revert settled sptSet dist.
  induction k as [|k IH]; intros settled sptSet dist Hinv Hlen; simpl.
  - exists dist, settled, sptSet. split_and!; [done..|lia].
  - destruct (round_spec g src settled sptSet dist) as (u & dist1 & -> & Hrel & Hinv1);
      [done..|lia|].
    simpl. rewrite Hrel. simpl. apply (IH (u :: settled)); [done|]. simpl. lia.
Qed.

(** What the matrix solver returns on a store in which every node can be
    reached from the source. *)
Lemma spt_result (g : Graph.t) (src dst : nat) :
  wf g →
  adjacency_matrix g = None ∨ adjacency_matrix g = Some (build_matrix g) →
  src < length (nodes g) → dst < length (nodes g) →
  (Z.of_nat (length (nodes g)) < maxsize)%Z →
  (∀ x, x < length (nodes g) → reachable g src x) →
  ∃ d, (Spt.compute_dijikstra_using_spt src dst g).1 = Ok d
    ∧ (d ≤ Z.of_nat (length (nodes g)))%Z
    ∧ route_of_length g src dst d
    ∧ ∀ route, head route = Some src → last route = Some dst → walk g route →
               (d < Z.of_nat (length route))%Z.
Proof.
  intros Hwf Hadj Hsrc Hdst Hsmall Hreach.
  destruct (lookup_lt_is_Some_2 _ _ Hsrc) as [ns Hns].
  destruct (lookup_lt_is_Some_2 _ _ Hdst) as [nd Hnd].
  set (n := length (nodes g)) in *.
  set (dist0 := <[src := 0%Z]> (replicate n maxsize)).
  set (sptSet0 := replicate n false).
  assert (spt_inv g src [] sptSet0 dist0) as Hinv0.
  { assert (∀ v, v < n → v ≠ src → dist0 !!! v = maxsize) as Hfar.
    { intros v Hv Hne. unfold dist0. rewrite list_lookup_total_insert_ne by done.
      by apply lookup_total_replicate_2. }
    assert (dist0 !!! src = 0%Z) as Hzero.
    { unfold dist0. apply list_lookup_total_insert_eq.
      by rewrite length_replicate. }
    constructor.
    - apply length_replicate.
    - unfold dist0. by rewrite length_insert, length_replicate.
    - constructor.
    - intros v. split; [by intros ?%elem_of_nil|].
      intros [? _]%lookup_replicate. done.
    - unfold dist0. apply list_lookup_insert_eq. by rewrite length_replicate.
    - intros v Hv Hvd. destruct (decide (v = src)) as [->|Hne].
      + exists [src]. rewrite Hzero. by split_and!.
      + rewrite (Hfar v Hv Hne) in Hvd. lia.
    - intros v Hv Hvd. destruct (decide (v = src)) as [->|Hne].
      + rewrite Hzero. simpl. lia.
      + rewrite (Hfar v Hv Hne) in Hvd. lia.
    - intros v Hv. destruct (decide (v = src)) as [->|Hne].
      + rewrite Hzero. unfold maxsize. lia.
      + rewrite (Hfar v Hv Hne). lia.
    - by intros s v ?%elem_of_nil.
    - by intros s ?%elem_of_nil.
    - by intros s y ?%elem_of_nil. }
  destruct (rounds_spec g src n [] sptSet0 dist0)
    as (dist' & settled & sptSet' & Hrounds & Hinv & Hlen); [done..|].
  pose proof Hinv as [Hls Hld Hndp Hset Hs0 Hroute Hbound Hle Hmono Hfin Hclo].
  assert (∀ v, v < n → v ∈ settled) as Hall.
  { apply all_settled; [done| |done]. intros v Hv. apply Hset in Hv.
    apply lookup_lt_Some in Hv. unfold n. lia. }
  exists (dist' !!! dst). split_and!.
  - unfold Spt.compute_dijikstra_using_spt, bind, get, lift,
      generate_adjancency_matrix.
    rewrite (node_id_ok _ _ _ Hns), (node_id_ok _ _ _ Hnd).
    rewrite (wf_index g src ns Hwf Hns), (wf_index g dst nd Hwf Hnd).
    assert (of_option IndexError (replicate (length (nodes g)) maxsize !! src)
            = Ok maxsize) as Hlook.
    { by rewrite lookup_replicate_2. }
    destruct Hadj as [-> | ->]; cbn [of_option fst snd]; rewrite Hlook;
      cbn [nodes set_adjacency_matrix]; fold n; fold dist0; fold sptSet0;
      change (Spt.rounds n n (build_matrix g) sptSet0 dist0 = Ok dist')
        in Hrounds;
      rewrite Hrounds; cbn [fst];
      by rewrite (list_lookup_lookup_total_lt dist' dst) by lia.
  - unfold n. rewrite <- Hlen. apply Hbound; [done|]. apply Hfin, Hall. done.
  - apply Hroute; [done|]. apply Hfin, Hall. done.
  - intros route Hhead Hlast Hwalk.
    apply (walk_bound g (λ v, dist' !!! v) maxsize src dst route);
      [done|done| |done| |done..].
    + rewrite (list_lookup_total_correct _ _ _ Hs0). lia.
    + intros u y Hu Hlink _. apply Hclo; [by apply Hall|done].
Qed.

(** X17.  The two solvers agree on a store in which every node can be
    reached from the source.  On a well-formed store with fewer than
    [sys.maxsize] nodes whose adjacency matrix is yet to be built, or was
    built from the store as it is, [compute_dijikstra_using_spt] returns;
    what it returns is the distance that [compute_dijkstra_using_heap]
    records for the destination; some route from the source to the
    destination has that many edges, and no route has fewer. *)
Theorem solvers_agree_when_connected (g : Graph.t) (src dst : nat) :
  wf g →
  adjacency_matrix g = None ∨ adjacency_matrix g = Some (build_matrix g) →
  src < length (nodes g) → dst < length (nodes g) →
  (Z.of_nat (length (nodes g)) < maxsize)%Z →
  (∀ x, x < length (nodes g) → reachable g src x) →
  ∃ d dist prev,
    (Spt.compute_dijikstra_using_spt src dst g).1 = Ok d
    ∧ Heap.compute_dijkstra_using_heap g src = Ok (dist, prev)
    ∧ dist_of g dist dst = d
    ∧ route_of_length g src dst d
    ∧ ∀ route, head route = Some src → last route = Some dst → walk g route →
               (d < Z.of_nat (length route))%Z.
Proof.
  intros Hwf Hadj Hsrc Hdst Hsmall Hreach.
  destruct (spt_result g src dst Hwf Hadj Hsrc Hdst Hsmall Hreach)
    as (d & Hspt & Hd & Hroute & Hshort).
  destruct (compute_dijkstra_using_heap_total g src Hwf Hsrc)
    as (dist & prev & Hheap & _).
  exists d, dist, prev. split_and!; [done|done| |done|done].
  destruct Hroute as (route & Hh & Hl & Hw & Hlen).
  pose proof (solver_lower_bound g src dst dist prev route Hwf Hheap Hh Hl Hw)
    as Hle.
  destruct (compute_dijkstra_using_heap_inv g src dist prev Hwf Hheap)
    as (_ & st & Hdist & Hprev & _ & [Hzero _ _ _ _ Hfar]).
  rewrite Hdist in Hzero.
  destruct (Hfar dst Hdst) as [->|[Hsome|Hmax]].
  - pose proof (Hshort [src] eq_refl eq_refl I) as Hone. simpl in Hone. lia.
  - rewrite Hprev in Hsome.
    destruct (solver_route g src dst dist prev Hwf Hheap Hsome)
      as (route' & _ & Hh' & Hl' & Hw' & Hlen').
    pose proof (Hshort route' Hh' Hl' Hw'). lia.
  - rewrite Hdist in Hmax. lia.
Qed.

Lemma solvers_agree_when_connected_witness :
  ∃ d dist prev,
    (Spt.compute_dijikstra_using_spt 0 2 chain).1 = Ok d
    ∧ Heap.compute_dijkstra_using_heap chain 0 = Ok (dist, prev)
    ∧ dist_of chain dist 2 = d.
Proof.
  destruct (solvers_agree_when_connected chain 0 2)
    as (d & dist & prev & Hspt & Hheap & Hagree & _).
  - by_evaluation.
  - left. reflexivity.
  - by_evaluation.
  - by_evaluation.
  - vm_compute. reflexivity.
  - intros x Hx.
    assert (x = 0 ∨ x = 1 ∨ x = 2) as [->|[->| ->]].
    { assert (length (nodes chain) = 3) as Hn by (vm_compute; reflexivity).
      rewrite Hn in Hx. lia. }
    + exists [0]. split_and!; [reflexivity..|by_evaluation].
    + exists [0; 1]. split_and!; [reflexivity..|by_evaluation].
    + exists [0; 1; 2]. split_and!; [reflexivity..|by_evaluation].
  - exists d, dist, prev. split_and!; [exact Hspt|exact Hheap|exact Hagree].
Defined.

End SptFacts.
